(** * A shallow embedding of the sseq chart state engine and interaction modes

    Sources embedded here:
    - [src/server/spectralsequence_chart/chart.py]
      ([ChartData], [SpectralSequenceChart]);
    - [src/chart/server/spectralsequence_chart/interactive_chart.py]
      ([InteractiveChartAgent] and its [Mode] classes).

    Python objects that are shared and mutated are kept in stores and
    named by references; awaited calls run in program order; every
    outbound message is appended to an outbox in emission order. *)

From Stdlib Require Import ZArith QArith String Sorted.
From stdpp Require Import base decidable numbers option list strings gmap sets.

Local Open Scope string_scope.
Local Open Scope list_scope.

(** ** Data model *)

(** [INFINITY = 65535] *)
Definition INFINITY : Z := 65535%Z.

(** A page range is a two-element Python list [[lo, hi]]; list equality and
    [p[0]] are then pair equality and the first projection. *)
Definition PageRange : Type := (Z * Z)%type.

(** A [ChartNode] object.  [node_idx] is [None] until somebody assigns
    [node.idx]. *)
Record ChartNode := mkChartNode {
  node_shape : string;
  node_idx : option nat
}.

(** A [ChartClass] object.  A class is named by its position in
    [ChartData.classes]: class objects are only built inside [add_class_a],
    which appends them at once.  [class_id] is [None] until [c.id] is
    assigned. *)
Record ChartClass := mkChartClass {
  class_x : Z;
  class_y : Z;
  class_id : option nat;
  class_node_list : list nat;
  class_pages : list Z;
  class_edges : list nat          (* [_edges]: references into [edges] *)
}.

Inductive EdgeType := ChartStructline | ChartDifferential | ChartExtension.

(** An edge object; it is named by its position in [ChartData.edges].
    [edge_id] is [None] until [add_edge_a] assigns [e.id]. *)
Record ChartEdge := mkChartEdge {
  edge_id : option nat;
  edge_type : EdgeType;
  edge_source : nat;
  edge_target : nat;
  edge_page : option Z;
  edge_color : option string
}.

(** What [add_element_to_update] may receive: a class or an edge object,
    compared by identity. *)
Inductive Element := ClassElement (c : nat) | EdgeElement (e : nat).

#[global] Instance Element_eq_dec : EqDecision Element.
Proof. solve_decision. Defined.

#[global] Instance Element_countable : Countable Element.
Proof.
  refine (inj_countable'
    (fun e => match e with ClassElement c => inl c | EdgeElement n => inr n end)
    (fun s => match s with inl c => ClassElement c | inr n => EdgeElement n end) _).
  by intros [].
Defined.

#[global] Instance EdgeType_eq_dec : EqDecision EdgeType.
Proof. solve_decision. Defined.

(** [ChartData].  [node_objects] is the part of the Python heap that holds
    the [ChartNode] objects: [nodes] and [_nodes_dict] hold references into
    it, because a node is built by the caller and handed over. *)
Record ChartData := mkChartData {
  name : string;
  initial_x_range : Z * Z;
  initial_y_range : Z * Z;
  page_list : list PageRange;
  min_page_idx : Z;
  node_objects : list ChartNode;
  nodes : list nat;
  _nodes_dict : gmap nat nat;
  classes : list ChartClass;
  _classes_by_bidegree : gmap (Z * Z) (list nat);
  edges : list ChartEdge;
  _updated_elements : gset Element
}.

(** Outbound messages: the command string and the keyword payload. *)
Inductive Payload :=
| NodeAdd (node : nat)
| InsertPageRange (page_range : PageRange) (idx : nat)
| ClassAdd (new_class : nat)
| ClassUpdate (to_update : list Element)
| EdgeAdd (type : EdgeType) (id source target : nat) (page : option Z)
| SetInfo (info : string)
| SetInfoSource (c : nat)       (* info names the class [c] as current source *)
| Prompt (msg : string) (default : option string)
| NoPayload.

Record Message := mkMessage { cmd : string; payload : Payload }.

(** The agent [SpectralSequenceChart]: its [data] and the messages it has
    sent outward so far. *)
Record SpectralSequenceChart := mkChart {
  data : ChartData;
  outbox : list Message
}.

(** *** Field updates *)

Definition set_page_list (v : list PageRange) (d : ChartData) : ChartData :=
  mkChartData (name d) (initial_x_range d) (initial_y_range d) v
    (min_page_idx d) (node_objects d) (nodes d) (_nodes_dict d) (classes d)
    (_classes_by_bidegree d) (edges d) (_updated_elements d).

Definition set_node_objects (v : list ChartNode) (d : ChartData) : ChartData :=
  mkChartData (name d) (initial_x_range d) (initial_y_range d) (page_list d)
    (min_page_idx d) v (nodes d) (_nodes_dict d) (classes d)
    (_classes_by_bidegree d) (edges d) (_updated_elements d).

Definition set_nodes (v : list nat) (d : ChartData) : ChartData :=
  mkChartData (name d) (initial_x_range d) (initial_y_range d) (page_list d)
    (min_page_idx d) (node_objects d) v (_nodes_dict d) (classes d)
    (_classes_by_bidegree d) (edges d) (_updated_elements d).

Definition set_classes (v : list ChartClass) (d : ChartData) : ChartData :=
  mkChartData (name d) (initial_x_range d) (initial_y_range d) (page_list d)
    (min_page_idx d) (node_objects d) (nodes d) (_nodes_dict d) v
    (_classes_by_bidegree d) (edges d) (_updated_elements d).

Definition set_classes_by_bidegree (v : gmap (Z * Z) (list nat)) (d : ChartData)
  : ChartData :=
  mkChartData (name d) (initial_x_range d) (initial_y_range d) (page_list d)
    (min_page_idx d) (node_objects d) (nodes d) (_nodes_dict d) (classes d)
    v (edges d) (_updated_elements d).

Definition set_edges (v : list ChartEdge) (d : ChartData) : ChartData :=
  mkChartData (name d) (initial_x_range d) (initial_y_range d) (page_list d)
    (min_page_idx d) (node_objects d) (nodes d) (_nodes_dict d) (classes d)
    (_classes_by_bidegree d) v (_updated_elements d).

Definition set_updated_elements (v : gset Element) (d : ChartData) : ChartData :=
  mkChartData (name d) (initial_x_range d) (initial_y_range d) (page_list d)
    (min_page_idx d) (node_objects d) (nodes d) (_nodes_dict d) (classes d)
    (_classes_by_bidegree d) (edges d) v.

Definition with_data (f : ChartData -> ChartData) (s : SpectralSequenceChart)
  : SpectralSequenceChart :=
  mkChart (f (data s)) (outbox s).

(** ** [ChartData.__init__] *)

(** Modelled from the spec: [ChartNode.__hash__] lives in [chart_elements],
    which is missing; section 3 calls the key of the dedup cache the node's
    identity-hash, so the hash of a node is taken to be its reference. *)
Definition hash_node (n : nat) : nat := n.

Definition ChartData_init (chart_name : string) : ChartData :=
  let default_node := mkChartNode "circle" (Some 0) in
  mkChartData chart_name (0, 10)%Z (0, 10)%Z
    [(2%Z, INFINITY); (INFINITY, INFINITY)]
    0%Z
    [default_node]
    [0]
    {[ hash_node 0 := 0 ]}
    []
    ∅
    []
    ∅.

(** [SpectralSequenceChart.__init__] *)
Definition SpectralSequenceChart_init (chart_name : string) : SpectralSequenceChart :=
  mkChart (ChartData_init chart_name) [].

(** ** Operations of the chart state engine *)

(** [broadcast_a]: [send_message_outward_a(cmd, args, kwargs)]. *)
Definition broadcast_a (c : string) (p : Payload) (s : SpectralSequenceChart)
  : SpectralSequenceChart :=
  mkChart (data s) (outbox s ++ [mkMessage c p]).

(** The [for (i, p) in enumerate(page_list) ... else] loop of
    [add_page_range_a]: the index of the first entry whose lower bound
    exceeds [lo], or the length of the list. *)
Fixpoint find_insert_idx (lo : Z) (l : list PageRange) : nat :=
  match l with
  | [] => 0
  | p :: l' => if decide (p.1 > lo)%Z then 0 else S (find_insert_idx lo l')
  end.

(** Python's [list.insert(idx, x)]. *)
Definition list_insert_at {A} (i : nat) (x : A) (l : list A) : list A :=
  take i l ++ x :: drop i l.

Definition add_page_range_a (page_range : PageRange) (s : SpectralSequenceChart)
  : SpectralSequenceChart :=
  if decide (page_range ∈ page_list (data s)) then s
  else
    (* with self.data._page_list_lock: *)
    if decide (page_range ∈ page_list (data s)) then s
    else
      let idx := find_insert_idx page_range.1 (page_list (data s)) in
      let s' := with_data
                  (set_page_list (list_insert_at idx page_range (page_list (data s)))) s in
      broadcast_a "chart.insert_page_range" (InsertPageRange page_range idx) s'.

(** The messages sent between two states of the same agent. *)
Definition emitted (s s' : SpectralSequenceChart) : list Message :=
  drop (length (outbox s)) (outbox s').

(** The page list is ascending by lower bound. *)
Definition page_list_sorted (l : list PageRange) : Prop :=
  StronglySorted (fun p q => (p.1 <= q.1)%Z) l.

(** *** Nodes *)

(** Modelled from the spec: the constructor [ChartNode(chart, shape=...)]
    lives in [chart_elements], which is missing; a node is a rendering
    primitive with a shape and no index yet.  The new object is allocated in
    [node_objects] and its reference returned. *)
Definition ChartNode_new (node_shape0 : string) (s : SpectralSequenceChart)
  : nat * SpectralSequenceChart :=
  let d := data s in
  (length (node_objects d),
   with_data (set_node_objects (node_objects d ++ [mkChartNode node_shape0 None])) s).

Definition set_node_idx (i : nat) (n : ChartNode) : ChartNode :=
  mkChartNode (node_shape n) (Some i).

(** [add_node_a(node)]: [node] is a reference to an existing object. *)
Definition add_node_a (node : nat) (s : SpectralSequenceChart)
  : option SpectralSequenceChart :=
  let d := data s in
  _ ← node_objects d !! node;
  (* node.idx = len(self.data.nodes) *)
  let objs := alter (set_node_idx (length (nodes d))) node (node_objects d) in
  (* self.data.nodes.append(node) *)
  let s1 := with_data (fun d => set_nodes (nodes d ++ [node]) (set_node_objects objs d)) s in
  Some (broadcast_a "chart.node.add" (NodeAdd node) s1).

(** *** Classes *)

(** Modelled from the spec: [ChartClass.__init__] lives in [chart_elements],
    which is missing; the object takes its bidegree and node list from the
    keyword fields and starts with no page and no incident edge. *)
Definition ChartClass_new (x y : Z) (node_list : list nat) : ChartClass :=
  mkChartClass x y None node_list [] [].

Definition set_class_id (i : nat) (c : ChartClass) : ChartClass :=
  mkChartClass (class_x c) (class_y c) (Some i) (class_node_list c)
    (class_pages c) (class_edges c).

(** [add_class_a(x, y)], called without further keyword fields (with a
    [color] field the source also awaits [ChartClass.set_field_a], which is
    in the missing [chart_elements]).  Returns the reference of the new
    class. *)
Definition add_class_a (x y : Z) (s : SpectralSequenceChart)
  : nat * SpectralSequenceChart :=
  let d := data s in
  let c := ChartClass_new x y [0] in
  (* c.id = len(self.data.classes); self.data.classes.append(c) *)
  let ref := length (classes d) in
  let c := set_class_id (length (classes d)) c in
  let cs := classes d ++ [c] in
  let pos := (class_x c, class_y c) in
  let m := _classes_by_bidegree d in
  let m1 := if decide (pos ∈ dom m) then m else <[pos := []]> m in
  let m2 := alter (fun l => l ++ [ref]) pos m1 in
  let s1 := with_data (fun d => set_classes_by_bidegree m2 (set_classes cs d)) s in
  (ref, broadcast_a "chart.class.add" (ClassAdd ref) s1).

(** [get_classes_in_bidegree] *)
Definition get_classes_in_bidegree (x y : Z) (s : SpectralSequenceChart) : list nat :=
  default [] (_classes_by_bidegree (data s) !! (x, y)).

(** *** The dirty set *)

(** [ChartData.add_element_to_update] *)
Definition add_element_to_update (e : Element) (d : ChartData) : ChartData :=
  set_updated_elements ({[ e ]} ∪ _updated_elements d) d.

(** [update_a]: one [chart.class.update] carrying [list(_updated_elements)],
    then the set is replaced by a new empty one. *)
Definition update_a (s : SpectralSequenceChart) : SpectralSequenceChart :=
  let s1 := broadcast_a "chart.class.update"
              (ClassUpdate (elements (_updated_elements (data s)))) s in
  with_data (set_updated_elements ∅) s1.

(** *** Edges *)

(** Modelled from the spec: the edge constructors [ChartStructline],
    [ChartDifferential] and [ChartExtension] live in [chart_elements], which
    is missing; an edge has a type tag, a source and a target class and, for
    a differential, a page. *)
Definition ChartEdge_new (ty : EdgeType) (source target : nat) (page : option Z)
  : ChartEdge :=
  mkChartEdge None ty source target page None.

Definition set_edge_id (i : nat) (e : ChartEdge) : ChartEdge :=
  mkChartEdge (Some i) (edge_type e) (edge_source e) (edge_target e)
    (edge_page e) (edge_color e).

Definition set_edge_color (c : option string) (e : ChartEdge) : ChartEdge :=
  mkChartEdge (edge_id e) (edge_type e) (edge_source e) (edge_target e)
    (edge_page e) c.

(** [c._edges.append(e)] *)
Definition append_edge (e : nat) (c : ChartClass) : ChartClass :=
  mkChartClass (class_x c) (class_y c) (class_id c) (class_node_list c)
    (class_pages c) (class_edges c ++ [e]).

(** [add_edge_a(e, **kwargs)] for a newly built edge object [e]; [page] is
    the [page] keyword, the only one the callers below pass.  Returns the
    reference of the stored edge. *)
Definition add_edge_a (e : ChartEdge) (page : option Z) (s : SpectralSequenceChart)
  : option (nat * SpectralSequenceChart) :=
  let d := data s in
  (* e.id = len(self.data.edges) *)
  let ref := length (edges d) in
  let e := set_edge_id (length (edges d)) e in
  let source := edge_source e in
  let target := edge_target e in
  _ ← classes d !! source;
  _ ← classes d !! target;
  let es := edges d ++ [e] in
  let cs := alter (append_edge ref) source (classes d) in
  let cs := alter (append_edge ref) target cs in
  id ← edge_id e;
  source_id ← cs !! source ≫= class_id;
  target_id ← cs !! target ≫= class_id;
  let s1 := with_data (fun d => set_classes cs (set_edges es d)) s in
  Some (ref, broadcast_a "chart.edge.add"
               (EdgeAdd (edge_type e) id source_id target_id page) s1).

(** [add_structline_a(source, target)] *)
Definition add_structline_a (source target : nat) (s : SpectralSequenceChart)
  : option (nat * SpectralSequenceChart) :=
  add_edge_a (ChartEdge_new ChartStructline source target None) None s.

(** Modelled from the spec: [add_extension] is not in [chart.py]; section
    4.2 gives it the same behaviour as [add_structline] for an extension
    edge. *)
Definition add_extension_a (source target : nat) (s : SpectralSequenceChart)
  : option (nat * SpectralSequenceChart) :=
  add_edge_a (ChartEdge_new ChartExtension source target None) None s.

(** Modelled from the spec: [ChartClass.add_page] lives in [chart_elements],
    which is missing; it records that the class participates on [page]. *)
Definition add_page (page : Z) (c : ChartClass) : ChartClass :=
  mkChartClass (class_x c) (class_y c) (class_id c) (class_node_list c)
    (class_pages c ++ [page]) (class_edges c).

(** [add_differential_a(page, source, target, auto)] *)
Definition add_differential_a (page : Z) (source target : nat) (auto : bool)
    (s : SpectralSequenceChart) : option (nat * SpectralSequenceChart) :=
  s1 ← (if auto then
          _ ← classes (data s) !! source;
          let s := with_data (fun d => set_classes (alter (add_page page) source (classes d)) d) s in
          _ ← classes (data s) !! target;
          let s := with_data (fun d => set_classes (alter (add_page page) target (classes d)) d) s in
          let s := add_page_range_a (page, page) s in
          Some (update_a s)
        else Some s);
  add_edge_a (ChartEdge_new ChartDifferential source target (Some page)) (Some page) s1.

(** *** Calls as data *)

(** One call on the engine.  [OpNewNode] is the caller building a node
    object; the others are the engine's operations. *)
Inductive Op :=
| OpNewNode (node_shape0 : string)
| OpAddNode (node : nat)
| OpAddPageRange (page_range : PageRange)
| OpAddClass (x y : Z)
| OpQueueUpdate (e : Element)
| OpFlushUpdates
| OpAddStructline (source target : nat)
| OpAddExtension (source target : nat)
| OpAddDifferential (page : Z) (source target : nat) (auto : bool).

Definition run_op (o : Op) (s : SpectralSequenceChart) : option SpectralSequenceChart :=
  match o with
  | OpNewNode sh => Some (ChartNode_new sh s).2
  | OpAddNode n => add_node_a n s
  | OpAddPageRange r => Some (add_page_range_a r s)
  | OpAddClass x y => Some (add_class_a x y s).2
  | OpQueueUpdate e => Some (with_data (add_element_to_update e) s)
  | OpFlushUpdates => Some (update_a s)
  | OpAddStructline a b => snd <$> add_structline_a a b s
  | OpAddExtension a b => snd <$> add_extension_a a b s
  | OpAddDifferential p a b auto => snd <$> add_differential_a p a b auto s
  end.

Fixpoint run_ops (os : list Op) (s : SpectralSequenceChart) : option SpectralSequenceChart :=
  match os with
  | [] => Some s
  | o :: os' => s' ← run_op o s; run_ops os' s'
  end.

(** [queue_update] called on each element of [l] in turn. *)
Definition queue_updates (l : list Element) (s : SpectralSequenceChart)
  : SpectralSequenceChart :=
  foldl (fun s e => with_data (add_element_to_update e) s) s l.

(** ** The interactive agent *)

(** Python values that travel in message payloads. *)
Inductive Value := VStr (s : string) | VInt (z : Z) | VNone.

Inductive Exception :=
| KeyError (key : string)
| RuntimeError_unknown_mode (new_mode : Value)
| RuntimeError_invalid_mode_command (cmd_str : string)
| RuntimeError_mode_instantiated
| TypeError (method : string).

(** Modelled from the spec: [Envelope] lives in [message_passing_tree],
    which is missing; it carries the command (here its [part_list]) and a
    consumed flag that [mark_used] sets. *)
Record Envelope := mkEnvelope {
  part_list : list string;
  used : bool
}.

Definition mark_used (e : Envelope) : Envelope := mkEnvelope (part_list e) true.

(** [cmd.str]: the dot-joined command. *)
Definition cmd_str (e : Envelope) : string := String.concat "." (part_list e).

(** The [Mode] subclasses that [interactive_chart.py] registers. *)
Inductive Mode :=
| NoMode | AddClassMode | AddEdgeMode | NameClassMode | ColorMode
| AddExtensionMode | AddDifferentialMode | NudgeClassMode.

#[global] Instance Mode_eq_dec : EqDecision Mode.
Proof. solve_decision. Defined.

(** [cls.__name__] *)
Definition Mode_name (m : Mode) : string :=
  match m with
  | NoMode => "NoMode"
  | AddClassMode => "AddClassMode"
  | AddEdgeMode => "AddEdgeMode"
  | NameClassMode => "NameClassMode"
  | ColorMode => "ColorMode"
  | AddExtensionMode => "AddExtensionMode"
  | AddDifferentialMode => "AddDifferentialMode"
  | NudgeClassMode => "NudgeClassMode"
  end.

(** [register_mode]: [InteractiveChartAgent.modes[cls.__name__] = cls] *)
Definition register_mode (cls : Mode) (modes : gmap string Mode) : gmap string Mode :=
  <[Mode_name cls := cls]> modes.

(** [InteractiveChartAgent.modes] once the module is loaded: the decorator
    has run on each class in the order of the file. *)
Definition modes : gmap string Mode :=
  foldl (fun m cls => register_mode cls m) ∅
    [NoMode; AddClassMode; AddEdgeMode; NameClassMode; ColorMode;
     AddExtensionMode; AddDifferentialMode; NudgeClassMode].

(** The methods the base class [Mode] defines. *)
Definition Mode_methods : list string :=
  ["__init__"; "handle_click_a"; "handle__cancel__a"].

(** The methods each subclass defines itself. *)
Definition own_methods (m : Mode) : list string :=
  match m with
  | NoMode => ["handle_click_a"]
  | AddClassMode => ["handle_click_a"; "handle__cancel__a"]
  | AddEdgeMode => ["handle_click_a"; "handle__cancel__a"]
  | NameClassMode => ["handle_click_a"]
  | ColorMode => ["handle_click_a"]
  | AddExtensionMode =>
      ["handle_click_a"; "handle__extension__adjust_bend__a"; "handle__cancel__a"]
  | AddDifferentialMode => ["handle_click_a"; "handle__cancel__a"]
  | NudgeClassMode => ["handle_click_a"; "handle__cancel__a"; "handle__nudge_class__a"]
  end.

(** A method found on a mode class: the class that defines it ([None] for
    the base class [Mode]) and its name. *)
Record Method := mkMethod {
  defined_in : option Mode;
  method_name : string
}.

(** [getattr(mode, attr, None)]: the subclass first, then [Mode]. *)
Definition getattr (m : Mode) (attr : string) : option Method :=
  if decide (attr ∈ own_methods m) then Some (mkMethod (Some m) attr)
  else if decide (attr ∈ Mode_methods) then Some (mkMethod None attr)
  else None.

(** ["handle__" + "__".join(cmd.part_list[2:]) + "__a"] *)
Definition handler_name (parts : list string) : string :=
  "handle__" ++ String.concat "__" (drop 2 parts) ++ "__a".

(** A coroutine handed to [schedule_coroutine]: [f(self, *args, **kwargs)]. *)
Record Coroutine := mkCoroutine {
  co_method : Method;
  co_args : list Value;
  co_kwargs : gmap string Value
}.

(** [InteractiveChartAgent].

    Modelled from the spec: the base class [ChartAgent] and the chart object
    [self.sseq] are not in [src/]; following section 4.2 they are taken to
    be the chart state engine of [chart.py], so [chart] holds the chart data
    together with the agent's outbox, [send_message_outward_a] is
    [broadcast_a], [self.update_a] is [update_a], and [sseq.add_differential]
    and [sseq.add_extension] are [add_differential_a] (with the default
    [auto=True]) and [add_extension_a].

    [console] collects what [print] writes; [scheduled] collects what
    [schedule_coroutine] receives. *)
Record InteractiveChartAgent := mkAgent {
  chart : SpectralSequenceChart;
  mode : Mode;
  _interact_source : option nat;
  _differential_source : option nat;
  _extension_source : option nat;
  _extension_prev_color_default : option string;
  _extension : option nat;
  console : list string;
  scheduled : list Coroutine
}.

Definition InteractiveChartAgent_init (chart_name : string) : InteractiveChartAgent :=
  mkAgent (SpectralSequenceChart_init chart_name) NoMode None None None
    (Some "black") None [] [].

Definition set_chart (v : SpectralSequenceChart) (a : InteractiveChartAgent) :=
  mkAgent v (mode a) (_interact_source a) (_differential_source a)
    (_extension_source a) (_extension_prev_color_default a) (_extension a)
    (console a) (scheduled a).

Definition set_mode (v : Mode) (a : InteractiveChartAgent) :=
  mkAgent (chart a) v (_interact_source a) (_differential_source a)
    (_extension_source a) (_extension_prev_color_default a) (_extension a)
    (console a) (scheduled a).

Definition set_differential_source (v : option nat) (a : InteractiveChartAgent) :=
  mkAgent (chart a) (mode a) (_interact_source a) v
    (_extension_source a) (_extension_prev_color_default a) (_extension a)
    (console a) (scheduled a).

Definition set_extension_source (v : option nat) (a : InteractiveChartAgent) :=
  mkAgent (chart a) (mode a) (_interact_source a) (_differential_source a)
    v (_extension_prev_color_default a) (_extension a)
    (console a) (scheduled a).

Definition set_extension_prev_color_default (v : option string)
    (a : InteractiveChartAgent) :=
  mkAgent (chart a) (mode a) (_interact_source a) (_differential_source a)
    (_extension_source a) v (_extension a) (console a) (scheduled a).

Definition set_extension (v : option nat) (a : InteractiveChartAgent) :=
  mkAgent (chart a) (mode a) (_interact_source a) (_differential_source a)
    (_extension_source a) (_extension_prev_color_default a) v
    (console a) (scheduled a).

(** [print(line)] *)
Definition print (line : string) (a : InteractiveChartAgent) :=
  mkAgent (chart a) (mode a) (_interact_source a) (_differential_source a)
    (_extension_source a) (_extension_prev_color_default a) (_extension a)
    (console a ++ [line]) (scheduled a).


(** [send_message_outward_a(cmd, ...)] on the agent. *)
Definition send_message_outward_a (c : string) (p : Payload)
    (a : InteractiveChartAgent) : InteractiveChartAgent :=
  set_chart (broadcast_a c p (chart a)) a.

(** How a handler ends: it returns or it raises. *)
Inductive Outcome := Returned | Raised (e : Exception).

(** [handle__interact__mode__set__a(envelope, **kwargs)] *)
Definition handle__interact__mode__set__a (envelope : Envelope)
    (kwargs : gmap string Value) (a : InteractiveChartAgent)
  : Outcome * Envelope * InteractiveChartAgent :=
  let envelope := mark_used envelope in
  match kwargs !! "mode" with
  | None => (Raised (KeyError "mode"), envelope, a)
  | Some new_mode =>
      (* if new_mode in InteractiveChartAgent.modes *)
      match (match new_mode with VStr n => modes !! n | _ => None end) with
      | Some m => (Returned, envelope, set_mode m a)
      | None => (Raised (RuntimeError_unknown_mode new_mode), envelope, a)
      end
  end.






(** A click handler either finishes, or is suspended in [prompt_a] until the
    observer's answer arrives; the continuation then runs on the agent as it
    is at that moment.  [None] stands for a reference to a class that is not
    in the chart, which a resolved click never produces. *)
Inductive Task :=
| Done (a : InteractiveChartAgent)
| AwaitResult (a : InteractiveChartAgent)
    (k : option string -> InteractiveChartAgent -> option InteractiveChartAgent).

(** [prompt_a(msg, default)] up to its suspension. *)
Definition prompt_a (msg : string) (default : option string)
    (a : InteractiveChartAgent) : InteractiveChartAgent :=
  send_message_outward_a "interact.prompt" (Prompt msg default) a.

(** What [AddExtensionMode.handle_click_a] does once the prompt is answered
    with [color], for the source [s] and target [t] it had read before. *)
Definition AddExtensionMode_after_prompt (s t : nat) (color : option string)
    (a : InteractiveChartAgent) : option InteractiveChartAgent :=
  let a := set_extension_prev_color_default color a in
  '(e, ch) ← add_extension_a s t (chart a);
  (* e.color = color *)
  let ch := with_data (fun d => set_edges (alter (set_edge_color color) e (edges d)) d) ch in
  let a := set_chart ch a in
  let a := set_extension (Some e) a in
  let a := set_extension_source None a in
  let a := set_chart (update_a (chart a)) a in
  Some (send_message_outward_a "interact.mode.extension.adjust_bend" NoPayload a).

(** [AddExtensionMode.handle_click_a(self, x, y, c)] *)
Definition AddExtensionMode_handle_click_a (x y : Q) (c : option nat)
    (a : InteractiveChartAgent) : option Task :=
  match c with
  | None => Some (Done a)
  | Some c =>
      match _extension_source a with
      | None =>
          let a := print "set_source" a in
          let a := set_extension_source (Some c) a in
          Some (Done (send_message_outward_a "interact.mode.set_info" (SetInfoSource c) a))
      | Some s_ref =>
          s ← classes (data (chart a)) !! s_ref;
          t ← classes (data (chart a)) !! c;
          if decide ((class_x t - class_x s)%Z ∉ [0; 1; 3]%Z) then
            Some (Done (print "invalid" a))
          else if decide (class_y t - class_y s < 2)%Z then
            Some (Done (print "invalid" a))
          else
            let a := print "success" a in
            let a := prompt_a "Color?" (_extension_prev_color_default a) a in
            Some (AwaitResult a (AddExtensionMode_after_prompt s_ref c))
      end
  end.

(** [AddDifferentialMode.handle_click_a(self, x, y, c)] *)
Definition AddDifferentialMode_handle_click_a (x y : Q) (c : option nat)
    (a : InteractiveChartAgent) : option Task :=
  match c with
  | None => Some (Done a)
  | Some c =>
      match _differential_source a with
      | None =>
          let a := print "set_source" a in
          let a := set_differential_source (Some c) a in
          Some (Done (send_message_outward_a "interact.mode.set_info" (SetInfoSource c) a))
      | Some s_ref =>
          s ← classes (data (chart a)) !! s_ref;
          t ← classes (data (chart a)) !! c;
          if decide (class_x s ≠ (class_x t + 1)%Z) then
            Some (Done (print "invalid" a))
          else
            let a := print "success" a in
            let page := (class_y t - class_y s)%Z in
            '(d, ch) ← add_differential_a page s_ref c true (chart a);
            (* d.color = "blue" *)
            let ch := with_data
                        (fun dt => set_edges (alter (set_edge_color (Some "blue")) d (edges dt)) dt)
                        ch in
            let a := set_chart ch a in
            let a := set_differential_source None a in
            let a := send_message_outward_a "interact.mode.set_info" (SetInfo "") a in
            Some (Done (set_chart (update_a (chart a)) a))
      end
  end.

(** ** Invariants and conditions on calls *)

(** [add_page_range] called on each range of [rs] in turn. *)
Definition add_page_ranges (rs : list PageRange) (s : SpectralSequenceChart)
  : SpectralSequenceChart :=
  foldl (fun s r => add_page_range_a r s) s rs.

(** Position and identifier agree in the three lists, and every class is
    filed under its own bidegree. *)
Definition index_identity (d : ChartData) : Prop :=
  (forall i n, nodes d !! i = Some n ->
     exists o, node_objects d !! n = Some o /\ node_idx o = Some i) /\
  (forall i c, classes d !! i = Some c -> class_id c = Some i) /\
  (forall i e, edges d !! i = Some e -> edge_id e = Some i) /\
  (forall i c, classes d !! i = Some c ->
     exists l, _classes_by_bidegree d !! (class_x c, class_y c) = Some l /\ i ∈ l).

(** [c] refers to a class of the chart that has received its id. *)
Definition has_id (c : nat) (s : SpectralSequenceChart) : Prop :=
  is_Some (classes (data s) !! c ≫= class_id).

(** The objects a call is given exist. *)
Definition op_ok (o : Op) (s : SpectralSequenceChart) : Prop :=
  match o with
  | OpAddNode n => n < length (node_objects (data s))
  | OpAddStructline a b | OpAddExtension a b | OpAddDifferential _ a b _ =>
      has_id a s /\ has_id b s
  | _ => True
  end.

(** [s'] is [s] with the messages [ms] sent in addition. *)
Definition sends (s s' : SpectralSequenceChart) (ms : list Message) : Prop :=
  outbox s' = outbox s ++ ms.

(** [add_node] is given a node object that is not yet in the node list. *)
Definition node_is_new (o : Op) (s : SpectralSequenceChart) : Prop :=
  match o with
  | OpAddNode n => n ∉ nodes (data s)
  | _ => True
  end.

(** A condition [P] holds at every call of a run. *)
Fixpoint run_ok (P : Op -> SpectralSequenceChart -> Prop) (os : list Op)
    (s : SpectralSequenceChart) : Prop :=
  match os with
  | [] => True
  | o :: os' => P o s /\ forall s', run_op o s = Some s' -> run_ok P os' s'
  end.

(** How many messages one call sends. *)
Definition broadcasts_per_call (o : Op) (s : SpectralSequenceChart) : nat :=
  match o with
  | OpNewNode _ | OpQueueUpdate _ => 0
  | OpAddPageRange r => if decide (r ∈ page_list (data s)) then 0 else 1
  | OpAddDifferential page _ _ true =>
      (if decide ((page, page) ∈ page_list (data s)) then 0 else 1) + 2
  | _ => 1
  end.

(** The id of the class that [c] refers to; a call whose arguments exist
    ([op_ok]) only asks for the id of a class that has one. *)
Definition class_id_of (c : nat) (s : SpectralSequenceChart) : nat :=
  default 0 (classes (data s) !! c ≫= class_id).

(** The [chart.edge.add] message of an edge added to the chart [s]. *)
Definition edge_add_message (ty : EdgeType) (source target : nat)
    (page : option Z) (s : SpectralSequenceChart) : Message :=
  mkMessage "chart.edge.add"
    (EdgeAdd ty (length (edges (data s)))
       (class_id_of source s) (class_id_of target s) page).

(** The [chart.insert_page_range] message of a range added to [s], if the
    range is new. *)
Definition page_range_messages (r : PageRange) (s : SpectralSequenceChart)
  : list Message :=
  if decide (r ∈ page_list (data s)) then []
  else [mkMessage "chart.insert_page_range"
          (InsertPageRange r (find_insert_idx r.1 (page_list (data s))))].

(** Which messages one call sends, in order. *)
Definition broadcasts_of_call (o : Op) (s : SpectralSequenceChart) : list Message :=
  match o with
  | OpNewNode _ | OpQueueUpdate _ => []
  | OpAddNode n => [mkMessage "chart.node.add" (NodeAdd n)]
  | OpAddPageRange r => page_range_messages r s
  | OpAddClass _ _ =>
      [mkMessage "chart.class.add" (ClassAdd (length (classes (data s))))]
  | OpFlushUpdates =>
      [mkMessage "chart.class.update"
         (ClassUpdate (elements (_updated_elements (data s))))]
  | OpAddStructline a b => [edge_add_message ChartStructline a b None s]
  | OpAddExtension a b => [edge_add_message ChartExtension a b None s]
  | OpAddDifferential page a b true =>
      page_range_messages (page, page) s
      ++ [mkMessage "chart.class.update"
            (ClassUpdate (elements (_updated_elements (data s))));
          edge_add_message ChartDifferential a b (Some page) s]
  | OpAddDifferential page a b false =>
      [edge_add_message ChartDifferential a b (Some page) s]
  end.

(** The claim that every engine operation sends exactly one message. *)
Definition one_broadcast_per_call (o : Op) (s : SpectralSequenceChart) : Prop :=
  forall s', run_op o s = Some s' -> length (emitted s s') = 1.

(** The chart after [add_edge_a] has stored the edge under [ref]. *)
Definition edge_added (e : ChartEdge) (s : SpectralSequenceChart) : ChartData :=
  let ref := length (edges (data s)) in
  set_classes
    (alter (append_edge ref) (edge_target e)
       (alter (append_edge ref) (edge_source e) (classes (data s))))
    (set_edges (edges (data s) ++ [set_edge_id ref e]) (data s)).

(** The chart in the middle of [add_differential_a] with [auto] set: both
    pages recorded, the page range added, the updates flushed. *)
Definition differential_prepared (page : Z) (source target : nat)
    (s : SpectralSequenceChart)
  : SpectralSequenceChart :=
  update_a
    (add_page_range_a (page, page)
       (with_data
          (fun d => set_classes
                      (alter (add_page page) target
                         (alter (add_page page) source (classes d))) d) s)).

(** Two class objects agree on bidegree and id. *)
Definition same_key (c c0 : ChartClass) : Prop :=
  class_x c = class_x c0 /\ class_y c = class_y c0 /\ class_id c = class_id c0.

(** Every class of [cs'] is the class of [cs] at the same position, up to
    fields other than bidegree and id. *)
Definition keys_kept (cs cs' : list ChartClass) : Prop :=
  forall i c, cs' !! i = Some c -> exists c0, cs !! i = Some c0 /\ same_key c c0.

(** Discharges [run_ok] for a list of calls given in full. *)
Ltac run_ok_call :=
  cbn [run_ok op_ok node_is_new];
  split;
  [ split;
    [ first [ exact I
            | split; vm_compute; eexists; reflexivity
            | vm_compute; lia ]
    | first [ exact I
            | apply (bool_decide_unpack _); vm_compute; exact I ] ]
  | let s' := fresh "s" in
    let E := fresh "E" in
    intros s' E; vm_compute in E; injection E as <- ].

(** ** What observers and callers see *)

(** What a successful call does to the agent, in closed form; shared by the
    run-level statements below. *)
Definition edge_effect (ty : EdgeType) (source target : nat) (page : option Z)
    (m s' : SpectralSequenceChart) : Prop :=
  exists source_id target_id,
    classes (data m) !! source ≫= class_id = Some source_id /\
    classes (data m) !! target ≫= class_id = Some target_id /\
    s' = mkChart (edge_added (ChartEdge_new ty source target page) m)
           (outbox m ++ [mkMessage "chart.edge.add"
                           (EdgeAdd ty (length (edges (data m)))
                              source_id target_id page)]).

Definition op_effect (o : Op) (s s' : SpectralSequenceChart) : Prop :=
  match o with
  | OpNewNode sh => s' = (ChartNode_new sh s).2
  | OpAddNode n =>
      s' = mkChart
             (set_nodes (nodes (data s) ++ [n])
                (set_node_objects
                   (alter (set_node_idx (length (nodes (data s)))) n
                      (node_objects (data s))) (data s)))
             (outbox s ++ [mkMessage "chart.node.add" (NodeAdd n)])
  | OpAddPageRange r => s' = add_page_range_a r s
  | OpAddClass x y => s' = (add_class_a x y s).2
  | OpQueueUpdate e => s' = with_data (add_element_to_update e) s
  | OpFlushUpdates => s' = update_a s
  | OpAddStructline a b => edge_effect ChartStructline a b None s s'
  | OpAddExtension a b => edge_effect ChartExtension a b None s s'
  | OpAddDifferential p a b auto =>
      edge_effect ChartDifferential a b (Some p)
        (if auto then differential_prepared p a b s else s) s'
  end.

(** An observer's copy of the page list, brought up to date with the
    [chart.insert_page_range] messages it receives: [list.insert(idx, r)]. *)
Definition replay_page_ranges (ms : list Message) (l : list PageRange)
  : list PageRange :=
  foldl (fun l m => match payload m with
                    | InsertPageRange r i => list_insert_at i r l
                    | _ => l
                    end) l ms.

(** The messages of a transition bring an observer's page list up to
    date. *)
Definition page_list_synced (s s' : SpectralSequenceChart) : Prop :=
  exists ms, sends s s' ms
             /\ replay_page_ranges ms (page_list (data s)) = page_list (data s').

(** The classes, nodes and edges announced by a list of messages. *)
Definition class_adds (ms : list Message) : list nat :=
  omap (fun m => match payload m with ClassAdd c => Some c | _ => None end) ms.

Definition node_adds (ms : list Message) : list nat :=
  omap (fun m => match payload m with NodeAdd n => Some n | _ => None end) ms.

Definition edge_adds (ms : list Message)
  : list (EdgeType * nat * nat * nat * option Z) :=
  omap (fun m => match payload m with
                 | EdgeAdd ty i a b p => Some (ty, i, a, b, p)
                 | _ => None
                 end) ms.

(** What [chart.edge.add] says about the edge stored at position [i]. *)
Definition edge_summary (i : nat) (e : ChartEdge)
  : EdgeType * nat * nat * nat * option Z :=
  (edge_type e, i, edge_source e, edge_target e, edge_page e).

(** Every class carries its position as id. *)
Definition ids_ok (d : ChartData) : Prop :=
  forall i c, classes d !! i = Some c -> class_id c = Some i.

(** The per-bidegree mapping files nothing twice and nothing under a wrong
    key. *)
Definition bidegree_exact (d : ChartData) : Prop :=
  forall pos l, _classes_by_bidegree d !! pos = Some l ->
    NoDup l /\
    forall i, i ∈ l -> exists c, classes d !! i = Some c /\ (class_x c, class_y c) = pos.

(** Every class is filed under its own bidegree. *)
Definition classes_filed (d : ChartData) : Prop :=
  forall i c, classes d !! i = Some c ->
    exists l, _classes_by_bidegree d !! (class_x c, class_y c) = Some l /\ i ∈ l.

(** Edges and incident-edge lists agree. *)
Definition incident_edges_ok (d : ChartData) : Prop :=
  (forall i e, edges d !! i = Some e ->
     exists cs ct, classes d !! edge_source e = Some cs
                   /\ classes d !! edge_target e = Some ct
                   /\ i ∈ class_edges cs /\ i ∈ class_edges ct) /\
  (forall c cl i, classes d !! c = Some cl -> i ∈ class_edges cl ->
     exists e, edges d !! i = Some e /\ (edge_source e = c \/ edge_target e = c)).

Definition consistent (d : ChartData) : Prop :=
  ids_ok d /\ classes_filed d /\ bidegree_exact d /\ incident_edges_ok d.

(** The outbox announces each class and each edge once, in the order of the
    lists, and the node list is the default node followed by the announced
    nodes. *)
Definition mirrored (s : SpectralSequenceChart) : Prop :=
  class_adds (outbox s) = seq 0 (length (classes (data s))) /\
  edge_adds (outbox s) = imap edge_summary (edges (data s)) /\
  nodes (data s) = 0 :: node_adds (outbox s).

(** Discharges [run_ok op_ok] for a list of calls given in full. *)
Ltac run_ok_step :=
  cbn [run_ok op_ok];
  split;
  [ first [ exact I
          | split; vm_compute; eexists; reflexivity
          | vm_compute; lia ]
  | let s' := fresh "s" in
    let E := fresh "E" in
    intros s' E; vm_compute in E; injection E as <- ].

(** ** The rest of [SpectralSequenceChart] *)

(** Python's [l[i]]: a negative index counts from the end, an index out of
    range is an [IndexError] (here [None]). *)
Definition py_index {A} (l : list A) (i : Z) : option A :=
  if decide (0 <= i)%Z then l !! Z.to_nat i
  else if decide (0 <= Z.of_nat (length l) + i)%Z
       then l !! Z.to_nat (Z.of_nat (length l) + i)
       else None.

(** [get_class_by_idx(x, y, idx)] *)
Definition get_class_by_idx (x y idx : Z) (s : SpectralSequenceChart) : option nat :=
  py_index (get_classes_in_bidegree x y s) idx.

(** [DisplayState] *)
Record DisplayState := mkDisplayState { display_background_color : string }.

(** [SpectralSequenceChart.default_background_color] *)
Definition default_background_color : string := "#FFFFFF".

Definition DisplayState_init : DisplayState := mkDisplayState default_background_color.

(** Attributes that no [__init__] creates and that exist only once they are
    assigned: [x_range], [y_range] and [background_color] on the chart data,
    and the [name] that [set_class_name_a] gives a class object. *)
Record ChartAttributes := mkAttributes {
  x_range : option (Z * Z);
  y_range : option (Z * Z);
  background_color : option string;
  class_name : gmap nat string
}.

(** Everything the agent sends outward: the engine's messages and the ones
    of the functions below. *)
Inductive Outbound :=
| EngineMessage (m : Message)
| SetRange (command : string) (lo hi : Z)
| SetBackgroundColor (color : string)
| InitializeChartState (state : ChartData) (state_attributes : ChartAttributes)
    (display_state : DisplayState).

(** The whole agent: chart data, late attributes, display state, and the
    messages sent. *)
Record ChartAgent := mkChartAgent {
  agent_data : ChartData;
  agent_attributes : ChartAttributes;
  agent_display_state : DisplayState;
  agent_outbox : list Outbound
}.

Definition ChartAgent_init (chart_name : string) : ChartAgent :=
  mkChartAgent (ChartData_init chart_name) (mkAttributes None None None ∅)
    DisplayState_init [].

Inductive ChartError := AttributeError (attr : string) | IndexError.

(** An engine operation run inside the whole agent: the engine only ever
    appends to the outbox, so it is run on an empty one and what it sent is
    appended. *)
Definition lift_engine (f : SpectralSequenceChart -> option SpectralSequenceChart)
    (a : ChartAgent) : option ChartAgent :=
  s' ← f (mkChart (agent_data a) []);
  Some (mkChartAgent (data s') (agent_attributes a) (agent_display_state a)
          (agent_outbox a ++ (EngineMessage <$> outbox s'))).

Definition agent_send (m : Outbound) (a : ChartAgent) : ChartAgent :=
  mkChartAgent (agent_data a) (agent_attributes a) (agent_display_state a)
    (agent_outbox a ++ [m]).

Definition set_attributes (v : ChartAttributes) (a : ChartAgent) : ChartAgent :=
  mkChartAgent (agent_data a) v (agent_display_state a) (agent_outbox a).

Definition set_agent_data (v : ChartData) (a : ChartAgent) : ChartAgent :=
  mkChartAgent v (agent_attributes a) (agent_display_state a) (agent_outbox a).

(** The properties [x_min], [x_max], [y_min], [y_max]. *)
Definition x_min (a : ChartAgent) : ChartError + Z :=
  match x_range (agent_attributes a) with
  | None => inl (AttributeError "x_range")
  | Some r => inr r.1
  end.

Definition x_max (a : ChartAgent) : ChartError + Z :=
  match x_range (agent_attributes a) with
  | None => inl (AttributeError "x_range")
  | Some r => inr r.2
  end.

Definition y_min (a : ChartAgent) : ChartError + Z :=
  match y_range (agent_attributes a) with
  | None => inl (AttributeError "y_range")
  | Some r => inr r.1
  end.

Definition y_max (a : ChartAgent) : ChartError + Z :=
  match y_range (agent_attributes a) with
  | None => inl (AttributeError "y_range")
  | Some r => inr r.2
  end.

(** [set_x_range_a], [set_y_range_a] *)
Definition set_x_range_a (lo hi : Z) (a : ChartAgent) : ChartAgent :=
  let att := agent_attributes a in
  let a := set_attributes
             (mkAttributes (Some (lo, hi)) (y_range att) (background_color att)
                (class_name att)) a in
  agent_send (SetRange "chart.set_x_range" lo hi) a.

Definition set_y_range_a (lo hi : Z) (a : ChartAgent) : ChartAgent :=
  let att := agent_attributes a in
  let a := set_attributes
             (mkAttributes (x_range att) (Some (lo, hi)) (background_color att)
                (class_name att)) a in
  agent_send (SetRange "chart.set_y_range" lo hi) a.

(** [set_initial_x_range_a], [set_initial_y_range_a] *)
Definition set_initial_x_range_a (lo hi : Z) (a : ChartAgent) : ChartAgent :=
  let d := agent_data a in
  let a := set_agent_data
             (mkChartData (name d) (lo, hi) (initial_y_range d) (page_list d)
                (min_page_idx d) (node_objects d) (nodes d) (_nodes_dict d)
                (classes d) (_classes_by_bidegree d) (edges d)
                (_updated_elements d)) a in
  agent_send (SetRange "chart.set_initial_x_range" lo hi) a.

Definition set_initial_y_range_a (lo hi : Z) (a : ChartAgent) : ChartAgent :=
  let d := agent_data a in
  let a := set_agent_data
             (mkChartData (name d) (initial_x_range d) (lo, hi) (page_list d)
                (min_page_idx d) (node_objects d) (nodes d) (_nodes_dict d)
                (classes d) (_classes_by_bidegree d) (edges d)
                (_updated_elements d)) a in
  agent_send (SetRange "chart.set_initial_y_range" lo hi) a.

(** [set_background_color_a]: the colour goes to [self.data]. *)
Definition set_background_color_a (color : string) (a : ChartAgent) : ChartAgent :=
  let att := agent_attributes a in
  let a := set_attributes
             (mkAttributes (x_range att) (y_range att) (Some color) (class_name att)) a in
  agent_send (SetBackgroundColor color) a.

(** [consume_new_user_a] *)
Definition consume_new_user_a (a : ChartAgent) : ChartAgent :=
  agent_send (InitializeChartState (agent_data a) (agent_attributes a)
                (agent_display_state a)) a.

(** [set_class_name_a(x, y, idx, name)] *)
Definition set_class_name_a (x y idx : Z) (new_name : string) (a : ChartAgent)
  : ChartError + ChartAgent :=
  match py_index (get_classes_in_bidegree x y (mkChart (agent_data a) [])) idx with
  | None => inl IndexError
  | Some c =>
      let att := agent_attributes a in
      let a := set_attributes
                 (mkAttributes (x_range att) (y_range att) (background_color att)
                    (<[c := new_name]> (class_name att))) a in
      inr (set_agent_data (add_element_to_update (ClassElement c) (agent_data a)) a)
  end.

(** One call on the whole agent. *)
Inductive AgentOp :=
| Engine (o : Op)
| SetXRange (lo hi : Z)
| SetYRange (lo hi : Z)
| SetInitialXRange (lo hi : Z)
| SetInitialYRange (lo hi : Z)
| SetBackgroundColorOp (color : string)
| ConsumeNewUser.

Definition run_agent_op (o : AgentOp) (a : ChartAgent) : option ChartAgent :=
  match o with
  | Engine o => lift_engine (run_op o) a
  | SetXRange lo hi => Some (set_x_range_a lo hi a)
  | SetYRange lo hi => Some (set_y_range_a lo hi a)
  | SetInitialXRange lo hi => Some (set_initial_x_range_a lo hi a)
  | SetInitialYRange lo hi => Some (set_initial_y_range_a lo hi a)
  | SetBackgroundColorOp c => Some (set_background_color_a c a)
  | ConsumeNewUser => Some (consume_new_user_a a)
  end.

Fixpoint run_agent_ops (os : list AgentOp) (a : ChartAgent) : option ChartAgent :=
  match os with
  | [] => Some a
  | o :: os' => a' ← run_agent_op o a; run_agent_ops os' a'
  end.

(** The argument of the last [set_x_range_a] of a run, if any. *)
Definition last_x_range (os : list AgentOp) : option (Z * Z) :=
  foldl (fun acc o => match o with SetXRange lo hi => Some (lo, hi) | _ => acc end)
    None os.

(** The argument of the last [set_background_color_a] of a run, if any. *)
Definition last_background_color (os : list AgentOp) : option string :=
  foldl (fun acc o => match o with SetBackgroundColorOp c => Some c | _ => acc end)
    None os.

(** The display states carried by the [initialize.chart.state] messages. *)
Definition initial_display_states (ms : list Outbound) : list DisplayState :=
  omap (fun m => match m with InitializeChartState _ _ ds => Some ds | _ => None end) ms.

(** ** The rest of the interaction modes *)

Definition set_interact_source (v : option nat) (a : InteractiveChartAgent) :=
  mkAgent (chart a) (mode a) v (_differential_source a)
    (_extension_source a) (_extension_prev_color_default a) (_extension a)
    (console a) (scheduled a).

(** [Mode.handle__cancel__a]: returns at once. *)
Definition Mode_handle__cancel__a (a : InteractiveChartAgent) : InteractiveChartAgent := a.

(** [AddClassMode.handle__cancel__a] and [AddEdgeMode.handle__cancel__a] *)
Definition AddClassMode_handle__cancel__a (a : InteractiveChartAgent)
  : InteractiveChartAgent :=
  let a := set_interact_source None a in
  send_message_outward_a "interact.mode.set_info" (SetInfo "") a.

Definition AddEdgeMode_handle__cancel__a (a : InteractiveChartAgent)
  : InteractiveChartAgent :=
  let a := set_interact_source None a in
  send_message_outward_a "interact.mode.set_info" (SetInfo "") a.

(** [AddExtensionMode.handle__cancel__a] *)
Definition AddExtensionMode_handle__cancel__a (a : InteractiveChartAgent)
  : InteractiveChartAgent :=
  let a := print "unset_source" a in
  let a := set_extension_source None a in
  send_message_outward_a "interact.mode.set_info" (SetInfo "") a.

(** [AddDifferentialMode.handle__cancel__a] *)
Definition AddDifferentialMode_handle__cancel__a (a : InteractiveChartAgent)
  : InteractiveChartAgent :=
  let a := print "unset_source" a in
  let a := set_differential_source None a in
  send_message_outward_a "interact.mode.set_info" (SetInfo "") a.

(** [AddExtensionMode.handle__extension__adjust_bend__a(delta)] for an
    integer [delta].  [bends] holds the [bend] attribute of the edge objects
    that have one; [getattr(e, "bend", 0)] reads it.  [self._extension] does
    not exist before the first accepted extension. *)
Definition handle__extension__adjust_bend__a (delta : Z)
    (st : InteractiveChartAgent * gmap nat Z)
  : ChartError + InteractiveChartAgent * gmap nat Z :=
  let '(a, bends) := st in
  match _extension a with
  | None => inl (AttributeError "_extension")
  | Some e =>
      let bend := default 0%Z (bends !! e) in
      let bend := (bend + delta)%Z in
      inr (set_chart (update_a (chart a)) a, <[e := bend]> bends)
  end.

(** Bend adjustments received one after the other. *)
Fixpoint adjust_bends (deltas : list Z) (st : InteractiveChartAgent * gmap nat Z)
  : ChartError + InteractiveChartAgent * gmap nat Z :=
  match deltas with
  | [] => inr st
  | delta :: deltas' =>
      match handle__extension__adjust_bend__a delta st with
      | inl err => inl err
      | inr st' => adjust_bends deltas' st'
      end
  end.

(** ** [utils.py] *)

(** An instance of an ordinary class as [hasattr], [getattr], [setattr] and
    [delattr] see it: the attributes stored in the instance's own dictionary
    and those found on its class (such as [__doc__], a class variable or a
    method).  Class attributes are plain values here: names under which the
    class intercepts attribute access (properties, slots, [__class__],
    [__getattr__] and [__setattr__] hooks) and objects without a dictionary
    of their own are outside this model. *)
Record PyObject := mkPyObject {
  instance_attrs : gmap string Value;
  class_attrs : gmap string Value
}.

(** [getattr(d, key)]: the instance first, then the class; [None] is the
    [AttributeError] that makes [hasattr(d, key)] false. *)
Definition object_getattr (key : string) (d : PyObject) : option Value :=
  match instance_attrs d !! key with
  | Some v => Some v
  | None => class_attrs d !! key
  end.

(** [setattr(d, key, v)] stores on the instance. *)
Definition object_setattr (key : string) (v : Value) (d : PyObject) : PyObject :=
  mkPyObject (<[key := v]> (instance_attrs d)) (class_attrs d).

(** [delattr(d, key)] removes from the instance, and raises when the
    instance itself has no such attribute. *)
Definition object_delattr (key : string) (d : PyObject) : ChartError + PyObject :=
  match instance_attrs d !! key with
  | Some _ => inr (mkPyObject (delete key (instance_attrs d)) (class_attrs d))
  | None => inl (AttributeError key)
  end.

(** One turn of the loops below, with the exception it raised, if any, and
    the object as it is left. *)
Definition move_attribute (key replacement : string) (d : PyObject)
  : option ChartError * PyObject :=
  (* if hasattr(d, key): *)
  match object_getattr key d with
  | None => (None, d)
  | Some v =>
      (* setattr(d, replacement, getattr(d, key)) *)
      let d := object_setattr replacement v d in
      (* delattr(d, key) *)
      match object_delattr key d with
      | inl err => (Some err, d)
      | inr d => (None, d)
      end
  end.

(** [replace_keys(d, replace_keys)] *)
Fixpoint replace_keys (d : PyObject) (pairs : list (string * string))
  : option ChartError * PyObject :=
  match pairs with
  | [] => (None, d)
  | (key, replacement) :: pairs' =>
      match move_attribute key replacement d with
      | (Some err, d) => (Some err, d)
      | (None, d) => replace_keys d pairs'
      end
  end.

(** [reverse_replace_keys(d, replace_keys)]: each pair is read as
    [(replacement, key)]. *)
Fixpoint reverse_replace_keys (d : PyObject) (pairs : list (string * string))
  : option ChartError * PyObject :=
  match pairs with
  | [] => (None, d)
  | (replacement, key) :: pairs' =>
      match move_attribute key replacement d with
      | (Some err, d) => (Some err, d)
      | (None, d) => reverse_replace_keys d pairs'
      end
  end.

(** What a turn that does not raise does to the instance attributes. *)
Definition rename_attribute (key replacement : string) (m : gmap string Value)
  : gmap string Value :=
  match m !! key with
  | Some v => delete key (<[replacement := v]> m)
  | None => m
  end.

Definition rename_attributes (m : gmap string Value) (pairs : list (string * string))
  : gmap string Value :=
  foldl (fun m '(key, replacement) => rename_attribute key replacement m) m pairs.

Definition rename_attributes_back (m : gmap string Value)
    (pairs : list (string * string)) : gmap string Value :=
  foldl (fun m '(replacement, key) => rename_attribute key replacement m) m pairs.

(** ** Properties of [add_page_range_a] *)

Section PageRanges.

Implicit Types (r p : PageRange) (l : list PageRange).

Lemma find_insert_idx_le lo l : find_insert_idx lo l <= length l.
Proof.
  induction l as [|p l IH]; simpl; [lia|].
  destruct (decide (p.1 > lo)%Z); lia.
Qed.

Lemma find_insert_idx_before lo l j p :
  j < find_insert_idx lo l -> l !! j = Some p -> (p.1 <= lo)%Z.
Proof.
  revert j. induction l as [|q l IH]; intros j; simpl; [lia|].
  destruct (decide (q.1 > lo)%Z) as [Hq|Hq]; [lia|].
  destruct j as [|j]; simpl.
  - intros _ [= ->]. lia.
  - intros Hj Hp. apply (IH j); [lia|done].
Qed.

Lemma find_insert_idx_at lo l p :
  l !! find_insert_idx lo l = Some p -> (p.1 > lo)%Z.
Proof.
  induction l as [|q l IH]; simpl; [done|].
  destruct (decide (q.1 > lo)%Z) as [Hq|Hq]; simpl.
  - by intros [= ->].
  - done.
Qed.

Lemma find_insert_idx_end lo l :
  Forall (fun p => (p.1 <= lo)%Z) l -> find_insert_idx lo l = length l.
Proof.
  induction 1 as [|p l Hp _ IH]; simpl; [done|].
  destruct (decide (p.1 > lo)%Z); [lia|]. by rewrite IH.
Qed.

Lemma insert_at_cons lo p l r :
  ~ (p.1 > lo)%Z ->
  list_insert_at (S (find_insert_idx lo l)) r (p :: l)
  = p :: list_insert_at (find_insert_idx lo l) r l.
Proof. done. Qed.

Lemma insert_at_Forall (P : PageRange -> Prop) i r l :
  P r -> Forall P l -> Forall P (list_insert_at i r l).
Proof.
  intros Hr Hl. unfold list_insert_at.
  apply Forall_app. split; [by apply Forall_take|].
  constructor; [done|by apply Forall_drop].
Qed.

Lemma insert_sorted r l :
  page_list_sorted l ->
  page_list_sorted (list_insert_at (find_insert_idx r.1 l) r l).
Proof.
  unfold page_list_sorted. induction 1 as [|p l Hs IH Hp]; simpl.
  - repeat constructor.
  - destruct (decide (p.1 > r.1)%Z) as [Hgt|Hle].
    + unfold list_insert_at; simpl. constructor.
      * by constructor.
      * constructor; [lia|].
        eapply Forall_impl; [exact Hp|]. simpl. intros q Hq. lia.
    + rewrite insert_at_cons by done. constructor; [done|].
      apply insert_at_Forall; [lia|done].
Qed.

Lemma elem_of_insert_at {A} i (x y : A) (l : list A) :
  y ∈ list_insert_at i x l <-> y = x \/ y ∈ l.
Proof.
  unfold list_insert_at.
  rewrite elem_of_app, elem_of_cons.
  rewrite <- (take_drop i l) at 3. rewrite elem_of_app. tauto.
Qed.

Lemma insert_at_NoDup {A} i (x : A) (l : list A) :
  x ∉ l -> NoDup l -> NoDup (list_insert_at i x l).
Proof.
  intros Hx Hl. unfold list_insert_at.
  rewrite <- (take_drop i l) in Hl, Hx.
  apply NoDup_app in Hl as (H1 & H2 & H3).
  rewrite elem_of_app in Hx.
  apply NoDup_app. split_and!; [done| |].
  - intros y Hy. rewrite elem_of_cons. intros [->|Hd]; [tauto|by eapply H2].
  - constructor; [tauto|done].
Qed.

Lemma add_page_range_present r s :
  r ∈ page_list (data s) -> add_page_range_a r s = s.
Proof. intros H. unfold add_page_range_a. by rewrite decide_True. Qed.

Lemma add_page_range_absent r s :
  r ∉ page_list (data s) ->
  add_page_range_a r s =
    mkChart
      (set_page_list
         (list_insert_at (find_insert_idx r.1 (page_list (data s))) r
            (page_list (data s))) (data s))
      (outbox s ++ [mkMessage "chart.insert_page_range"
                      (InsertPageRange r (find_insert_idx r.1 (page_list (data s))))]).
Proof. intros H. unfold add_page_range_a. by rewrite !decide_False. Qed.

Lemma add_page_range_elem r s : r ∈ page_list (data (add_page_range_a r s)).
Proof.
  destruct (decide (r ∈ page_list (data s))) as [H|H].
  - by rewrite add_page_range_present.
  - rewrite add_page_range_absent by done. simpl.
    apply elem_of_insert_at. by left.
Qed.

Lemma add_page_range_sorted r s :
  page_list_sorted (page_list (data s)) ->
  page_list_sorted (page_list (data (add_page_range_a r s))).
Proof.
  intros Hs. destruct (decide (r ∈ page_list (data s))) as [H|H].
  - by rewrite add_page_range_present.
  - rewrite add_page_range_absent by done. simpl. by apply insert_sorted.
Qed.

Lemma add_page_range_NoDup r s :
  NoDup (page_list (data s)) ->
  NoDup (page_list (data (add_page_range_a r s))).
Proof.
  intros Hs. destruct (decide (r ∈ page_list (data s))) as [H|H].
  - by rewrite add_page_range_present.
  - rewrite add_page_range_absent by done. simpl. by apply insert_at_NoDup.
Qed.

Lemma init_page_list_sorted nm :
  page_list_sorted (page_list (data (SpectralSequenceChart_init nm))).
Proof.
  unfold page_list_sorted. simpl.
  repeat constructor; unfold INFINITY; simpl; lia.
Qed.

Lemma init_page_list_NoDup nm :
  NoDup (page_list (data (SpectralSequenceChart_init nm))).
Proof.
  simpl. apply NoDup_cons. split; [|apply NoDup_singleton].
  rewrite list_elem_of_singleton. unfold INFINITY. intros [=].
Qed.

End PageRanges.
(** ** Claim C1 *)

Lemma emitted_self s : emitted s s = [].
Proof. unfold emitted. by rewrite drop_all. Qed.

Lemma emitted_app s d ms : emitted s (mkChart d (outbox s ++ ms)) = ms.
Proof. unfold emitted; simpl. by rewrite drop_app_length. Qed.

Lemma add_page_ranges_sorted_NoDup rs s :
  page_list_sorted (page_list (data s)) -> NoDup (page_list (data s)) ->
  page_list_sorted (page_list (data (add_page_ranges rs s)))
  /\ NoDup (page_list (data (add_page_ranges rs s))).
Proof.
  revert s. induction rs as [|r rs IH]; intros s Hs Hn; simpl; [done|].
  apply IH; [by apply add_page_range_sorted|by apply add_page_range_NoDup].
Qed.

(** C1: [add_page_range] is idempotent.  On every chart [s], a second call
    with the same range [r] returns the chart unchanged and sends nothing, so
    the two calls together send the single [chart.insert_page_range] of the
    first one (none if [r] was there from the start).  A new range goes in
    front of the first entry whose lower bound exceeds its own, at the end if
    there is none, and the broadcast carries that index.  Sortedness by lower
    bound and absence of duplicates are preserved, and hold after any
    sequence of calls on a new chart. *)
Theorem add_page_range_idempotent_sorted (r : PageRange) (s : SpectralSequenceChart) :
  let s1 := add_page_range_a r s in
  let s2 := add_page_range_a r s1 in
  let l := page_list (data s) in
  let i := find_insert_idx r.1 l in
  (r ∈ page_list (data s1) /\ s2 = s1 /\ emitted s1 s2 = []) /\
  emitted s s2 =
    (if decide (r ∈ l) then []
     else [mkMessage "chart.insert_page_range" (InsertPageRange r i)]) /\
  page_list (data s1) =
    (if decide (r ∈ l) then l else take i l ++ r :: drop i l) /\
  (i <= length l /\
   (forall j p, j < i -> l !! j = Some p -> (p.1 <= r.1)%Z) /\
   (forall p, l !! i = Some p -> (r.1 < p.1)%Z) /\
   ((forall p, p ∈ l -> (p.1 <= r.1)%Z) -> i = length l)) /\
  (page_list_sorted l -> page_list_sorted (page_list (data s1))) /\
  (NoDup l -> NoDup (page_list (data s1))) /\
  (forall nm rs,
     page_list_sorted (page_list (data (add_page_ranges rs (SpectralSequenceChart_init nm))))
     /\ NoDup (page_list (data (add_page_ranges rs (SpectralSequenceChart_init nm))))).
Proof.
  intros s1 s2 l i.
  assert (Hin : r ∈ page_list (data s1)) by apply add_page_range_elem.
  assert (H21 : s2 = s1) by (by apply add_page_range_present).
  split_and!.
  - done.
  - done.
  - rewrite H21. apply emitted_self.
  - rewrite H21. subst s1 l i. destruct (decide (r ∈ page_list (data s))) as [H|H].
    + rewrite add_page_range_present by done. apply emitted_self.
    + rewrite add_page_range_absent by done. apply emitted_app.
  - subst s1 l i. destruct (decide (r ∈ page_list (data s))) as [H|H].
    + by rewrite add_page_range_present.
    + by rewrite add_page_range_absent.
  - apply find_insert_idx_le.
  - intros j p. apply find_insert_idx_before.
  - intros p Hp. apply find_insert_idx_at in Hp. lia.
  - intros Hall. apply find_insert_idx_end. by apply Forall_forall.
  - apply add_page_range_sorted.
  - apply add_page_range_NoDup.
  - intros nm rs. apply add_page_ranges_sorted_NoDup.
    + apply init_page_list_sorted.
    + apply init_page_list_NoDup.
Qed.

(** The statement at the range [[3, 3]] on a new chart: it is absent, goes
    to index 1, and the second call is silent. *)
Lemma add_page_range_idempotent_sorted_witness :
  let s := SpectralSequenceChart_init "sseq" in
  page_list (data (add_page_range_a (3, 3)%Z s))
    = [(2, INFINITY); (3, 3); (INFINITY, INFINITY)]%Z
  /\ emitted s (add_page_range_a (3, 3)%Z (add_page_range_a (3, 3)%Z s))
     = [mkMessage "chart.insert_page_range" (InsertPageRange (3, 3)%Z 1)]
  /\ page_list_sorted (page_list (data (add_page_range_a (3, 3)%Z s)))
  /\ NoDup (page_list (data (add_page_range_a (3, 3)%Z s))).
Proof.
  intros s.
  destruct (add_page_range_idempotent_sorted (3, 3)%Z s)
    as (_ & Hem & Hpl & _ & Hsorted & Hnodup & _).
  split_and!.
  - exact Hpl.
  - exact Hem.
  - apply Hsorted. apply init_page_list_sorted.
  - apply Hnodup. apply init_page_list_NoDup.
Defined.

(** ** Claim C2 *)

Section DirtySet.

Implicit Types (l : list Element) (s : SpectralSequenceChart).

Lemma queue_updates_outbox l s : outbox (queue_updates l s) = outbox s.
Proof. revert s. induction l as [|e l IH]; intros s; simpl; [done|]. by rewrite IH. Qed.

Lemma queue_updates_dirty l s :
  _updated_elements (data (queue_updates l s))
  = list_to_set l ∪ _updated_elements (data s).
Proof.
  revert s. induction l as [|e l IH]; intros s; simpl.
  - by rewrite (left_id_L ∅ (∪)).
  - rewrite IH. simpl.
    by rewrite (assoc_L (∪)), (comm_L (∪) (list_to_set l)).
Qed.

Lemma update_a_emitted s :
  emitted s (update_a s)
  = [mkMessage "chart.class.update"
       (ClassUpdate (elements (_updated_elements (data s))))].
Proof. unfold update_a, with_data, broadcast_a; simpl. apply emitted_app. Qed.

Lemma update_a_dirty s : _updated_elements (data (update_a s)) = ∅.
Proof. done. Qed.

Lemma flush_after_queue l s :
  _updated_elements (data s) = ∅ ->
  let batch := elements (_updated_elements (data (queue_updates l s))) in
  emitted s (update_a (queue_updates l s))
    = [mkMessage "chart.class.update" (ClassUpdate batch)]
  /\ NoDup batch
  /\ (forall e, e ∈ batch <-> e ∈ l)
  /\ length batch = length (remove_dups l).
Proof.
  intros Hempty batch.
  assert (Hmem : forall e, e ∈ batch <-> e ∈ l).
  { intros e. unfold batch.
    rewrite elem_of_elements, queue_updates_dirty, Hempty.
    by rewrite (right_id_L ∅ (∪)), elem_of_list_to_set. }
  assert (Hnd : NoDup batch) by apply NoDup_elements.
  split_and!; try done.
  - unfold emitted. rewrite <- (queue_updates_outbox l s).
    exact (update_a_emitted _).
  - apply Permutation_length, NoDup_Permutation; [done|apply NoDup_remove_dups|].
    intros e. rewrite Hmem. by rewrite elem_of_remove_dups.
Qed.

End DirtySet.

(** C2: on a chart whose dirty set is empty, [N = length l] calls of
    [queue_update] followed by [flush_updates] send exactly one
    [chart.class.update], whose batch has no repetition and holds exactly
    the [M] distinct elements of [l] ([M <= N]); the dirty set is empty
    afterwards.  A following round of calls [l'] and a second flush send one
    batch with exactly the elements of [l']: nothing queued is lost and
    nothing flushed is sent again. *)
Theorem flush_updates_one_batch (s : SpectralSequenceChart) (l l' : list Element) :
  _updated_elements (data s) = ∅ ->
  let s1 := update_a (queue_updates l s) in
  let s2 := update_a (queue_updates l' s1) in
  exists batch batch',
    emitted s s1 = [mkMessage "chart.class.update" (ClassUpdate batch)] /\
    NoDup batch /\ (forall e, e ∈ batch <-> e ∈ l) /\
    length batch = length (remove_dups l) /\
    length (remove_dups l) <= length l /\
    _updated_elements (data s1) = ∅ /\
    emitted s1 s2 = [mkMessage "chart.class.update" (ClassUpdate batch')] /\
    NoDup batch' /\ (forall e, e ∈ batch' <-> e ∈ l') /\
    (forall e, e ∈ batch -> e ∉ l' -> e ∉ batch') /\
    _updated_elements (data s2) = ∅.
Proof.
  intros Hempty s1 s2.
  destruct (flush_after_queue l s Hempty) as (E1 & N1 & M1 & L1).
  destruct (flush_after_queue l' s1 (update_a_dirty _)) as (E2 & N2 & M2 & L2).
  eexists _, _. split_and!; try done.
  - clear. induction l as [|e l IH]; simpl; [done|].
    destruct (decide_rel elem_of e l); simpl; lia.
  - intros e _ Hn Hb. by apply M2 in Hb.
Qed.

(** Three calls on two distinct elements of a new chart. *)
Lemma flush_updates_one_batch_witness :
  let s := SpectralSequenceChart_init "sseq" in
  let l := [ClassElement 0; EdgeElement 0; ClassElement 0] in
  exists batch,
    emitted s (update_a (queue_updates l s))
      = [mkMessage "chart.class.update" (ClassUpdate batch)]
    /\ length batch = 2
    /\ _updated_elements (data (update_a (queue_updates l s))) = ∅.
Proof.
  intros s l.
  destruct (flush_updates_one_batch s l [] eq_refl)
    as (batch & batch' & E & _ & _ & L & _ & D & _).
  exists batch. split_and!; [exact E|exact L|exact D].
Defined.

(** ** The engine's operations, one by one *)

Section Engine.

Implicit Types (s : SpectralSequenceChart) (d : ChartData).

Lemma sends_emitted s s' ms : sends s s' ms -> emitted s s' = ms.
Proof. unfold sends, emitted. intros ->. by rewrite drop_app_length. Qed.

Lemma sends_trans s s1 s2 ms1 ms2 :
  sends s s1 ms1 -> sends s1 s2 ms2 -> sends s s2 (ms1 ++ ms2).
Proof. unfold sends. intros H1 H2. by rewrite H2, H1, (assoc_L (++)). Qed.

Lemma sends_refl s : sends s s [].
Proof. unfold sends. by rewrite (right_id_L [] (++)). Qed.

Lemma lookup_alter_Some {A} (f : A -> A) (j i : nat) (l : list A) (c : A) :
  l !! i = Some c ->
  alter f j l !! i = Some (if decide (j = i) then f c else c).
Proof.
  intros H. destruct (decide (j = i)) as [->|Hne].
  - by rewrite list_lookup_alter_eq, H.
  - by rewrite list_lookup_alter_ne.
Qed.

Lemma has_id_inv c s :
  has_id c s -> exists cl i, classes (data s) !! c = Some cl /\ class_id cl = Some i.
Proof.
  unfold has_id. intros [i Hi].
  destruct (classes (data s) !! c) as [cl|] eqn:E; simpl in Hi; [|done].
  by exists cl, i.
Qed.

Lemma add_page_range_sends r s :
  sends s (add_page_range_a r s)
    (if decide (r ∈ page_list (data s)) then []
     else [mkMessage "chart.insert_page_range"
             (InsertPageRange r (find_insert_idx r.1 (page_list (data s))))]).
Proof.
  destruct (decide (r ∈ page_list (data s))) as [H|H].
  - rewrite add_page_range_present by done. apply sends_refl.
  - by rewrite add_page_range_absent.
Qed.

Lemma add_page_range_other r s :
  classes (data (add_page_range_a r s)) = classes (data s)
  /\ edges (data (add_page_range_a r s)) = edges (data s)
  /\ _updated_elements (data (add_page_range_a r s)) = _updated_elements (data s).
Proof.
  destruct (decide (r ∈ page_list (data s))) as [H|H].
  - by rewrite add_page_range_present.
  - by rewrite add_page_range_absent.
Qed.

Lemma add_node_a_spec n s :
  n < length (node_objects (data s)) ->
  add_node_a n s =
    Some (mkChart
            (set_nodes (nodes (data s) ++ [n])
               (set_node_objects
                  (alter (set_node_idx (length (nodes (data s)))) n
                     (node_objects (data s))) (data s)))
            (outbox s ++ [mkMessage "chart.node.add" (NodeAdd n)])).
Proof.
  intros Hn. unfold add_node_a.
  destruct (lookup_lt_is_Some_2 _ _ Hn) as [o ->]. done.
Qed.

Lemma add_edge_a_spec e page s ca cb ia ib :
  classes (data s) !! edge_source e = Some ca -> class_id ca = Some ia ->
  classes (data s) !! edge_target e = Some cb -> class_id cb = Some ib ->
  add_edge_a e page s =
    Some (length (edges (data s)),
          mkChart (edge_added e s)
            (outbox s ++ [mkMessage "chart.edge.add"
                            (EdgeAdd (edge_type e) (length (edges (data s))) ia ib page)])).
Proof.
  intros Ha Hia Hb Hib. unfold add_edge_a. simpl.
  rewrite Ha, Hb. simpl.
  erewrite (lookup_alter_Some _ (edge_target e) (edge_source e));
    [|by apply lookup_alter_Some].
  erewrite (lookup_alter_Some _ (edge_target e) (edge_target e));
    [|by apply lookup_alter_Some].
  assert (Hid' : forall n (j i : nat) c,
             class_id (if decide (j = i) then append_edge n c else c) = class_id c)
    by (intros n j i c; by destruct (decide (j = i))).
  simpl. rewrite !Hid', Hia, Hib. done.
Qed.

Lemma add_class_a_sends x y s :
  sends s (add_class_a x y s).2
    [mkMessage "chart.class.add" (ClassAdd (length (classes (data s))))].
Proof. done. Qed.

Lemma update_a_sends s :
  sends s (update_a s)
    [mkMessage "chart.class.update"
       (ClassUpdate (elements (_updated_elements (data s))))].
Proof. done. Qed.

Lemma add_differential_a_auto page source target s :
  has_id source s -> has_id target s ->
  add_differential_a page source target true s =
    add_edge_a (ChartEdge_new ChartDifferential source target (Some page))
      (Some page) (differential_prepared page source target s).
Proof.
  intros (ca & ia & Ha & _)%has_id_inv (cb & ib & Hb & _)%has_id_inv.
  unfold add_differential_a. rewrite Ha. simpl.
  erewrite lookup_alter_Some by done. simpl. done.
Qed.

Lemma differential_prepared_has_id page source target c s :
  has_id c s -> has_id c (differential_prepared page source target s).
Proof.
  intros (cl & i & Hc & Hi)%has_id_inv. unfold has_id, differential_prepared.
  simpl. destruct (add_page_range_other (page, page)
    (with_data (fun d => set_classes
                  (alter (add_page page) target
                     (alter (add_page page) source (classes d))) d) s)) as (-> & _).
  simpl. erewrite (lookup_alter_Some _ target c); [|by apply lookup_alter_Some].
  simpl. exists i. by repeat case_decide.
Qed.

Lemma differential_prepared_sends page source target s :
  sends s (differential_prepared page source target s)
    ((if decide ((page, page) ∈ page_list (data s)) then []
      else [mkMessage "chart.insert_page_range"
              (InsertPageRange (page, page)
                 (find_insert_idx page (page_list (data s))))])
     ++ [mkMessage "chart.class.update"
           (ClassUpdate (elements (_updated_elements (data s))))]).
Proof.
  unfold differential_prepared.
  set (s0 := with_data _ s).
  eapply sends_trans.
  - assert (H0 : sends s s0 [])
      by (unfold sends; simpl; by rewrite (right_id_L [] (++))).
    pose proof (add_page_range_sends (page, page) s0) as H1.
    pose proof (sends_trans _ _ _ _ _ H0 H1) as H2. exact H2.
  - pose proof (update_a_sends (add_page_range_a (page, page) s0)) as H.
    destruct (add_page_range_other (page, page) s0) as (_ & _ & E).
    rewrite E in H. exact H.
Qed.

Lemma differential_prepared_pages page source target c cl s :
  c = source \/ c = target ->
  classes (data s) !! c = Some cl ->
  exists cl', classes (data (differential_prepared page source target s)) !! c = Some cl'
              /\ page ∈ class_pages cl'.
Proof.
  intros Hc Hcl. unfold differential_prepared. simpl.
  destruct (add_page_range_other (page, page)
    (with_data (fun d => set_classes
                  (alter (add_page page) target
                     (alter (add_page page) source (classes d))) d) s)) as (-> & _).
  simpl. erewrite (lookup_alter_Some _ target c); [|by apply lookup_alter_Some].
  eexists. split; [done|].
  destruct Hc as [-> | ->]; repeat case_decide; try done; simpl;
    rewrite ?elem_of_app, ?list_elem_of_singleton; tauto.
Qed.

Lemma differential_prepared_class_id page source target c s :
  classes (data (differential_prepared page source target s)) !! c ≫= class_id
  = classes (data s) !! c ≫= class_id.
Proof.
  unfold differential_prepared. simpl.
  destruct (add_page_range_other (page, page)
    (with_data (fun d => set_classes
                  (alter (add_page page) target
                     (alter (add_page page) source (classes d))) d) s)) as (-> & _).
  simpl. destruct (classes (data s) !! c) as [cl|] eqn:E.
  - erewrite (lookup_alter_Some _ target c); [|by apply lookup_alter_Some].
    simpl. by repeat case_decide.
  - apply lookup_ge_None in E.
    rewrite (proj2 (lookup_ge_None _ _)); [done|].
    by rewrite !length_alter.
Qed.

Lemma differential_prepared_edges page source target sq :
  edges (data (differential_prepared page source target sq)) = edges (data sq).
Proof.
  unfold differential_prepared. simpl.
  by destruct (add_page_range_other (page, page)
    (with_data (fun d => set_classes
                  (alter (add_page page) target
                     (alter (add_page page) source (classes d))) d) sq))
    as (_ & -> & _).
Qed.

Lemma class_id_of_Some c s i :
  classes (data s) !! c ≫= class_id = Some i -> class_id_of c s = i.
Proof. unfold class_id_of. by intros ->. Qed.

Lemma has_id_class_id_of c s :
  has_id c s -> classes (data s) !! c ≫= class_id = Some (class_id_of c s).
Proof. unfold has_id, class_id_of. by intros [i ->]. Qed.

Lemma edge_added_pages e m c cl page :
  classes (data m) !! c = Some cl -> page ∈ class_pages cl ->
  exists cl', classes (edge_added e m) !! c = Some cl' /\ page ∈ class_pages cl'.
Proof.
  intros Hc Hp. unfold edge_added. simpl.
  erewrite (lookup_alter_Some _ (edge_target e) c); [|by apply lookup_alter_Some].
  eexists. split; [done|]. by repeat case_decide.
Qed.

End Engine.

(** ** Claim C3 *)

Lemma not_one_broadcast (o : Op) (s s' : SpectralSequenceChart) :
  run_op o s = Some s' -> length (emitted s s') <> 1 ->
  ~ one_broadcast_per_call o s.
Proof. intros Hr Hn H. by apply Hn, H. Qed.

(** C3, as stated, fails: on a new chart [add_page_range([2, 65535])] sends
    no message at all, and an [add_differential] with [auto] set on a chart
    with two classes sends three. *)
Lemma one_broadcast_per_call_fails :
  ~ one_broadcast_per_call (OpAddPageRange (2, INFINITY)%Z)
      (SpectralSequenceChart_init "sseq")
  /\ ~ one_broadcast_per_call (OpAddDifferential 3 0 1 true)
         (add_class_a 0 3 (add_class_a 1 0 (SpectralSequenceChart_init "sseq")).2).2.
Proof.
  split; eapply not_one_broadcast;
    try (vm_compute; reflexivity); vm_compute; discriminate.
Qed.

Lemma edge_call_sends ty source target page s :
  has_id source s -> has_id target s ->
  exists r, add_edge_a (ChartEdge_new ty source target page) page s = Some r
            /\ r.1 = length (edges (data s))
            /\ data r.2 = edge_added (ChartEdge_new ty source target page) s
            /\ exists ia ib,
                 classes (data s) !! source ≫= class_id = Some ia /\
                 classes (data s) !! target ≫= class_id = Some ib /\
                 sends s r.2 [mkMessage "chart.edge.add"
                                (EdgeAdd ty (length (edges (data s))) ia ib page)].
Proof.
  intros (ca & ia & Ha & Hia)%has_id_inv (cb & ib & Hb & Hib)%has_id_inv.
  eexists. split; [by eapply add_edge_a_spec|]. simpl.
  split_and!; try done. exists ia, ib. rewrite Ha, Hb. done.
Qed.

(** C3 as amended: a call whose arguments exist always succeeds and sends
    exactly the messages of [broadcasts_of_call], [broadcasts_per_call] in
    number: a [chart.node.add] for [add_node], a [chart.class.add] for
    [add_class], a [chart.edge.add] for [add_structline], [add_extension]
    and an [add_differential] without [auto], a [chart.class.update] for
    [flush_updates]; for [add_page_range] a [chart.insert_page_range] when
    the range is new and nothing when it is not; and for an
    [add_differential] with [auto] the [chart.class.update] of its flush
    and then the [chart.edge.add] of the edge, preceded by a
    [chart.insert_page_range] when [[page, page]] is new.  The ids in an
    edge message are those of the two classes. *)
Theorem broadcasts_of_each_call (o : Op) (s : SpectralSequenceChart) :
  op_ok o s ->
  exists s', run_op o s = Some s'
             /\ emitted s s' = broadcasts_of_call o s
             /\ length (emitted s s') = broadcasts_per_call o s
             /\ match o with
                | OpAddStructline a b | OpAddExtension a b
                | OpAddDifferential _ a b _ =>
                    classes (data s) !! a ≫= class_id = Some (class_id_of a s)
                    /\ classes (data s) !! b ≫= class_id = Some (class_id_of b s)
                | _ => True
                end.
Proof.
  intros Hok.
  assert (Hlen : length (broadcasts_of_call o s) = broadcasts_per_call o s).
  { destruct o as [sh|n|r|x y|e| |a b|a b|p a b [|]];
      cbn [broadcasts_of_call broadcasts_per_call];
      unfold page_range_messages; repeat case_decide; done. }
  assert (Hrun : exists s', run_op o s = Some s'
                            /\ sends s s' (broadcasts_of_call o s)).
  { destruct o as [sh|n|r|x y|e| |a b|a b|p a b auto];
      cbn [run_op op_ok broadcasts_of_call] in *.
    - eexists. split; [done|]. unfold sends. simpl.
      by rewrite (right_id_L [] (++)).
    - rewrite add_node_a_spec by done. eexists. split; done.
    - eexists. split; [done|]. apply add_page_range_sends.
    - eexists. split; [done|]. apply add_class_a_sends.
    - eexists. split; [done|]. unfold sends. simpl.
      by rewrite (right_id_L [] (++)).
    - eexists. split; [done|]. apply update_a_sends.
    - destruct Hok as [Ha Hb].
      destruct (edge_call_sends ChartStructline a b None s Ha Hb)
        as (r & Hr & _ & _ & ia & ib & Hia & Hib & Hs).
      unfold add_structline_a. rewrite Hr. eexists. split; [done|].
      unfold edge_add_message.
      by rewrite (class_id_of_Some _ _ _ Hia), (class_id_of_Some _ _ _ Hib).
    - destruct Hok as [Ha Hb].
      destruct (edge_call_sends ChartExtension a b None s Ha Hb)
        as (r & Hr & _ & _ & ia & ib & Hia & Hib & Hs).
      unfold add_extension_a. rewrite Hr. eexists. split; [done|].
      unfold edge_add_message.
      by rewrite (class_id_of_Some _ _ _ Hia), (class_id_of_Some _ _ _ Hib).
    - destruct Hok as [Ha Hb]. destruct auto.
      + rewrite add_differential_a_auto by done.
        destruct (edge_call_sends ChartDifferential a b (Some p)
                    (differential_prepared p a b s))
          as (r & Hr & _ & _ & ia & ib & Hia & Hib & Hs);
          [by apply differential_prepared_has_id..|].
        rewrite differential_prepared_class_id in Hia.
        rewrite differential_prepared_class_id in Hib.
        rewrite differential_prepared_edges in Hs.
        rewrite Hr. eexists. split; [done|].
        pose proof (sends_trans _ _ _ _ _
                      (differential_prepared_sends p a b s) Hs) as Hall.
        unfold edge_add_message, page_range_messages.
        rewrite (class_id_of_Some _ _ _ Hia), (class_id_of_Some _ _ _ Hib).
        by rewrite <- (assoc_L (++)) in Hall.
      + destruct (edge_call_sends ChartDifferential a b (Some p) s Ha Hb)
          as (r & Hr & _ & _ & ia & ib & Hia & Hib & Hs).
        unfold add_differential_a. simpl. rewrite Hr. eexists. split; [done|].
        unfold edge_add_message.
        by rewrite (class_id_of_Some _ _ _ Hia), (class_id_of_Some _ _ _ Hib). }
  destruct Hrun as (s' & Hr & Hs). exists s'.
  rewrite (sends_emitted _ _ _ Hs). split_and!; try done.
  destruct o as [sh|n|r|x y|e| |a b|a b|p a b auto]; try done;
    destruct Hok; split; by apply has_id_class_id_of.
Qed.

(** The statement at an [add_differential] on page 3 between two classes:
    the range [[3, 3]] is new, so three messages go out, the page range
    first and the edge last. *)
Lemma broadcasts_of_each_call_witness :
  let s := (add_class_a 0 3 (add_class_a 1 0 (SpectralSequenceChart_init "sseq")).2).2 in
  exists s', run_op (OpAddDifferential 3 0 1 true) s = Some s'
             /\ emitted s s' =
                  [mkMessage "chart.insert_page_range" (InsertPageRange (3, 3)%Z 1);
                   mkMessage "chart.class.update" (ClassUpdate []);
                   mkMessage "chart.edge.add"
                     (EdgeAdd ChartDifferential 0 0 1 (Some 3%Z))]
             /\ length (emitted s s') = 3.
Proof.
  intros s.
  destruct (broadcasts_of_each_call (OpAddDifferential 3 0 1 true) s)
    as (s' & Hr & He & Hl & _).
  - split; vm_compute; eexists; reflexivity.
  - exists s'. split; [exact Hr|]. rewrite Hl, He. split; vm_compute; reflexivity.
Defined.

(** ** Claim C4 *)

(** C4: [add_differential(page, source, target)] with [auto] set first
    reaches a chart [m] in which both endpoints have [page] recorded,
    [[page, page]] is in the page list and the dirty set is empty, having
    sent the page-range message (if the range was new) and then the update
    batch; only then does [add_edge_a] run on [m], store the new
    differential and send its [chart.edge.add], last of all.  The chart the
    call returns is [m] with that edge added: in it both endpoints have
    [page] recorded, [[page, page]] is in the page list and the dirty set is
    empty, and the messages of the call are, in order, the page-range
    message (if the range was new), the update batch of the elements that
    were pending, and the edge. *)
Theorem add_differential_prepares_first (page : Z) (source target : nat)
    (s : SpectralSequenceChart) :
  has_id source s -> has_id target s ->
  exists m d s' source_id target_id,
    m = differential_prepared page source target s /\
    (exists c, classes (data m) !! source = Some c /\ page ∈ class_pages c) /\
    (exists c, classes (data m) !! target = Some c /\ page ∈ class_pages c) /\
    (page, page) ∈ page_list (data m) /\
    _updated_elements (data m) = ∅ /\
    emitted s m =
      (if decide ((page, page) ∈ page_list (data s)) then []
       else [mkMessage "chart.insert_page_range"
               (InsertPageRange (page, page)
                  (find_insert_idx page (page_list (data s))))])
      ++ [mkMessage "chart.class.update"
            (ClassUpdate (elements (_updated_elements (data s))))] /\
    add_differential_a page source target true s = Some (d, s') /\
    edges (data s') =
      edges (data m) ++
        [mkChartEdge (Some d) ChartDifferential source target (Some page) None] /\
    emitted m s' =
      [mkMessage "chart.edge.add"
         (EdgeAdd ChartDifferential d source_id target_id (Some page))] /\
    emitted s s' = emitted s m ++ emitted m s' /\
    add_edge_a (ChartEdge_new ChartDifferential source target (Some page))
      (Some page) m = Some (d, s') /\
    data s' = edge_added (ChartEdge_new ChartDifferential source target (Some page)) m /\
    (exists c, classes (data s') !! source = Some c /\ page ∈ class_pages c) /\
    (exists c, classes (data s') !! target = Some c /\ page ∈ class_pages c) /\
    (page, page) ∈ page_list (data s') /\
    page_list (data s') = page_list (data (add_page_range_a (page, page) s)) /\
    _updated_elements (data s') = ∅ /\
    d = length (edges (data s)) /\
    edges (data m) = edges (data s) /\
    classes (data s) !! source ≫= class_id = Some source_id /\
    classes (data s) !! target ≫= class_id = Some target_id /\
    emitted s s' =
      (if decide ((page, page) ∈ page_list (data s)) then []
       else [mkMessage "chart.insert_page_range"
               (InsertPageRange (page, page)
                  (find_insert_idx page (page_list (data s))))])
      ++ [mkMessage "chart.class.update"
            (ClassUpdate (elements (_updated_elements (data s))));
          mkMessage "chart.edge.add"
            (EdgeAdd ChartDifferential d source_id target_id (Some page))].
Proof.
  intros Ha Hb.
  pose proof (differential_prepared_sends page source target s) as Hm.
  destruct (edge_call_sends ChartDifferential source target (Some page)
              (differential_prepared page source target s))
    as ([d s'] & Hr & Hd & Hdata & ia & ib & Hia & Hib & Hs);
    [by apply differential_prepared_has_id..|].
  simpl in Hd, Hdata, Hs.
  rewrite differential_prepared_class_id in Hia.
  rewrite differential_prepared_class_id in Hib.
  destruct (has_id_inv _ _ Ha) as (ca & ? & Hca & _).
  destruct (has_id_inv _ _ Hb) as (cb & ? & Hcb & _).
  destruct (differential_prepared_pages page source target source ca s)
    as (ca' & Hca' & Hpa); [by left|done|].
  destruct (differential_prepared_pages page source target target cb s)
    as (cb' & Hcb' & Hpb); [by right|done|].
  assert (Hpl : page_list (data (differential_prepared page source target s))
                = page_list (data (add_page_range_a (page, page) s))).
  { unfold differential_prepared. simpl.
    destruct (decide ((page, page) ∈ page_list (data s))) as [H|H].
    - by rewrite !add_page_range_present by done.
    - by rewrite !add_page_range_absent by done. }
  assert (Hpl2 : page_list (data s')
                 = page_list (data (differential_prepared page source target s)))
    by (by rewrite Hdata).
  exists (differential_prepared page source target s), d, s', ia, ib.
  split_and!.
  - done.
  - by exists ca'.
  - by exists cb'.
  - rewrite Hpl. apply add_page_range_elem.
  - done.
  - by apply sends_emitted.
  - by rewrite add_differential_a_auto.
  - rewrite Hdata, Hd. done.
  - rewrite Hd. by apply sends_emitted.
  - rewrite (sends_emitted _ _ _ Hm), (sends_emitted _ _ _ Hs).
    apply sends_emitted. by eapply sends_trans.
  - done.
  - done.
  - rewrite Hdata. by eapply edge_added_pages.
  - rewrite Hdata. by eapply edge_added_pages.
  - rewrite Hpl2, Hpl. apply add_page_range_elem.
  - by rewrite Hpl2.
  - by rewrite Hdata.
  - rewrite Hd.
    exact (f_equal length (differential_prepared_edges page source target s)).
  - apply differential_prepared_edges.
  - done.
  - done.
  - rewrite Hd. apply sends_emitted.
    pose proof (sends_trans _ _ _ _ _ Hm Hs) as Hall.
    by rewrite <- (assoc_L (++)) in Hall.
Qed.

(** The statement on page 3 between the classes at (1, 0) and (0, 3): the
    call returns a chart whose page list has gained [[3, 3]] and in which
    both classes are on page 3, having sent the page range, the update
    batch and the edge in that order. *)
Lemma add_differential_prepares_first_witness :
  let s := (add_class_a 0 3 (add_class_a 1 0 (SpectralSequenceChart_init "sseq")).2).2 in
  exists s', snd <$> add_differential_a 3 0 1 true s = Some s'
    /\ emitted s s' =
         [mkMessage "chart.insert_page_range" (InsertPageRange (3, 3)%Z 1);
          mkMessage "chart.class.update" (ClassUpdate []);
          mkMessage "chart.edge.add" (EdgeAdd ChartDifferential 0 0 1 (Some 3%Z))]
    /\ (3, 3)%Z ∈ page_list (data s')
    /\ ((3, 3)%Z ∉ page_list (data s))
    /\ (class_pages <$> classes (data s')) = [[3%Z]; [3%Z]]
    /\ _updated_elements (data s') = ∅.
Proof.
  intros s.
  destruct (add_differential_prepares_first 3 0 1 s)
    as (m & d & s' & ia & ib & _ & _ & _ & _ & _ & _ & Hr & _ & _ & _
        & _ & _ & _ & _ & Hpl & _ & Hdirty & _);
    [vm_compute; eexists; reflexivity..|].
  exists s'. rewrite Hr. split; [reflexivity|].
  split_and!; [| exact Hpl | | | exact Hdirty];
    vm_compute in Hr; injection Hr as _ <-.
  - vm_compute. reflexivity.
  - vm_compute. intros H. repeat (apply elem_of_cons in H as [H|H]; [discriminate H|]).
    by apply elem_of_nil in H.
  - vm_compute. reflexivity.
Defined.
(** ** Claims C8 and C10 *)

(** C8: on a new chart, [add_class(0, 0)], [add_class(1, 2)] and
    [add_structline(first, second)] leave exactly two classes, with ids 0
    and 1 in the order of creation, and exactly one edge, stored and
    broadcast with source id 0 and target id 1; the edge is in the
    incident-edge list of both classes. *)
Theorem two_classes_one_structline (nm : string) :
  let s0 := SpectralSequenceChart_init nm in
  let r1 := add_class_a 0 0 s0 in
  let r2 := add_class_a 1 2 r1.2 in
  exists e s3,
    add_structline_a r1.1 r2.1 r2.2 = Some (e, s3) /\
    r1.1 = 0 /\ r2.1 = 1 /\ e = 0 /\
    classes (data s3) =
      [mkChartClass 0 0 (Some 0) [0] [] [e]; mkChartClass 1 2 (Some 1) [0] [] [e]] /\
    edges (data s3) = [mkChartEdge (Some 0) ChartStructline r1.1 r2.1 None None] /\
    get_classes_in_bidegree 0 0 s3 = [0] /\
    get_classes_in_bidegree 1 2 s3 = [1] /\
    emitted s0 s3 =
      [mkMessage "chart.class.add" (ClassAdd 0);
       mkMessage "chart.class.add" (ClassAdd 1);
       mkMessage "chart.edge.add" (EdgeAdd ChartStructline 0 0 1 None)].
Proof.
  intros s0 r1 r2. eexists _, _.
  split; [vm_compute; reflexivity|].
  split_and!; vm_compute; reflexivity.
Qed.

(** C10: a new chart has the page list [[2, 65535], [65535, 65535]], one
    default circle node with idx 0 that is in the dedup cache, and no class,
    no bidegree entry, no edge and no pending update.  The first class gets
    id 0, the first node added gets idx 1, and [add_page_range([2, 65535])]
    changes nothing. *)
Theorem new_chart_is_not_blank (nm sh : string) (x y : Z) :
  let s := SpectralSequenceChart_init nm in
  INFINITY = 65535%Z /\
  page_list (data s) = [(2, 65535); (65535, 65535)]%Z /\
  nodes (data s) = [0] /\
  node_objects (data s) = [mkChartNode "circle" (Some 0)] /\
  _nodes_dict (data s) = {[ hash_node 0 := 0 ]} /\
  classes (data s) = [] /\
  _classes_by_bidegree (data s) = ∅ /\
  edges (data s) = [] /\
  _updated_elements (data s) = ∅ /\
  outbox s = [] /\
  classes (data (add_class_a x y s).2) !! (add_class_a x y s).1
    = Some (mkChartClass x y (Some 0) [0] [] []) /\
  (let r := ChartNode_new sh s in
   exists s', add_node_a r.1 r.2 = Some s'
              /\ nodes (data s') = [0; r.1]
              /\ node_objects (data s') !! r.1 = Some (mkChartNode sh (Some 1))) /\
  add_page_range_a (2, 65535)%Z s = s.
Proof.
  intros s. split_and!; try reflexivity.
  eexists. split; [reflexivity|]. split; reflexivity.
Qed.

(** ** Claim C9 *)

Section IndexIdentity.

Implicit Types (s : SpectralSequenceChart) (d : ChartData).

Lemma keys_kept_refl cs : keys_kept cs cs.
Proof. intros i c H. by exists c. Qed.

Lemma keys_kept_alter (f : ChartClass -> ChartClass) j cs :
  (forall c, same_key (f c) c) -> keys_kept cs (alter f j cs).
Proof.
  intros Hf i c H. destruct (cs !! i) as [c0|] eqn:E.
  - erewrite lookup_alter_Some in H by done. injection H as <-.
    exists c0. split; [done|]. by case_decide.
  - apply lookup_ge_None in E. apply lookup_lt_Some in H.
    rewrite length_alter in H. lia.
Qed.

Lemma keys_kept_trans cs1 cs2 cs3 :
  keys_kept cs1 cs2 -> keys_kept cs2 cs3 -> keys_kept cs1 cs3.
Proof.
  intros H12 H23 i c H. destruct (H23 i c H) as (c2 & H2 & K2).
  destruct (H12 i c2 H2) as (c1 & H1 & K1). exists c1. split; [done|].
  unfold same_key in *. intuition congruence.
Qed.

Lemma index_identity_init nm : index_identity (ChartData_init nm).
Proof.
  unfold index_identity. simpl. split_and!; try done.
  intros [|i] n; simpl; [|done]. intros [= <-]. by eexists.
Qed.

Lemma index_identity_classes d cs' :
  keys_kept (classes d) cs' -> index_identity d -> index_identity (set_classes cs' d).
Proof.
  intros Hk (Hn & Hc & He & Hb). unfold index_identity. simpl.
  split_and!; try done.
  - intros i c H. destruct (Hk i c H) as (c0 & H0 & _ & _ & ->). eauto.
  - intros i c H. destruct (Hk i c H) as (c0 & H0 & -> & -> & _). eauto.
Qed.

Lemma index_identity_edge d e :
  index_identity d ->
  index_identity (set_edges (edges d ++ [set_edge_id (length (edges d)) e]) d).
Proof.
  intros (Hn & Hc & He & Hb). unfold index_identity. simpl.
  split_and!; try done.
  intros i e' [[_ H]|[-> <-]]%lookup_snoc_Some; [eauto|done].
Qed.

Lemma index_identity_edge_added e s :
  index_identity (data s) -> index_identity (edge_added e s).
Proof.
  intros H. unfold edge_added. apply index_identity_classes.
  - simpl. eapply keys_kept_trans; apply keys_kept_alter; by intros [].
  - by apply index_identity_edge.
Qed.

Lemma index_identity_page_range r s :
  index_identity (data s) -> index_identity (data (add_page_range_a r s)).
Proof.
  intros H. destruct (decide (r ∈ page_list (data s))) as [Hr|Hr].
  - by rewrite add_page_range_present.
  - by rewrite add_page_range_absent.
Qed.

Lemma index_identity_prepared page source target s :
  index_identity (data s) ->
  index_identity (data (differential_prepared page source target s)).
Proof.
  intros H. unfold differential_prepared.
  set (s0 := with_data _ s).
  assert (H0 : index_identity (data s0)).
  { subst s0. simpl. apply index_identity_classes; [|done].
    eapply keys_kept_trans; apply keys_kept_alter; by intros []. }
  apply (index_identity_page_range (page, page)) in H0.
  exact H0.
Qed.

Lemma index_identity_new_node sh s :
  index_identity (data s) -> index_identity (data (ChartNode_new sh s).2).
Proof.
  intros (Hn & Hc & He & Hb). unfold index_identity. simpl.
  split_and!; try done.
  intros i n H. destruct (Hn i n H) as (o & Ho & Hi). exists o.
  split; [|done]. by apply lookup_app_l_Some.
Qed.

Lemma index_identity_add_node n s :
  n < length (node_objects (data s)) -> n ∉ nodes (data s) ->
  index_identity (data s) ->
  exists s', add_node_a n s = Some s' /\ index_identity (data s').
Proof.
  intros Hlt Hnew (Hn & Hc & He & Hb).
  rewrite add_node_a_spec by done. eexists. split; [done|].
  unfold index_identity. simpl. split_and!; try done.
  intros i m [[_ H]|[-> <-]]%lookup_snoc_Some.
  - destruct (Hn i m H) as (o & Ho & Hi). exists o. split; [|done].
    rewrite list_lookup_alter_ne; [done|].
    intros ->. apply Hnew. by eapply list_elem_of_lookup_2.
  - destruct (lookup_lt_is_Some_2 _ _ Hlt) as [o Ho].
    exists (set_node_idx (length (nodes (data s))) o).
    split; [|done]. by rewrite list_lookup_alter_eq, Ho.
Qed.

Lemma index_identity_add_class x y s :
  index_identity (data s) -> index_identity (data (add_class_a x y s).2).
Proof.
  intros (Hn & Hc & He & Hb). unfold index_identity. simpl.
  set (m := _classes_by_bidegree (data s)).
  set (m1 := if decide ((x, y) ∈ dom m) then m else <[(x, y) := []]> m).
  assert (Hm1 : exists l, m1 !! (x, y) = Some l /\
                          forall i, m !! (x, y) = Some i -> l = i).
  { subst m1. destruct (decide ((x, y) ∈ dom m)) as [Hd|Hd].
    - apply elem_of_dom in Hd as [l Hl]. exists l. split; [done|].
      intros i. rewrite Hl. by intros [= <-].
    - exists []. rewrite lookup_insert_eq. split; [done|].
      apply not_elem_of_dom in Hd. rewrite Hd. done. }
  assert (Hm1' : forall pos, pos <> (x, y) -> m1 !! pos = m !! pos).
  { intros pos Hne. subst m1. destruct (decide ((x, y) ∈ dom m)); [done|].
    by rewrite lookup_insert_ne. }
  destruct Hm1 as (l1 & Hl1 & Hsame).
  split_and!; try done.
  - intros i c [[_ H]|[-> <-]]%lookup_snoc_Some; [eauto|done].
  - intros i c [[_ H]|[-> <-]]%lookup_snoc_Some.
    + destruct (Hb i c H) as (l & Hl & Hi).
      destruct (decide ((class_x c, class_y c) = (x, y))) as [E|E].
      * rewrite E in *. exists (l1 ++ [length (classes (data s))]).
        rewrite lookup_alter_eq, Hl1. split; [done|].
        rewrite (Hsame _ Hl). apply elem_of_app. by left.
      * exists l. rewrite lookup_alter_ne by done.
        rewrite Hm1' by done. done.
    + simpl.
      exists (l1 ++ [length (classes (data s))]).
      rewrite lookup_alter_eq, Hl1. split; [done|].
      apply elem_of_app. right. by apply list_elem_of_singleton.
Qed.

Lemma index_identity_run_op o s :
  op_ok o s -> node_is_new o s -> index_identity (data s) ->
  exists s', run_op o s = Some s' /\ index_identity (data s').
Proof.
  destruct o as [sh|n|r|x y|e| |a b|a b|p a b auto]; intros Hok Hnew Hinv;
    cbn [run_op op_ok node_is_new] in *.
  - eexists. split; [done|]. by apply index_identity_new_node.
  - by apply index_identity_add_node.
  - eexists. split; [done|]. by apply index_identity_page_range.
  - eexists. split; [done|]. by apply index_identity_add_class.
  - eexists. split; [done|]. exact Hinv.
  - eexists. split; [done|]. exact Hinv.
  - destruct Hok as [Ha Hb].
    destruct (edge_call_sends ChartStructline a b None s Ha Hb)
      as (r & Hr & _ & Hd & _).
    unfold add_structline_a. rewrite Hr. eexists. split; [done|].
    simpl. rewrite Hd. by apply index_identity_edge_added.
  - destruct Hok as [Ha Hb].
    destruct (edge_call_sends ChartExtension a b None s Ha Hb)
      as (r & Hr & _ & Hd & _).
    unfold add_extension_a. rewrite Hr. eexists. split; [done|].
    simpl. rewrite Hd. by apply index_identity_edge_added.
  - destruct Hok as [Ha Hb]. destruct auto.
    + rewrite add_differential_a_auto by done.
      destruct (edge_call_sends ChartDifferential a b (Some p)
                  (differential_prepared p a b s))
        as (r & Hr & _ & Hd & _);
        [by apply differential_prepared_has_id..|].
      rewrite Hr. eexists. split; [done|].
      simpl. rewrite Hd. apply index_identity_edge_added.
      by apply index_identity_prepared.
    + destruct (edge_call_sends ChartDifferential a b (Some p) s Ha Hb)
        as (r & Hr & _ & Hd & _).
      unfold add_differential_a. simpl. rewrite Hr. eexists. split; [done|].
      simpl. rewrite Hd. by apply index_identity_edge_added.
Qed.

Lemma index_identity_run_ops os s :
  run_ok (fun o s => op_ok o s /\ node_is_new o s) os s ->
  index_identity (data s) ->
  exists s', run_ops os s = Some s' /\ index_identity (data s').
Proof.
  revert s. induction os as [|o os IH]; intros s Hok Hinv; simpl.
  - by exists s.
  - destruct Hok as [[Ho Hnew] Hrest].
    destruct (index_identity_run_op o s Ho Hnew Hinv) as (s1 & Hr & H1).
    rewrite Hr. simpl. apply IH; [by apply Hrest|done].
Qed.

End IndexIdentity.

(** C9, as stated, fails: [add_node] given the same node object twice
    leaves it at positions 1 and 2 with idx 2. *)
Lemma index_identity_fails_on_readded_node :
  exists s,
    run_ops [OpNewNode "square"; OpAddNode 1; OpAddNode 1]
      (SpectralSequenceChart_init "sseq") = Some s
    /\ nodes (data s) = [0; 1; 1]
    /\ node_objects (data s) !! 1 = Some (mkChartNode "square" (Some 2))
    /\ ~ index_identity (data s).
Proof.
  eexists. split; [vm_compute; reflexivity|].
  split; [reflexivity|]. split; [reflexivity|].
  intros (Hn & _). destruct (Hn 1 1 eq_refl) as (o & Ho & Hi).
  injection Ho as <-. discriminate Hi.
Qed.

(** C9 as amended: after any sequence of calls on a new chart in which every
    argument exists and every [add_node] is given a node object that is not
    yet in the node list, the run succeeds and position and identifier agree
    for nodes, classes and edges, and every class is filed under its own
    bidegree. *)
Theorem index_identity_after_calls (nm : string) (os : list Op) :
  run_ok (fun o s => op_ok o s /\ node_is_new o s) os (SpectralSequenceChart_init nm) ->
  exists s, run_ops os (SpectralSequenceChart_init nm) = Some s
            /\ index_identity (data s).
Proof.
  intros Hok. apply index_identity_run_ops; [done|]. apply index_identity_init.
Qed.

(** The statement on a run that builds a node, two classes, a structline
    and a differential. *)
Lemma index_identity_after_calls_witness :
  exists s,
    run_ops [OpNewNode "square"; OpAddNode 1; OpAddClass 0 0; OpAddClass 1 2;
             OpAddStructline 0 1; OpAddDifferential 2 0 1 true]
      (SpectralSequenceChart_init "sseq") = Some s
    /\ index_identity (data s).
Proof.
  apply (index_identity_after_calls "sseq").
  do 6 run_ok_call. exact I.
Defined.

(** ** Claim C7 *)

Section ModeMessages.



Lemma getattr_Some (m : Mode) (attr : string) :
  is_Some (getattr m attr) <-> attr ∈ own_methods m \/ attr ∈ Mode_methods.
Proof.
  unfold getattr. repeat case_decide; split; eauto; try tauto.
  intros [? Hnone]. discriminate Hnone.
Qed.

Lemma getattr_name (m : Mode) (attr : string) (f : Method) :
  getattr m attr = Some f -> method_name f = attr.
Proof. unfold getattr. repeat case_decide; by intros [= <-]. Qed.


End ModeMessages.



(** ** Claims C5 and C6 *)

Section Clicks.

Implicit Types (a : InteractiveChartAgent) (s t : ChartClass).

Lemma alter_last {A} (f : A -> A) (l : list A) (e : A) :
  alter f (length l) (l ++ [e]) = l ++ [f e].
Proof.
  rewrite <- (Nat.add_0_r (length l)). by rewrite alter_app_r.
Qed.

Lemma differential_click_invalid x y a s_ref t_ref s t :
  _differential_source a = Some s_ref ->
  classes (data (chart a)) !! s_ref = Some s ->
  classes (data (chart a)) !! t_ref = Some t ->
  class_x s <> (class_x t + 1)%Z ->
  AddDifferentialMode_handle_click_a x y (Some t_ref) a
  = Some (Done (print "invalid" a)).
Proof.
  intros Hsrc Hs Ht Hx. unfold AddDifferentialMode_handle_click_a.
  rewrite Hsrc, Hs. simpl. rewrite Ht. simpl. by rewrite decide_True.
Qed.

Lemma differential_click_valid x y a s_ref t_ref s t :
  _differential_source a = Some s_ref ->
  classes (data (chart a)) !! s_ref = Some s ->
  classes (data (chart a)) !! t_ref = Some t ->
  has_id s_ref (chart a) -> has_id t_ref (chart a) ->
  class_x s = (class_x t + 1)%Z ->
  exists a',
    AddDifferentialMode_handle_click_a x y (Some t_ref) a = Some (Done a')
    /\ edges (data (chart a')) =
         edges (data (chart a)) ++
           [mkChartEdge (Some (length (edges (data (chart a))))) ChartDifferential
              s_ref t_ref (Some (class_y t - class_y s)%Z) (Some "blue")]
    /\ _differential_source a' = None
    /\ console a' = console a ++ ["success"].
Proof.
  intros Hsrc Hs Ht Ha Hb Hx. unfold AddDifferentialMode_handle_click_a.
  rewrite Hsrc, Hs. simpl. rewrite Ht. simpl.
  rewrite decide_False by (intros Hn; by apply Hn).
  rewrite add_differential_a_auto by done.
  set (page := (class_y t - class_y s)%Z).
  pose proof (differential_prepared_edges page s_ref t_ref (chart a)) as Hedges.
  pose proof (differential_prepared_has_id page s_ref t_ref _ _ Ha) as Ha'.
  pose proof (differential_prepared_has_id page s_ref t_ref _ _ Hb) as Hb'.
  remember (differential_prepared page s_ref t_ref (chart a)) as m eqn:Em.
  destruct (edge_call_sends ChartDifferential s_ref t_ref (Some page) m Ha' Hb')
    as ([d ch] & Hr & Hd & Hdata & _).
  simpl in Hd, Hdata. rewrite Hr. simpl.
  eexists. split; [done|]. simpl. rewrite Hdata, Hd. simpl.
  rewrite Hedges. by rewrite alter_last.
Qed.

Lemma extension_click_unfold x y a s_ref t_ref s t :
  _extension_source a = Some s_ref ->
  classes (data (chart a)) !! s_ref = Some s ->
  classes (data (chart a)) !! t_ref = Some t ->
  AddExtensionMode_handle_click_a x y (Some t_ref) a =
    Some (if decide ((class_x t - class_x s)%Z ∉ [0; 1; 3]%Z)
          then Done (print "invalid" a)
          else if decide (class_y t - class_y s < 2)%Z
               then Done (print "invalid" a)
               else AwaitResult
                      (prompt_a "Color?" (_extension_prev_color_default a)
                         (print "success" a))
                      (AddExtensionMode_after_prompt s_ref t_ref)).
Proof.
  intros Hsrc Hs Ht. unfold AddExtensionMode_handle_click_a.
  rewrite Hsrc, Hs. simpl. rewrite Ht. simpl.
  by repeat case_decide.
Qed.

Lemma elem_of_013 (dx : Z) :
  dx ∈ [0; 1; 3]%Z <-> dx = 0%Z \/ dx = 1%Z \/ dx = 3%Z.
Proof. rewrite !elem_of_cons, elem_of_nil. tauto. Qed.

Lemma extension_after_prompt s_ref t_ref color a :
  has_id s_ref (chart a) -> has_id t_ref (chart a) ->
  exists a',
    AddExtensionMode_after_prompt s_ref t_ref color a = Some a'
    /\ edges (data (chart a')) =
         edges (data (chart a)) ++
           [mkChartEdge (Some (length (edges (data (chart a))))) ChartExtension
              s_ref t_ref None color]
    /\ _extension_source a' = None
    /\ _extension a' = Some (length (edges (data (chart a)))).
Proof.
  intros Ha Hb. unfold AddExtensionMode_after_prompt.
  destruct (edge_call_sends ChartExtension s_ref t_ref None (chart a) Ha Hb)
    as ([e ch] & Hr & He & Hdata & _).
  simpl in He, Hdata. unfold add_extension_a. simpl.
  rewrite Hr. simpl. eexists. split; [done|]. simpl.
  rewrite Hdata, He. simpl. by rewrite alter_last.
Qed.

End Clicks.

(** C5: in [AddDifferentialMode], with a pending source [s] and a click on
    the class [t]: if [s.x != t.x + 1] the handler ends having changed the
    console only, so the chart and the pending source are as before; if
    [s.x == t.x + 1] it ends with exactly one new edge, a differential from
    [s] to [t] on page [t.y - s.y] coloured blue, and no pending source. *)
Theorem differential_click (x y : Q) (a : InteractiveChartAgent)
    (s_ref t_ref : nat) (s t : ChartClass) :
  _differential_source a = Some s_ref ->
  classes (data (chart a)) !! s_ref = Some s ->
  classes (data (chart a)) !! t_ref = Some t ->
  has_id s_ref (chart a) -> has_id t_ref (chart a) ->
  let r := AddDifferentialMode_handle_click_a x y (Some t_ref) a in
  (class_x s <> (class_x t + 1)%Z ->
   exists a', r = Some (Done a')
              /\ a' = print "invalid" a
              /\ chart a' = chart a
              /\ _differential_source a' = Some s_ref) /\
  (class_x s = (class_x t + 1)%Z ->
   exists a', r = Some (Done a')
              /\ edges (data (chart a')) =
                   edges (data (chart a)) ++
                     [mkChartEdge (Some (length (edges (data (chart a)))))
                        ChartDifferential s_ref t_ref
                        (Some (class_y t - class_y s)%Z) (Some "blue")]
              /\ _differential_source a' = None).
Proof.
  intros Hsrc Hs Ht Ha Hb r. split; intros Hx.
  - exists (print "invalid" a). split_and!; try done.
    by eapply differential_click_invalid.
  - destruct (differential_click_valid x y a s_ref t_ref s t)
      as (a' & Hr & He & Hd & _); try done.
    by exists a'.
Qed.

(** The statement on a chart with classes at (1, 0) and (0, 3) and the
    first one pending: a click on the second is valid and gives a blue
    differential on page 3; a click on the first itself is invalid. *)
Lemma differential_click_witness :
  let a := set_differential_source (Some 0)
             (set_chart
                (add_class_a 0 3
                   (add_class_a 1 0 (SpectralSequenceChart_init "sseq")).2).2
                (InteractiveChartAgent_init "sseq")) in
  (exists a', AddDifferentialMode_handle_click_a 0 0 (Some 1) a = Some (Done a')
     /\ edges (data (chart a')) =
          [mkChartEdge (Some 0) ChartDifferential 0 1 (Some 3%Z) (Some "blue")]
     /\ _differential_source a' = None)
  /\ AddDifferentialMode_handle_click_a 0 0 (Some 0) a
     = Some (Done (print "invalid" a)).
Proof.
  intros a. split.
  - destruct (differential_click 0 0 a 0 1
                (mkChartClass 1 0 (Some 0) [0] [] [])
                (mkChartClass 0 3 (Some 1) [0] [] []))
      as [_ Hvalid];
      [vm_compute; reflexivity | vm_compute; reflexivity | vm_compute; reflexivity
      | vm_compute; eexists; reflexivity | vm_compute; eexists; reflexivity |].
    destruct Hvalid as (a' & Hr & He & Hd); [vm_compute; reflexivity|].
    exists a'. split; [exact Hr|]. split; [exact He|exact Hd].
  - destruct (differential_click 0 0 a 0 0
                (mkChartClass 1 0 (Some 0) [0] [] [])
                (mkChartClass 1 0 (Some 0) [0] [] []))
      as [Hinvalid _];
      [vm_compute; reflexivity | vm_compute; reflexivity | vm_compute; reflexivity
      | vm_compute; eexists; reflexivity | vm_compute; eexists; reflexivity |].
    destruct Hinvalid as (a' & Hr & -> & _); [vm_compute; discriminate|].
    exact Hr.
Defined.

(** C6: in [AddExtensionMode], with a pending source [s] and a click on the
    class [t], the click is accepted (the handler goes on to prompt for a
    colour) exactly when [t.x - s.x] is 0, 1 or 3 and [t.y - s.y >= 2], and
    is otherwise rejected with the console as the only thing changed: the
    chart and the pending source stay.  The displacements (0,2), (1,2) and
    (3,5) are accepted, (2,2) and (0,1) are rejected.  Once an accepted
    click gets its answer, one extension edge from [s] to [t] is added and
    the pending source is cleared. *)
Theorem extension_click (x y : Q) (a : InteractiveChartAgent)
    (s_ref t_ref : nat) (s t : ChartClass) :
  _extension_source a = Some s_ref ->
  classes (data (chart a)) !! s_ref = Some s ->
  classes (data (chart a)) !! t_ref = Some t ->
  let dx := (class_x t - class_x s)%Z in
  let dy := (class_y t - class_y s)%Z in
  let accepted := (dx = 0 \/ dx = 1 \/ dx = 3)%Z /\ (2 <= dy)%Z in
  let r := AddExtensionMode_handle_click_a x y (Some t_ref) a in
  let waiting := prompt_a "Color?" (_extension_prev_color_default a)
                   (print "success" a) in
  (accepted <->
   r = Some (AwaitResult waiting (AddExtensionMode_after_prompt s_ref t_ref))) /\
  (~ accepted <-> r = Some (Done (print "invalid" a))) /\
  (chart (print "invalid" a) = chart a
   /\ _extension_source (print "invalid" a) = Some s_ref) /\
  ((dx, dy) ∈ [(0, 2); (1, 2); (3, 5)]%Z -> accepted) /\
  ((dx, dy) ∈ [(2, 2); (0, 1)]%Z -> ~ accepted) /\
  (accepted -> has_id s_ref (chart a) -> has_id t_ref (chart a) ->
   forall color, exists a',
     AddExtensionMode_after_prompt s_ref t_ref color waiting = Some a'
     /\ edges (data (chart a')) =
          edges (data (chart a)) ++
            [mkChartEdge (Some (length (edges (data (chart a))))) ChartExtension
               s_ref t_ref None color]
     /\ _extension_source a' = None).
Proof.
  intros Hsrc Hs Ht dx dy accepted r waiting.
  assert (Hr : r = Some (if decide (dx ∉ [0; 1; 3]%Z)
                         then Done (print "invalid" a)
                         else if decide (dy < 2)%Z
                              then Done (print "invalid" a)
                              else AwaitResult waiting
                                     (AddExtensionMode_after_prompt s_ref t_ref)))
    by exact (extension_click_unfold x y a s_ref t_ref s t Hsrc Hs Ht).
  clearbody r. subst r. unfold accepted.
  rewrite <- elem_of_013.
  split_and!.
  - destruct (decide (dx ∉ [0; 1; 3]%Z)) as [Hn|Hn];
      [|destruct (decide (dy < 2)%Z) as [Hd|Hd]];
      (split; [intros [H1 H2]|intros H]);
      try discriminate H; try reflexivity;
      try (exfalso; tauto); try (exfalso; lia).
    split; [by apply dec_stable|lia].
  - destruct (decide (dx ∉ [0; 1; 3]%Z)) as [Hn|Hn];
      [|destruct (decide (dy < 2)%Z) as [Hd|Hd]];
      (split; [intros H|intros H [H1 H2]]);
      try discriminate H; try reflexivity;
      try (exfalso; tauto); try (exfalso; lia).
    exfalso. apply H. split; [by apply dec_stable|lia].
  - done.
  - done.
  - intros Hd. rewrite !elem_of_cons, elem_of_nil in Hd.
    split; [rewrite elem_of_013|];
      destruct Hd as [[= H1 H2]|[[= H1 H2]|[[= H1 H2]|[]]]]; lia.
  - intros Hd [H1' H2']. rewrite !elem_of_cons, elem_of_nil in Hd.
    rewrite elem_of_013 in H1'.
    destruct Hd as [[= H1 H2]|[[= H1 H2]|[]]]; lia.
  - intros _ Ha Hb color.
    destruct (extension_after_prompt s_ref t_ref color waiting Ha Hb)
      as (a' & Hk & He & Hd & _).
    by exists a'.
Qed.

(** The statement on a chart with classes at (0, 0), (1, 2) and (2, 2) and
    the first one pending: a click on (1, 2) is accepted, a click on (2, 2)
    is rejected. *)
Lemma extension_click_witness :
  let a := set_extension_source (Some 0)
             (set_chart
                (add_class_a 2 2
                   (add_class_a 1 2
                      (add_class_a 0 0 (SpectralSequenceChart_init "sseq")).2).2).2
                (InteractiveChartAgent_init "sseq")) in
  (exists a' k, AddExtensionMode_handle_click_a 0 0 (Some 1) a = Some (AwaitResult a' k))
  /\ AddExtensionMode_handle_click_a 0 0 (Some 2) a = Some (Done (print "invalid" a)).
Proof.
  intros a. split.
  - destruct (extension_click 0 0 a 0 1
                (mkChartClass 0 0 (Some 0) [0] [] [])
                (mkChartClass 1 2 (Some 1) [0] [] []))
      as [[Hacc _] _];
      [vm_compute; reflexivity | vm_compute; reflexivity | vm_compute; reflexivity |].
    eexists _, _. apply Hacc. simpl. lia.
  - destruct (extension_click 0 0 a 0 2
                (mkChartClass 0 0 (Some 0) [0] [] [])
                (mkChartClass 2 2 (Some 2) [0] [] []))
      as (_ & [Hrej _] & _);
      [vm_compute; reflexivity | vm_compute; reflexivity | vm_compute; reflexivity |].
    apply Hrej. simpl. lia.
Defined.

(** ** Runs of calls *)

Section Runs.

Implicit Types (s : SpectralSequenceChart) (d : ChartData) (o : Op).

Lemma run_op_effect o s :
  op_ok o s -> exists s', run_op o s = Some s' /\ op_effect o s s'.
Proof.
  destruct o as [sh|n|r|x y|e| |a b|a b|p a b auto]; intros Hok;
    cbn [run_op op_ok op_effect] in *; try by eexists.
  - rewrite add_node_a_spec by done. by eexists.
  - destruct Hok as [Ha Hb].
    destruct (edge_call_sends ChartStructline a b None s Ha Hb)
      as ([r s'] & Hr & Hd & Hdata & ia & ib & Hia & Hib & Hs).
    unfold add_structline_a. rewrite Hr. exists s'. split; [done|].
    exists ia, ib. split_and!; try done.
    destruct s' as [d' o']. simpl in *. by rewrite Hdata, Hs.
  - destruct Hok as [Ha Hb].
    destruct (edge_call_sends ChartExtension a b None s Ha Hb)
      as ([r s'] & Hr & Hd & Hdata & ia & ib & Hia & Hib & Hs).
    unfold add_extension_a. rewrite Hr. exists s'. split; [done|].
    exists ia, ib. split_and!; try done.
    destruct s' as [d' o']. simpl in *. by rewrite Hdata, Hs.
  - destruct Hok as [Ha Hb].
    assert (Hrun : add_differential_a p a b auto s =
                   add_edge_a (ChartEdge_new ChartDifferential a b (Some p)) (Some p)
                     (if auto then differential_prepared p a b s else s)).
    { destruct auto; [by apply add_differential_a_auto|done]. }
    rewrite Hrun.
    remember (if auto then differential_prepared p a b s else s) as m eqn:Em.
    assert (Ha' : has_id a m)
      by (subst m; destruct auto; [by apply differential_prepared_has_id|done]).
    assert (Hb' : has_id b m)
      by (subst m; destruct auto; [by apply differential_prepared_has_id|done]).
    destruct (edge_call_sends ChartDifferential a b (Some p) m Ha' Hb')
      as ([r s'] & Hr & Hd & Hdata & ia & ib & Hia & Hib & Hs).
    rewrite Hr. exists s'. split; [done|].
    exists ia, ib. split_and!; try done.
    destruct s' as [d' o']. simpl in *. by rewrite Hdata, Hs.
Qed.

(** A relation between the chart before and after one call that is
    reflexive and transitive holds between the ends of a run. *)
Lemma run_ops_rel (R : SpectralSequenceChart -> SpectralSequenceChart -> Prop) os s :
  (forall s, R s s) ->
  (forall s1 s2 s3, R s1 s2 -> R s2 s3 -> R s1 s3) ->
  (forall o s s', op_ok o s -> op_effect o s s' -> R s s') ->
  run_ok op_ok os s ->
  exists s', run_ops os s = Some s' /\ R s s'.
Proof.
  intros Hrefl Htrans Hstep. revert s.
  induction os as [|o os IH]; intros s Hok; simpl.
  - by exists s.
  - destruct Hok as [Ho Hrest].
    destruct (run_op_effect o s Ho) as (s1 & Hr & He).
    rewrite Hr. simpl.
    destruct (IH s1 (Hrest _ Hr)) as (s' & Hrun & HR).
    exists s'. split; [done|]. eapply Htrans; [by eapply Hstep|done].
Qed.

(** An invariant kept by every call holds at the end of a run. *)
Lemma run_ops_inv (I : SpectralSequenceChart -> Prop) os s :
  (forall o s s', op_ok o s -> op_effect o s s' -> I s -> I s') ->
  run_ok op_ok os s -> I s ->
  exists s', run_ops os s = Some s' /\ I s'.
Proof.
  intros Hstep Hok Hs.
  destruct (run_ops_rel (fun s s' => I s -> I s') os s) as (s' & Hr & HI);
    eauto.
Qed.

End Runs.

(** ** The page list and its observers *)

Section PageListObservers.

Implicit Types (s : SpectralSequenceChart) (l : list PageRange).

Lemma add_page_range_data r s :
  data (add_page_range_a r s)
  = set_page_list (page_list (data (add_page_range_a r s))) (data s).
Proof.
  destruct (decide (r ∈ page_list (data s))) as [H|H].
  - rewrite add_page_range_present by done. by destruct (data s).
  - by rewrite add_page_range_absent.
Qed.

Lemma add_page_range_members r s p :
  p ∈ page_list (data (add_page_range_a r s)) <-> p = r \/ p ∈ page_list (data s).
Proof.
  destruct (decide (r ∈ page_list (data s))) as [H|H].
  - rewrite add_page_range_present by done. split; [tauto|].
    by intros [->|?].
  - rewrite add_page_range_absent by done. simpl. apply elem_of_insert_at.
Qed.

Lemma add_page_range_length r s :
  length (page_list (data (add_page_range_a r s)))
  = length (page_list (data s)) + length (emitted s (add_page_range_a r s)).
Proof.
  rewrite (sends_emitted _ _ _ (add_page_range_sends r s)).
  destruct (decide (r ∈ page_list (data s))) as [H|H].
  - rewrite add_page_range_present by done. simpl. lia.
  - rewrite add_page_range_absent by done. simpl.
    unfold list_insert_at. rewrite length_app. simpl.
    rewrite length_take, length_drop.
    pose proof (find_insert_idx_le r.1 (page_list (data s))). lia.
Qed.

Lemma add_page_ranges_sends rs s :
  exists ms, sends s (add_page_ranges rs s) ms.
Proof.
  revert s. induction rs as [|r rs IH]; intros s; simpl.
  - exists []. apply sends_refl.
  - destruct (IH (add_page_range_a r s)) as (ms & Hms).
    eexists. eapply sends_trans; [apply add_page_range_sends|done].
Qed.

Lemma replay_frame ms l :
  (forall m, m ∈ ms -> forall r i, payload m <> InsertPageRange r i) ->
  replay_page_ranges ms l = l.
Proof.
  revert l. induction ms as [|m ms IH]; intros l H; [done|].
  assert (Hm : replay_page_ranges (m :: ms) l = replay_page_ranges ms l).
  { unfold replay_page_ranges. simpl. destruct (payload m) eqn:E; try done.
    exfalso. eapply (H m); [by left|done]. }
  rewrite Hm. apply IH. intros m' Hm'. apply H. by right.
Qed.

Lemma replay_app ms1 ms2 l :
  replay_page_ranges (ms1 ++ ms2) l
  = replay_page_ranges ms2 (replay_page_ranges ms1 l).
Proof. unfold replay_page_ranges. by rewrite foldl_app. Qed.

Lemma synced_refl s : page_list_synced s s.
Proof. exists []. split; [apply sends_refl|done]. Qed.

Lemma synced_trans s1 s2 s3 :
  page_list_synced s1 s2 -> page_list_synced s2 s3 -> page_list_synced s1 s3.
Proof.
  intros (ms1 & S1 & R1) (ms2 & S2 & R2). exists (ms1 ++ ms2).
  split; [by eapply sends_trans|]. by rewrite replay_app, R1.
Qed.

Lemma synced_page_range r s : page_list_synced s (add_page_range_a r s).
Proof.
  eexists. split; [apply add_page_range_sends|].
  destruct (decide (r ∈ page_list (data s))) as [H|H].
  - by rewrite add_page_range_present.
  - by rewrite add_page_range_absent.
Qed.

Lemma synced_prepared p a b s :
  page_list_synced s (differential_prepared p a b s).
Proof.
  unfold differential_prepared.
  set (s0 := with_data _ s).
  apply (synced_trans s s0); [exists []; split; [|done]|].
  { unfold sends. simpl. by rewrite (right_id_L [] (++)). }
  apply (synced_trans _ (add_page_range_a (p, p) s0)); [apply synced_page_range|].
  eexists. split; [apply update_a_sends|]. done.
Qed.

Lemma synced_edge ty a b page m s' :
  edge_effect ty a b page m s' -> page_list_synced m s'.
Proof.
  intros (ia & ib & _ & _ & ->). eexists. split; [done|]. done.
Qed.

Lemma synced_op o s s' : op_ok o s -> op_effect o s s' -> page_list_synced s s'.
Proof.
  destruct o as [sh|n|r|x y|e| |a b|a b|p a b auto]; intros _ He;
    cbn [op_effect] in He; try (by eapply synced_edge); subst.
  - exists []. split; [|done]. unfold sends. simpl. by rewrite (right_id_L [] (++)).
  - eexists. split; [done|]. done.
  - apply synced_page_range.
  - eexists. split; [apply add_class_a_sends|]. done.
  - exists []. split; [|done]. unfold sends. simpl. by rewrite (right_id_L [] (++)).
  - eexists. split; [apply update_a_sends|]. done.
  - destruct auto; [|by eapply synced_edge].
    eapply synced_trans; [apply synced_prepared|by eapply synced_edge].
Qed.

End PageListObservers.

(** X1: a sequence of [add_page_range] calls adds exactly the given ranges
    to the page list: a range is in the list afterwards iff it was there
    before or is one of the arguments; the list grows by one entry per
    message sent; and nothing else in the chart data changes. *)
Theorem page_ranges_accumulate (rs : list PageRange) (s : SpectralSequenceChart)
    (p : PageRange) :
  (p ∈ page_list (data (add_page_ranges rs s)) <-> p ∈ page_list (data s) \/ p ∈ rs) /\
  length (page_list (data (add_page_ranges rs s)))
    = length (page_list (data s)) + length (emitted s (add_page_ranges rs s)) /\
  data (add_page_ranges rs s)
    = set_page_list (page_list (data (add_page_ranges rs s))) (data s).
Proof.
  revert s. induction rs as [|r rs IH]; intros s; simpl.
  - split_and!.
    + rewrite elem_of_nil. tauto.
    + rewrite emitted_self. simpl. lia.
    + by destruct (data s).
  - destruct (IH (add_page_range_a r s)) as (Hm & Hl & Hd). split_and!.
    + rewrite Hm, add_page_range_members, elem_of_cons. tauto.
    + rewrite Hl, add_page_range_length.
      destruct (add_page_ranges_sends rs (add_page_range_a r s)) as (ms & Hms).
      pose proof (add_page_range_sends r s) as H1.
      rewrite (sends_emitted _ _ _ Hms), (sends_emitted _ _ _ H1).
      rewrite (sends_emitted _ _ _ (sends_trans _ _ _ _ _ H1 Hms)).
      rewrite length_app. lia.
    + remember (add_page_ranges rs (add_page_range_a r s)) as X eqn:EX.
      rewrite Hd at 1. rewrite (add_page_range_data r s). reflexivity.
Qed.

(** X2: an observer that applies every [chart.insert_page_range] message of
    a run to its own copy of the page list, by inserting the range at the
    index the message carries, ends with the agent's page list; this holds
    for runs of any calls, [add_differential] included. *)
Theorem page_list_replay (os : list Op) (s : SpectralSequenceChart) :
  run_ok op_ok os s ->
  exists s', run_ops os s = Some s'
             /\ replay_page_ranges (emitted s s') (page_list (data s))
                = page_list (data s').
Proof.
  intros Hok.
  destruct (run_ops_rel page_list_synced os s) as (s' & Hr & ms & Hs & Hp);
    [apply synced_refl|apply synced_trans|apply synced_op|done|].
  exists s'. split; [done|]. by rewrite (sends_emitted _ _ _ Hs).
Qed.

(** The statement on a run with two classes, an explicit page range and a
    differential on page 3. *)
Lemma page_list_replay_witness :
  exists s',
    run_ops [OpAddClass 1 0; OpAddClass 0 3; OpAddPageRange (5, 7)%Z;
             OpAddDifferential 3 0 1 true]
      (SpectralSequenceChart_init "sseq") = Some s'
    /\ replay_page_ranges (emitted (SpectralSequenceChart_init "sseq") s')
         (page_list (data (SpectralSequenceChart_init "sseq")))
       = page_list (data s').
Proof.
  apply (page_list_replay _ (SpectralSequenceChart_init "sseq")).
  do 4 run_ok_step. exact I.
Defined.

(** ** Consistency of classes, bidegrees and edges *)

Section Consistency.

Implicit Types (s : SpectralSequenceChart) (d : ChartData) (c : ChartClass).

Lemma lookup_alter_inv {A} (f : A -> A) (j i : nat) (l : list A) (x' : A) :
  alter f j l !! i = Some x' ->
  exists x, l !! i = Some x /\ x' = (if decide (j = i) then f x else x).
Proof.
  intros H. destruct (l !! i) as [x|] eqn:E.
  - erewrite lookup_alter_Some in H by done. injection H as <-. by exists x.
  - apply lookup_ge_None in E. apply lookup_lt_Some in H.
    rewrite length_alter in H. lia.
Qed.

(** Replacing the classes by ones that differ at most in their pages. *)
Lemma consistent_classes d cs' :
  length cs' = length (classes d) ->
  (forall i c c', classes d !! i = Some c -> cs' !! i = Some c' ->
     class_x c' = class_x c /\ class_y c' = class_y c
     /\ class_id c' = class_id c /\ class_edges c' = class_edges c) ->
  consistent d -> consistent (set_classes cs' d).
Proof.
  intros Hlen Hsame (Hids & Hfiled & Hexact & Hinc1 & Hinc2).
  assert (Hback : forall i c', cs' !! i = Some c' ->
            exists c, classes d !! i = Some c
                      /\ class_x c' = class_x c /\ class_y c' = class_y c
                      /\ class_id c' = class_id c /\ class_edges c' = class_edges c).
  { intros i c' H. pose proof (lookup_lt_Some _ _ _ H) as Hlt.
    rewrite Hlen in Hlt. destruct (lookup_lt_is_Some_2 _ _ Hlt) as [c Hc].
    exists c. split; [done|]. by eapply Hsame. }
  assert (Hforth : forall i c, classes d !! i = Some c ->
            exists c', cs' !! i = Some c'
                      /\ class_x c' = class_x c /\ class_y c' = class_y c
                      /\ class_id c' = class_id c /\ class_edges c' = class_edges c).
  { intros i c H. pose proof (lookup_lt_Some _ _ _ H) as Hlt.
    rewrite <- Hlen in Hlt. destruct (lookup_lt_is_Some_2 _ _ Hlt) as [c' Hc'].
    exists c'. split; [done|]. by eapply Hsame. }
  unfold consistent, ids_ok, classes_filed, bidegree_exact, incident_edges_ok.
  simpl. split_and!.
  - intros i c' H. destruct (Hback i c' H) as (c & Hc & _ & _ & -> & _). eauto.
  - intros i c' H. destruct (Hback i c' H) as (c & Hc & -> & -> & _). eauto.
  - intros pos l Hl. destruct (Hexact pos l Hl) as [Hnd Hel]. split; [done|].
    intros i Hi. destruct (Hel i Hi) as (c & Hc & Hpos).
    destruct (Hforth i c Hc) as (c' & Hc' & Hx & Hy & _).
    exists c'. split; [done|]. by rewrite Hx, Hy.
  - intros i e He. destruct (Hinc1 i e He) as (cs & ct & Hs & Ht & His & Hit).
    destruct (Hforth _ _ Hs) as (cs1 & Hs1 & _ & _ & _ & Es).
    destruct (Hforth _ _ Ht) as (ct1 & Ht1 & _ & _ & _ & Et).
    exists cs1, ct1. by rewrite Es, Et.
  - intros c cl' i Hcl Hi.
    destruct (Hback c cl' Hcl) as (cl & Hc & _ & _ & _ & Ee).
    rewrite Ee in Hi. eauto.
Qed.

Lemma consistent_add_pages p a b d :
  consistent d ->
  consistent (set_classes (alter (add_page p) b (alter (add_page p) a (classes d))) d).
Proof.
  apply consistent_classes.
  - by rewrite !length_alter.
  - intros i c c' Hc Hc'.
    apply lookup_alter_inv in Hc' as (c1 & Hc1 & ->).
    apply lookup_alter_inv in Hc1 as (c0 & Hc0 & ->).
    rewrite Hc in Hc0. injection Hc0 as <-.
    by repeat case_decide.
Qed.

Lemma consistent_prepared p a b s :
  consistent (data s) -> consistent (data (differential_prepared p a b s)).
Proof.
  intros H. unfold differential_prepared. simpl.
  rewrite add_page_range_data. simpl.
  by apply (consistent_add_pages p a b) in H.
Qed.

Lemma consistent_add_class x y s :
  consistent (data s) -> consistent (data (add_class_a x y s).2).
Proof.
  intros (Hids & Hfiled & Hexact & Hinc1 & Hinc2).
  unfold consistent, ids_ok, classes_filed, bidegree_exact, incident_edges_ok.
  simpl.
  set (m := _classes_by_bidegree (data s)).
  set (n := length (classes (data s))).
  set (m1 := if decide ((x, y) ∈ dom m) then m else <[(x, y) := []]> m).
  assert (Hm1 : exists l, m1 !! (x, y) = Some l /\
                  (m !! (x, y) = Some l \/ (m !! (x, y) = None /\ l = []))).
  { subst m1. destruct (decide ((x, y) ∈ dom m)) as [Hd|Hd].
    - apply elem_of_dom in Hd as [l Hl]. exists l. split; [done|]. by left.
    - exists []. rewrite lookup_insert_eq. split; [done|]. right.
      by apply not_elem_of_dom in Hd. }
  assert (Hm1' : forall pos, pos <> (x, y) -> m1 !! pos = m !! pos).
  { intros pos Hne. subst m1. destruct (decide ((x, y) ∈ dom m)); [done|].
    by rewrite lookup_insert_ne. }
  destruct Hm1 as (l1 & Hl1 & Hold).
  assert (Hl1ok : NoDup l1 /\ forall i, i ∈ l1 ->
            exists c, classes (data s) !! i = Some c /\ (class_x c, class_y c) = (x, y)).
  { destruct Hold as [Hl|[_ ->]]; [by apply (Hexact _ _ Hl)|].
    split; [constructor|]. intros i Hi. by apply elem_of_nil in Hi. }
  destruct Hl1ok as [Hnd1 Hel1].
  split_and!.
  - intros i c [[_ H]|[-> <-]]%lookup_snoc_Some; [eauto|done].
  - intros i c [[_ H]|[-> <-]]%lookup_snoc_Some.
    + destruct (Hfiled i c H) as (l & Hl & Hi).
      destruct (decide ((class_x c, class_y c) = (x, y))) as [E|E].
      * rewrite E in *. exists (l1 ++ [n]).
        rewrite lookup_alter_eq, Hl1. split; [done|].
        destruct Hold as [Hl'|[Hnone _]]; unfold m in *; [|congruence].
        rewrite Hl in Hl'. injection Hl' as ->.
        apply elem_of_app. by left.
      * exists l. rewrite lookup_alter_ne by done. by rewrite Hm1'.
    + simpl. exists (l1 ++ [n]). rewrite lookup_alter_eq, Hl1. split; [done|].
      apply elem_of_app. right. by apply list_elem_of_singleton.
  - intros pos l Hl. destruct (decide (pos = (x, y))) as [->|Hne].
    + rewrite lookup_alter_eq, Hl1 in Hl. injection Hl as <-. split.
      * apply NoDup_app. split_and!; [done| |apply NoDup_singleton].
        intros i Hi ->%list_elem_of_singleton.
        destruct (Hel1 _ Hi) as (c & Hc & _).
        apply lookup_lt_Some in Hc. subst n. lia.
      * intros i [Hi| ->%list_elem_of_singleton]%elem_of_app.
        -- destruct (Hel1 _ Hi) as (c & Hc & Hpos). exists c.
           split; [by apply lookup_app_l_Some|done].
        -- eexists. split; [apply list_lookup_middle; done|done].
    + rewrite lookup_alter_ne in Hl by done. rewrite Hm1' in Hl by done.
      destruct (Hexact pos l Hl) as [Hnd Hel]. split; [done|].
      intros i Hi. destruct (Hel i Hi) as (c & Hc & Hpos). exists c.
      split; [by apply lookup_app_l_Some|done].
  - intros i e He. destruct (Hinc1 i e He) as (cs & ct & Hs & Ht & His & Hit).
    exists cs, ct. split_and!; try done; by apply lookup_app_l_Some.
  - intros c cl i [[_ H]|[-> <-]]%lookup_snoc_Some Hi; [eauto|].
    simpl in Hi. by apply elem_of_nil in Hi.
Qed.

End Consistency.

Section ConsistencyEdges.

Implicit Types (s m : SpectralSequenceChart) (d : ChartData) (c : ChartClass).

Lemma edge_added_class n a b (cs : list ChartClass) i c' :
  alter (append_edge n) b (alter (append_edge n) a cs) !! i = Some c' <->
  exists c, cs !! i = Some c
            /\ class_x c' = class_x c /\ class_y c' = class_y c
            /\ class_id c' = class_id c
            /\ c' = (if decide (b = i) then append_edge n else id)
                      ((if decide (a = i) then append_edge n else id) c).
Proof.
  split.
  - intros H. apply lookup_alter_inv in H as (c1 & Hc1 & ->).
    apply lookup_alter_inv in Hc1 as (c0 & Hc0 & ->).
    exists c0. split; [done|]. by repeat case_decide.
  - intros (c & Hc & _ & _ & _ & ->).
    erewrite (lookup_alter_Some _ b i); [|by apply lookup_alter_Some].
    by repeat case_decide.
Qed.

Lemma edge_added_class_fwd n a b (cs : list ChartClass) i c :
  cs !! i = Some c ->
  alter (append_edge n) b (alter (append_edge n) a cs) !! i
  = Some ((if decide (b = i) then append_edge n else id)
            ((if decide (a = i) then append_edge n else id) c)).
Proof.
  intros Hc. apply edge_added_class. exists c.
  split_and!; try done; by repeat case_decide.
Qed.

Lemma edge_added_class_edges n (a b i : nat) c j :
  j ∈ class_edges ((if decide (b = i) then append_edge n else id)
                     ((if decide (a = i) then append_edge n else id) c))
  <-> j ∈ class_edges c \/ (j = n /\ (a = i \/ b = i)).
Proof.
  repeat case_decide; simpl; rewrite ?elem_of_app, ?list_elem_of_singleton;
    intuition congruence.
Qed.

Lemma consistent_edge_added ty a b page m :
  is_Some (classes (data m) !! a) -> is_Some (classes (data m) !! b) ->
  consistent (data m) ->
  consistent (edge_added (ChartEdge_new ty a b page) m).
Proof.
  intros [ca Ha] [cb Hb] (Hids & Hfiled & Hexact & Hinc1 & Hinc2).
  unfold consistent, ids_ok, classes_filed, bidegree_exact, incident_edges_ok,
    edge_added. simpl.
  set (n := length (edges (data m))).
  split_and!.
  - intros i c' (c & Hc & _ & _ & -> & _)%edge_added_class. eauto.
  - intros i c' (c & Hc & -> & -> & _ & _)%edge_added_class. eauto.
  - intros pos l Hl. destruct (Hexact pos l Hl) as [Hnd Hel]. split; [done|].
    intros i Hi. destruct (Hel i Hi) as (c & Hc & Hpos).
    eexists. split; [by apply edge_added_class_fwd|].
    by repeat case_decide.
  - intros i e [[_ He]|[-> <-]]%lookup_snoc_Some.
    + destruct (Hinc1 i e He) as (cs & ct & Hs & Ht & His & Hit).
      eexists _, _. split; [by apply edge_added_class_fwd|].
      split; [by apply edge_added_class_fwd|].
      split; apply edge_added_class_edges; by left.
    + simpl. eexists _, _. split; [by apply edge_added_class_fwd|].
      split; [by apply edge_added_class_fwd|].
      split; apply edge_added_class_edges; right; (split; [done|tauto]).
  - intros c cl' i (cl & Hcl & _ & _ & _ & ->)%edge_added_class
      [Hi|[-> Hc]]%edge_added_class_edges.
    + destruct (Hinc2 c cl i Hcl Hi) as (e & He & Hends).
      exists e. split; [by apply lookup_app_l_Some|done].
    + eexists. split; [by apply list_lookup_middle|]. simpl. tauto.
Qed.

Lemma edge_effect_consistent ty a b page m s' :
  edge_effect ty a b page m s' -> consistent (data m) -> consistent (data s').
Proof.
  intros (ia & ib & Hia & Hib & ->) H. simpl.
  apply consistent_edge_added; [| |done].
  - destruct (classes (data m) !! a); [by eexists|done].
  - destruct (classes (data m) !! b); [by eexists|done].
Qed.

Lemma consistent_op o s s' :
  op_ok o s -> op_effect o s s' -> consistent (data s) -> consistent (data s').
Proof.
  destruct o as [sh|n|r|x y|e| |a b|a b|p a b auto]; intros _ He H;
    cbn [op_effect] in He; try (by eapply edge_effect_consistent); subst;
    try done.
  - by rewrite add_page_range_data.
  - by apply consistent_add_class.
  - eapply edge_effect_consistent; [done|].
    destruct auto; [by apply consistent_prepared|done].
Qed.

Lemma consistent_init nm : consistent (ChartData_init nm).
Proof.
  unfold consistent, ids_ok, classes_filed, bidegree_exact, incident_edges_ok.
  simpl. split_and!; try done;
    intros pos l H; by rewrite lookup_empty in H.
Qed.

End ConsistencyEdges.

(** X3: after any run of calls on a new chart, [get_classes_in_bidegree]
    returns exactly the classes whose bidegree is [(x, y)], each of them
    once. *)
Theorem classes_in_bidegree_exact (nm : string) (os : list Op) :
  run_ok op_ok os (SpectralSequenceChart_init nm) ->
  exists s, run_ops os (SpectralSequenceChart_init nm) = Some s /\
    forall x y,
      NoDup (get_classes_in_bidegree x y s) /\
      forall i, i ∈ get_classes_in_bidegree x y s <->
                exists c, classes (data s) !! i = Some c
                          /\ class_x c = x /\ class_y c = y.
Proof.
  intros Hok.
  destruct (run_ops_inv (fun s => consistent (data s)) os
              (SpectralSequenceChart_init nm))
    as (s & Hr & _ & Hfiled & Hexact & _);
    [apply consistent_op|done|apply consistent_init|].
  exists s. split; [done|]. intros x y. unfold get_classes_in_bidegree.
  destruct (_classes_by_bidegree (data s) !! (x, y)) as [l|] eqn:E; simpl.
  - destruct (Hexact _ _ E) as [Hnd Hel]. split; [done|].
    intros i. split.
    + intros Hi. destruct (Hel i Hi) as (c & Hc & [= Hx Hy]). by exists c.
    + intros (c & Hc & Hx & Hy).
      destruct (Hfiled i c Hc) as (l' & Hl' & Hi).
      rewrite Hx, Hy, E in Hl'. by injection Hl' as <-.
  - split; [constructor|]. intros i. split.
    + by intros ?%elem_of_nil.
    + intros (c & Hc & Hx & Hy).
      destruct (Hfiled i c Hc) as (l' & Hl' & Hi).
      by rewrite Hx, Hy, E in Hl'.
Qed.

(** The statement on a run that puts two classes at (0, 0) and one at
    (1, 2). *)
Lemma classes_in_bidegree_exact_witness :
  exists s,
    run_ops [OpAddClass 0 0; OpAddClass 1 2; OpAddClass 0 0; OpAddStructline 0 1]
      (SpectralSequenceChart_init "sseq") = Some s
    /\ get_classes_in_bidegree 0 0 s = [0; 2].
Proof.
  destruct (classes_in_bidegree_exact "sseq"
              [OpAddClass 0 0; OpAddClass 1 2; OpAddClass 0 0; OpAddStructline 0 1])
    as (s & Hr & _).
  - do 4 run_ok_step. exact I.
  - exists s. split; [exact Hr|].
    vm_compute in Hr. injection Hr as <-. vm_compute. reflexivity.
Defined.

(** X4: after any run of calls on a new chart, edges and incident-edge
    lists agree: every stored edge has both endpoints among the classes and
    is in the [_edges] list of each, and every entry of a class's [_edges]
    list is a stored edge with that class as source or target. *)
Theorem incident_edges_agree (nm : string) (os : list Op) :
  run_ok op_ok os (SpectralSequenceChart_init nm) ->
  exists s, run_ops os (SpectralSequenceChart_init nm) = Some s /\
    (forall i e, edges (data s) !! i = Some e ->
       exists cs ct, classes (data s) !! edge_source e = Some cs
                     /\ classes (data s) !! edge_target e = Some ct
                     /\ i ∈ class_edges cs /\ i ∈ class_edges ct) /\
    (forall c cl i, classes (data s) !! c = Some cl -> i ∈ class_edges cl ->
       exists e, edges (data s) !! i = Some e
                 /\ (edge_source e = c \/ edge_target e = c)).
Proof.
  intros Hok.
  destruct (run_ops_inv (fun s => consistent (data s)) os
              (SpectralSequenceChart_init nm))
    as (s & Hr & _ & _ & _ & Hinc);
    [apply consistent_op|done|apply consistent_init|].
  by exists s.
Qed.

(** The statement on a run with a structline, an extension and a
    differential between two classes. *)
Lemma incident_edges_agree_witness :
  exists s,
    run_ops [OpAddClass 1 0; OpAddClass 0 3; OpAddStructline 0 1;
             OpAddExtension 1 1; OpAddDifferential 3 0 1 true]
      (SpectralSequenceChart_init "sseq") = Some s
    /\ forall i e, edges (data s) !! i = Some e ->
         exists cs ct, classes (data s) !! edge_source e = Some cs
                       /\ classes (data s) !! edge_target e = Some ct
                       /\ i ∈ class_edges cs /\ i ∈ class_edges ct.
Proof.
  destruct (incident_edges_agree "sseq"
              [OpAddClass 1 0; OpAddClass 0 3; OpAddStructline 0 1;
               OpAddExtension 1 1; OpAddDifferential 3 0 1 true])
    as (s & Hr & H1 & _).
  - do 5 run_ok_step. exact I.
  - exists s. split; [exact Hr|exact H1].
Defined.

(** ** The outbox mirrors the chart *)

Section Mirror.

Implicit Types (s m : SpectralSequenceChart) (ms : list Message).

Lemma mirrored_frame s s' ms :
  sends s s' ms ->
  class_adds ms = [] -> edge_adds ms = [] -> node_adds ms = [] ->
  length (classes (data s')) = length (classes (data s)) ->
  edges (data s') = edges (data s) ->
  nodes (data s') = nodes (data s) ->
  mirrored s -> mirrored s'.
Proof.
  unfold sends, mirrored, class_adds, edge_adds, node_adds.
  intros -> Hc He Hn -> -> -> (H1 & H2 & H3).
  rewrite !omap_app. unfold class_adds, edge_adds, node_adds in *.
  rewrite Hc, He, Hn, !(right_id_L [] (++)). done.
Qed.

Lemma mirrored_prepared p a b s :
  mirrored s -> mirrored (differential_prepared p a b s).
Proof.
  eapply mirrored_frame; [apply differential_prepared_sends|..].
  - by destruct (decide ((p, p) ∈ page_list (data s))).
  - by destruct (decide ((p, p) ∈ page_list (data s))).
  - by destruct (decide ((p, p) ∈ page_list (data s))).
  - unfold differential_prepared. simpl. rewrite add_page_range_data. simpl.
    by rewrite !length_alter.
  - apply differential_prepared_edges.
  - unfold differential_prepared. simpl. by rewrite add_page_range_data.
Qed.

Lemma mirrored_edge ty a b page m s' :
  edge_effect ty a b page m s' -> ids_ok (data m) -> mirrored m -> mirrored s'.
Proof.
  intros (ia & ib & Hia & Hib & ->) Hids (H1 & H2 & H3).
  assert (Ea : ia = a).
  { destruct (classes (data m) !! a) as [c|] eqn:E; [|done].
    simpl in Hia. rewrite (Hids _ _ E) in Hia. by injection Hia. }
  assert (Eb : ib = b).
  { destruct (classes (data m) !! b) as [c|] eqn:E; [|done].
    simpl in Hib. rewrite (Hids _ _ E) in Hib. by injection Hib. }
  subst ia ib.
  unfold mirrored, class_adds, edge_adds, node_adds, edge_added in *. simpl.
  rewrite !omap_app, !length_alter, imap_app. simpl.
  rewrite ?(right_id_L [] (++)), ?Nat.add_0_r. by rewrite H1, H2, H3.
Qed.

Lemma mirrored_op o s s' :
  op_ok o s -> op_effect o s s' ->
  consistent (data s) /\ mirrored s -> consistent (data s') /\ mirrored s'.
Proof.
  intros Hok He [Hc Hm]. split; [by eapply consistent_op|].
  pose proof Hc as (Hids & _).
  destruct o as [sh|n|r|x y|e| |a b|a b|p a b auto];
    cbn [op_effect] in He; try (by eapply mirrored_edge); subst.
  - eapply (mirrored_frame s _ []); try done.
    unfold sends. simpl. by rewrite (right_id_L [] (++)).
  - destruct Hm as (H1 & H2 & H3).
    unfold mirrored, class_adds, edge_adds, node_adds in *. simpl.
    rewrite !omap_app. simpl.
    rewrite ?(right_id_L [] (++)). by rewrite H1, H2, H3.
  - eapply mirrored_frame; [apply add_page_range_sends|..|done];
      try (by destruct (decide (r ∈ page_list (data s))));
      by rewrite add_page_range_data.
  - destruct Hm as (H1 & H2 & H3).
    unfold mirrored, class_adds, edge_adds, node_adds in *. simpl.
    rewrite !omap_app, length_app, Nat.add_1_r, seq_S. simpl.
    rewrite ?(right_id_L [] (++)). by rewrite H1, H2, H3.
  - eapply (mirrored_frame s _ []); try done.
    unfold sends. simpl. by rewrite (right_id_L [] (++)).
  - eapply mirrored_frame; [apply update_a_sends|..|done]; done.
  - destruct auto; [|by eapply mirrored_edge].
    pose proof (consistent_prepared p a b s Hc) as (Hids' & _).
    eapply mirrored_edge; [done|done|by apply mirrored_prepared].
Qed.

End Mirror.

(** X5: after any run of calls on a new chart, the [chart.class.add]
    messages sent so far name the classes 0, 1, 2, ... once each and in
    order, as many as there are classes; and the node list is the default
    node followed by the nodes of the [chart.node.add] messages, in the
    order sent. *)
Theorem class_and_node_messages_mirror (nm : string) (os : list Op) :
  run_ok op_ok os (SpectralSequenceChart_init nm) ->
  exists s, run_ops os (SpectralSequenceChart_init nm) = Some s /\
    class_adds (outbox s) = seq 0 (length (classes (data s))) /\
    nodes (data s) = 0 :: node_adds (outbox s).
Proof.
  intros Hok.
  destruct (run_ops_inv (fun s => consistent (data s) /\ mirrored s) os
              (SpectralSequenceChart_init nm))
    as (s & Hr & _ & H1 & _ & H3);
    [apply mirrored_op|done|split; [apply consistent_init|done]|].
  by exists s.
Qed.

(** The statement on a run that adds a node twice and two classes. *)
Lemma class_and_node_messages_mirror_witness :
  exists s,
    run_ops [OpNewNode "square"; OpAddNode 1; OpAddClass 0 0; OpAddNode 1;
             OpAddClass 1 2; OpFlushUpdates]
      (SpectralSequenceChart_init "sseq") = Some s
    /\ class_adds (outbox s) = [0; 1]
    /\ nodes (data s) = [0; 1; 1].
Proof.
  destruct (class_and_node_messages_mirror "sseq"
              [OpNewNode "square"; OpAddNode 1; OpAddClass 0 0; OpAddNode 1;
               OpAddClass 1 2; OpFlushUpdates])
    as (s & Hr & H1 & H2).
  - do 6 run_ok_step. exact I.
  - exists s. split; [exact Hr|].
    vm_compute in Hr. injection Hr as <-. split; vm_compute; reflexivity.
Defined.

(** X6: after any run of calls on a new chart, the [chart.edge.add]
    messages sent so far describe the edge list entry by entry: the i-th
    message carries id i and the type, source, target and page of the edge
    stored at position i. *)
Theorem edge_messages_mirror (nm : string) (os : list Op) :
  run_ok op_ok os (SpectralSequenceChart_init nm) ->
  exists s, run_ops os (SpectralSequenceChart_init nm) = Some s /\
    edge_adds (outbox s) = imap edge_summary (edges (data s)) /\
    (forall i ty j a b p, edge_adds (outbox s) !! i = Some (ty, j, a, b, p) ->
       j = i /\ exists e, edges (data s) !! i = Some e
                          /\ edge_type e = ty /\ edge_source e = a
                          /\ edge_target e = b /\ edge_page e = p).
Proof.
  intros Hok.
  destruct (run_ops_inv (fun s => consistent (data s) /\ mirrored s) os
              (SpectralSequenceChart_init nm))
    as (s & Hr & _ & _ & H2 & _);
    [apply mirrored_op|done|split; [apply consistent_init|done]|].
  exists s. split; [done|]. split; [done|].
  intros i ty j a b p Hi. rewrite H2, list_lookup_imap in Hi.
  destruct (edges (data s) !! i) as [e|]; [|done].
  injection Hi as <- <- <- <- <-. split; [done|]. by exists e.
Qed.

(** The statement on a run with a structline and a differential. *)
Lemma edge_messages_mirror_witness :
  exists s,
    run_ops [OpAddClass 1 0; OpAddClass 0 3; OpAddStructline 0 1;
             OpAddDifferential 3 0 1 true]
      (SpectralSequenceChart_init "sseq") = Some s
    /\ edge_adds (outbox s)
       = [(ChartStructline, 0, 0, 1, None); (ChartDifferential, 1, 0, 1, Some 3%Z)].
Proof.
  destruct (edge_messages_mirror "sseq"
              [OpAddClass 1 0; OpAddClass 0 3; OpAddStructline 0 1;
               OpAddDifferential 3 0 1 true])
    as (s & Hr & _).
  - do 4 run_ok_step. exact I.
  - exists s. split; [exact Hr|].
    vm_compute in Hr. injection Hr as <-. vm_compute. reflexivity.
Defined.

(** ** Ranges, background colour and class names *)

Section WholeAgent.

Implicit Types (a : ChartAgent) (o : AgentOp) (os : list AgentOp).

Lemma run_agent_op_attributes o a a' :
  run_agent_op o a = Some a' ->
  x_range (agent_attributes a')
    = match o with SetXRange lo hi => Some (lo, hi) | _ => x_range (agent_attributes a) end
  /\ background_color (agent_attributes a')
    = match o with
      | SetBackgroundColorOp c => Some c
      | _ => background_color (agent_attributes a)
      end
  /\ agent_display_state a' = agent_display_state a
  /\ initial_display_states (agent_outbox a')
     = initial_display_states (agent_outbox a)
       ++ match o with ConsumeNewUser => [agent_display_state a] | _ => [] end.
Proof.
  destruct o as [eo|lo hi|lo hi|lo hi|lo hi|c|]; simpl;
    try (intros [= <-]; simpl; split_and!; try done;
         unfold initial_display_states; by rewrite omap_app).
  unfold lift_engine. destruct (run_op eo _) as [s'|]; simpl; [|done].
  intros [= <-]. simpl. split_and!; try done.
  unfold initial_display_states. rewrite omap_app.
  rewrite (right_id_L [] (++)).
  rewrite <- (right_id_L [] (++) (omap _ (agent_outbox a))) at 2. f_equal.
  induction (outbox s') as [|m ms IH]; simpl; [done|]. apply IH.
Qed.

Lemma run_agent_ops_attributes os a a' :
  run_agent_ops os a = Some a' ->
  x_range (agent_attributes a')
    = foldl (fun acc o => match o with SetXRange lo hi => Some (lo, hi) | _ => acc end)
        (x_range (agent_attributes a)) os
  /\ background_color (agent_attributes a')
    = foldl (fun acc o => match o with SetBackgroundColorOp c => Some c | _ => acc end)
        (background_color (agent_attributes a)) os
  /\ agent_display_state a' = agent_display_state a
  /\ (forall ds, ds ∈ initial_display_states (agent_outbox a') ->
        ds ∈ initial_display_states (agent_outbox a) \/ ds = agent_display_state a).
Proof.
  revert a. induction os as [|o os IH]; intros a; simpl.
  - intros [= <-]. split_and!; try done. by left.
  - destruct (run_agent_op o a) as [a1|] eqn:E; simpl; [|done].
    intros Hrun. destruct (IH a1 Hrun) as (Hx & Hb & Hd & Hm).
    destruct (run_agent_op_attributes o a a1 E) as (Hx1 & Hb1 & Hd1 & Hm1).
    rewrite Hx, Hb, Hd, Hx1, Hb1, Hd1. split_and!; try done.
    intros ds Hds. destruct (Hm ds Hds) as [Hin| ->]; [|by right].
    rewrite Hm1, elem_of_app in Hin. destruct Hin as [Hin|Hin]; [by left|].
    right. destruct o as [eo|lo hi|lo hi|lo hi|lo hi|c|];
      try (by apply elem_of_nil in Hin).
    by apply list_elem_of_singleton in Hin.
Qed.

Lemma last_x_range_None os :
  (forall lo hi, SetXRange lo hi ∉ os) -> last_x_range os = None.
Proof.
  unfold last_x_range. induction os as [|o os IH] using rev_ind; [done|].
  intros H. rewrite foldl_app. simpl.
  destruct o as [eo|lo hi|lo hi|lo hi|lo hi|c|];
    try (apply IH; intros lo' hi' Hin; apply (H lo' hi'); apply elem_of_app;
         by left).
  exfalso. apply (H lo hi). apply elem_of_app. right. by left.
Qed.

Lemma py_index_Some {A} (l : list A) (i : Z) (x : A) :
  py_index l i = Some x ->
  (- Z.of_nat (length l) <= i < Z.of_nat (length l))%Z
  /\ l !! Z.to_nat (if decide (0 <= i)%Z then i else Z.of_nat (length l) + i)%Z = Some x.
Proof.
  unfold py_index. intros H. repeat case_decide; try done.
  - split; [|done]. apply lookup_lt_Some in H. lia.
  - split; [|done]. apply lookup_lt_Some in H. lia.
Qed.

Lemma py_index_None {A} (l : list A) (i : Z) :
  py_index l i = None <-> ~ (- Z.of_nat (length l) <= i < Z.of_nat (length l))%Z.
Proof.
  unfold py_index. repeat case_decide; rewrite ?lookup_ge_None; split; try lia;
    try done.
Qed.

End WholeAgent.

(** X7: the properties [x_min] and [x_max] read [data.x_range], which
    [__init__] does not create: after any run of calls on a new chart they
    raise [AttributeError] unless the run contains a [set_x_range_a], in
    which case they give the bounds of the last one.  [set_initial_x_range_a]
    and every other call leave them as they are. *)
Theorem x_range_unset_until_assigned (nm : string) (os : list AgentOp)
    (a' : ChartAgent) :
  run_agent_ops os (ChartAgent_init nm) = Some a' ->
  x_min a' = match last_x_range os with
             | Some r => inr r.1
             | None => inl (AttributeError "x_range")
             end /\
  x_max a' = match last_x_range os with
             | Some r => inr r.2
             | None => inl (AttributeError "x_range")
             end /\
  ((forall lo hi, SetXRange lo hi ∉ os) ->
   x_min a' = inl (AttributeError "x_range")
   /\ x_max a' = inl (AttributeError "x_range")) /\
  (forall os1 os2 lo hi, os = os1 ++ SetXRange lo hi :: os2 ->
     (forall lo' hi', SetXRange lo' hi' ∉ os2) ->
     x_min a' = inr lo /\ x_max a' = inr hi).
Proof.
  intros Hrun.
  destruct (run_agent_ops_attributes os _ _ Hrun) as (Hx & _).
  simpl in Hx. fold (last_x_range os) in Hx.
  unfold x_min, x_max. rewrite Hx. split_and!.
  - by destruct (last_x_range os).
  - by destruct (last_x_range os).
  - intros Hno. by rewrite last_x_range_None.
  - intros os1 os2 lo hi -> Hno.
    assert (E : last_x_range (os1 ++ SetXRange lo hi :: os2) = Some (lo, hi)).
    { unfold last_x_range. rewrite foldl_app. simpl.
      clear Hrun Hx. induction os2 as [|o os2 IH] using rev_ind; [done|].
      rewrite foldl_app. simpl.
      destruct o as [eo|lo1 hi1|lo1 hi1|lo1 hi1|lo1 hi1|c|];
        try (apply IH; intros lo' hi' Hin; apply (Hno lo' hi');
             apply elem_of_app; by left).
      exfalso. apply (Hno lo1 hi1). apply elem_of_app. right. by left. }
    by rewrite E.
Qed.

(** The statement on a run that sets the initial range and adds a class but
    never the range itself, and on one that sets the range twice. *)
Lemma x_range_unset_until_assigned_witness :
  (exists a', run_agent_ops [SetInitialXRange 0 20; Engine (OpAddClass 0 0)]
                (ChartAgent_init "sseq") = Some a'
              /\ x_min a' = inl (AttributeError "x_range"))
  /\ (exists a', run_agent_ops [SetXRange 0 20; SetYRange 1 2; SetXRange 3 30;
                                ConsumeNewUser]
                   (ChartAgent_init "sseq") = Some a'
                 /\ x_min a' = inr 3%Z /\ x_max a' = inr 30%Z).
Proof.
  split.
  - destruct (run_agent_ops [SetInitialXRange 0 20; Engine (OpAddClass 0 0)]
                (ChartAgent_init "sseq")) as [a'|] eqn:E;
      [|vm_compute in E; discriminate E].
    destruct (x_range_unset_until_assigned _ _ _ E) as (H1 & _).
    exists a'. split; [reflexivity|exact H1].
  - destruct (run_agent_ops [SetXRange 0 20; SetYRange 1 2; SetXRange 3 30;
                             ConsumeNewUser]
                (ChartAgent_init "sseq")) as [a'|] eqn:E;
      [|vm_compute in E; discriminate E].
    destruct (x_range_unset_until_assigned _ _ _ E) as (H1 & H2 & _).
    exists a'. split; [reflexivity|]. split; [exact H1|exact H2].
Defined.

(** X8: [set_background_color_a] stores the colour on the chart data and
    never on the display state: after any run of calls on a new chart the
    data holds the colour of the last call, while the display state, and
    the display state of every [initialize.chart.state] message sent to a
    new user, still has the default [#FFFFFF]. *)
Theorem background_color_not_in_display_state (nm : string) (os : list AgentOp)
    (a' : ChartAgent) :
  run_agent_ops os (ChartAgent_init nm) = Some a' ->
  background_color (agent_attributes a') = last_background_color os /\
  display_background_color (agent_display_state a') = "#FFFFFF" /\
  (forall ds, ds ∈ initial_display_states (agent_outbox a') ->
     display_background_color ds = "#FFFFFF").
Proof.
  intros Hrun.
  destruct (run_agent_ops_attributes os _ _ Hrun) as (_ & Hb & Hd & Hm).
  split_and!.
  - exact Hb.
  - by rewrite Hd.
  - intros ds Hds. destruct (Hm ds Hds) as [Hin| ->]; [|done].
    by apply elem_of_nil in Hin.
Qed.

(** The statement on a run in which a user joins after the colour was
    set. *)
Lemma background_color_not_in_display_state_witness :
  exists a',
    run_agent_ops [SetBackgroundColorOp "#000000"; ConsumeNewUser]
      (ChartAgent_init "sseq") = Some a'
    /\ background_color (agent_attributes a') = Some "#000000"
    /\ initial_display_states (agent_outbox a') = [mkDisplayState "#FFFFFF"].
Proof.
  destruct (run_agent_ops [SetBackgroundColorOp "#000000"; ConsumeNewUser]
              (ChartAgent_init "sseq")) as [a'|] eqn:E;
    [|vm_compute in E; discriminate E].
  destruct (background_color_not_in_display_state _ _ _ E) as (H1 & _).
  exists a'. split; [reflexivity|]. split; [exact H1|].
  vm_compute in E. injection E as <-. vm_compute. reflexivity.
Defined.

(** X9: [set_class_name_a(x, y, idx, name)] raises [IndexError] exactly
    when [idx] is outside [-n, n) for the [n] classes at that bidegree (so
    always on an empty bidegree).  Otherwise it names the class Python's
    indexing selects, queues that class and sends nothing; the next flush
    announces it in its [chart.class.update] batch and empties the dirty
    set. *)
Theorem set_class_name_queues_class (x y idx : Z) (new_name : string)
    (a : ChartAgent) :
  let l := get_classes_in_bidegree x y (mkChart (agent_data a) []) in
  let n := Z.of_nat (length l) in
  (set_class_name_a x y idx new_name a = inl IndexError
   <-> ~ (- n <= idx < n)%Z) /\
  (forall a', set_class_name_a x y idx new_name a = inr a' ->
     exists c,
       l !! Z.to_nat (if decide (0 <= idx)%Z then idx else n + idx)%Z = Some c /\
       class_name (agent_attributes a') !! c = Some new_name /\
       (forall c', c' <> c ->
          class_name (agent_attributes a') !! c'
          = class_name (agent_attributes a) !! c') /\
       _updated_elements (agent_data a')
         = {[ ClassElement c ]} ∪ _updated_elements (agent_data a) /\
       agent_outbox a' = agent_outbox a /\
       exists a'' batch,
         lift_engine (fun s => Some (update_a s)) a' = Some a'' /\
         agent_outbox a''
           = agent_outbox a
             ++ [EngineMessage (mkMessage "chart.class.update" (ClassUpdate batch))] /\
         ClassElement c ∈ batch /\
         _updated_elements (agent_data a'') = ∅).
Proof.
  intros l n. unfold set_class_name_a. fold l.
  destruct (py_index l idx) as [c|] eqn:E.
  - split.
    + split; [done|]. intros Hn. apply py_index_Some in E as [E _].
      exfalso. by apply Hn.
    + intros a' [= <-]. exists c. apply py_index_Some in E as [_ E].
      split; [done|]. simpl. split_and!; try done.
      * apply lookup_insert_eq.
      * intros c' Hc'. by apply lookup_insert_ne.
      * eexists _, _. split; [done|]. simpl. split_and!; try done.
        apply elem_of_elements. apply elem_of_union. left.
        by apply elem_of_singleton.
  - split; [|done]. split; [|done]. intros _. by apply py_index_None.
Qed.

(** The statement on a chart with one class at (0, 0): index -1 names it,
    index 1 is out of range. *)
Lemma set_class_name_queues_class_witness :
  exists a a',
    run_agent_ops [Engine (OpAddClass 0 0)] (ChartAgent_init "sseq") = Some a
    /\ set_class_name_a 0 0 (-1) "x" a = inr a'
    /\ class_name (agent_attributes a') !! 0 = Some "x"
    /\ set_class_name_a 0 0 1 "x" a = inl IndexError.
Proof.
  eexists _, _. split; [vm_compute; reflexivity|].
  split; [vm_compute; reflexivity|].
  match goal with
  | |- class_name (agent_attributes ?a') !! 0 = _ /\ set_class_name_a _ _ _ _ ?a = _ =>
      destruct (set_class_name_queues_class 0 0 (-1) "x" a) as [_ Hok];
      destruct (set_class_name_queues_class 0 0 1 "x" a) as [[_ Herr] _];
      destruct (Hok a') as (c & Hc & Hname & _); [vm_compute; reflexivity|]
  end.
  split.
  - vm_compute in Hc. injection Hc as <-. exact Hname.
  - apply Herr. vm_compute. intros [_ H]. discriminate H.
Defined.

(** ** Sequences of clicks *)

(** X10: in [AddDifferentialMode] with no pending source, a click on the
    class [s] records it; a following click on a class [t1] with
    [s.x != t1.x + 1] is absorbed, changing the console only; and a further
    click on a class [t2] with [s.x == t2.x + 1] then adds the blue
    differential from [s] to [t2] on page [t2.y - s.y], as the only new
    edge, and clears the pending source. *)
Theorem differential_click_retry (x y : Q) (a : InteractiveChartAgent)
    (s_ref t1 t2 : nat) (s c1 c2 : ChartClass) :
  _differential_source a = None ->
  classes (data (chart a)) !! s_ref = Some s ->
  classes (data (chart a)) !! t1 = Some c1 ->
  classes (data (chart a)) !! t2 = Some c2 ->
  has_id s_ref (chart a) -> has_id t2 (chart a) ->
  class_x s <> (class_x c1 + 1)%Z ->
  class_x s = (class_x c2 + 1)%Z ->
  exists a1 a2 a3,
    AddDifferentialMode_handle_click_a x y (Some s_ref) a = Some (Done a1) /\
    _differential_source a1 = Some s_ref /\
    data (chart a1) = data (chart a) /\
    AddDifferentialMode_handle_click_a x y (Some t1) a1 = Some (Done a2) /\
    a2 = print "invalid" a1 /\
    AddDifferentialMode_handle_click_a x y (Some t2) a2 = Some (Done a3) /\
    edges (data (chart a3)) =
      edges (data (chart a)) ++
        [mkChartEdge (Some (length (edges (data (chart a))))) ChartDifferential
           s_ref t2 (Some (class_y c2 - class_y s)%Z) (Some "blue")] /\
    _differential_source a3 = None /\
    console a3 = console a ++ ["set_source"; "invalid"; "success"].
Proof.
  intros Hsrc Hs H1 H2 Ha Hb Hbad Hgood.
  set (a1 := send_message_outward_a "interact.mode.set_info" (SetInfoSource s_ref)
               (set_differential_source (Some s_ref) (print "set_source" a))).
  assert (E1 : AddDifferentialMode_handle_click_a x y (Some s_ref) a = Some (Done a1)).
  { unfold AddDifferentialMode_handle_click_a. by rewrite Hsrc. }
  assert (E2 : AddDifferentialMode_handle_click_a x y (Some t1) a1
               = Some (Done (print "invalid" a1)))
    by (by eapply (differential_click_invalid x y a1 s_ref t1 s c1)).
  destruct (differential_click_valid x y (print "invalid" a1) s_ref t2 s c2)
    as (a3 & E3 & Hedges & Hnone & Hcons); try done.
  exists a1, (print "invalid" a1), a3. split_and!; try done.
  rewrite Hcons. simpl. by rewrite <- !(assoc_L (++)).
Qed.

(** The statement on a chart with classes at (1, 0), (5, 5) and (0, 3). *)
Lemma differential_click_retry_witness :
  let a := set_chart
             (add_class_a 0 3
                (add_class_a 5 5
                   (add_class_a 1 0 (SpectralSequenceChart_init "sseq")).2).2).2
             (InteractiveChartAgent_init "sseq") in
  exists a1 a2 a3,
    AddDifferentialMode_handle_click_a 0 0 (Some 0) a = Some (Done a1) /\
    AddDifferentialMode_handle_click_a 0 0 (Some 1) a1 = Some (Done a2) /\
    AddDifferentialMode_handle_click_a 0 0 (Some 2) a2 = Some (Done a3) /\
    edges (data (chart a3))
      = [mkChartEdge (Some 0) ChartDifferential 0 2 (Some 3%Z) (Some "blue")].
Proof.
  intros a.
  destruct (differential_click_retry 0 0 a 0 1 2
              (mkChartClass 1 0 (Some 0) [0] [] [])
              (mkChartClass 5 5 (Some 1) [0] [] [])
              (mkChartClass 0 3 (Some 2) [0] [] []))
    as (a1 & a2 & a3 & E1 & _ & _ & E2 & _ & E3 & He & _);
    [vm_compute; reflexivity | vm_compute; reflexivity | vm_compute; reflexivity
    | vm_compute; reflexivity | vm_compute; eexists; reflexivity
    | vm_compute; eexists; reflexivity | vm_compute; discriminate
    | vm_compute; reflexivity |].
  exists a1, a2, a3. split; [exact E1|]. split; [exact E2|].
  split; [exact E3|exact He].
Defined.

(** X11: [handle__cancel__a] of [AddDifferentialMode] and of
    [AddExtensionMode] clears that mode's pending source and nothing else
    of the session: the chart data and the other pending sources stay, and
    one [interact.mode.set_info] with an empty text is sent.  The next click
    on a class is then a first click again: it records the class and adds no
    edge. *)
Theorem cancel_resets_pending_source (x y : Q) (a : InteractiveChartAgent) (c : nat) :
  let d := AddDifferentialMode_handle__cancel__a a in
  let e := AddExtensionMode_handle__cancel__a a in
  (_differential_source d = None /\
   data (chart d) = data (chart a) /\
   _extension_source d = _extension_source a /\
   _interact_source d = _interact_source a /\
   emitted (chart a) (chart d) = [mkMessage "interact.mode.set_info" (SetInfo "")] /\
   exists d', AddDifferentialMode_handle_click_a x y (Some c) d = Some (Done d')
              /\ _differential_source d' = Some c
              /\ data (chart d') = data (chart a)) /\
  (_extension_source e = None /\
   data (chart e) = data (chart a) /\
   _differential_source e = _differential_source a /\
   _interact_source e = _interact_source a /\
   emitted (chart a) (chart e) = [mkMessage "interact.mode.set_info" (SetInfo "")] /\
   exists e', AddExtensionMode_handle_click_a x y (Some c) e = Some (Done e')
              /\ _extension_source e' = Some c
              /\ data (chart e') = data (chart a)).
Proof.
  intros d e. split; split_and!; try done.
  - unfold emitted. simpl. by rewrite drop_app_length.
  - by eexists.
  - unfold emitted. simpl. by rewrite drop_app_length.
  - by eexists.
Qed.

(** X12: in [AddExtensionMode], the colour answered to the prompt of an
    accepted click is stored on the new extension edge and becomes the
    default offered by the prompt of the next accepted click. *)
Theorem extension_color_becomes_default (x y : Q) (a : InteractiveChartAgent)
    (s_ref t_ref : nat) (s t : ChartClass) (color : option string) :
  _extension_source a = Some s_ref ->
  classes (data (chart a)) !! s_ref = Some s ->
  classes (data (chart a)) !! t_ref = Some t ->
  has_id s_ref (chart a) -> has_id t_ref (chart a) ->
  (class_x t - class_x s)%Z ∈ [0; 1; 3]%Z ->
  (2 <= class_y t - class_y s)%Z ->
  exists w k a1 a2 w2 k2,
    AddExtensionMode_handle_click_a x y (Some t_ref) a = Some (AwaitResult w k) /\
    emitted (chart a) (chart w)
      = [mkMessage "interact.prompt" (Prompt "Color?" (_extension_prev_color_default a))] /\
    k color w = Some a1 /\
    edges (data (chart a1)) =
      edges (data (chart a)) ++
        [mkChartEdge (Some (length (edges (data (chart a))))) ChartExtension
           s_ref t_ref None color] /\
    _extension_prev_color_default a1 = color /\
    AddExtensionMode_handle_click_a x y (Some s_ref) a1 = Some (Done a2) /\
    AddExtensionMode_handle_click_a x y (Some t_ref) a2 = Some (AwaitResult w2 k2) /\
    emitted (chart a2) (chart w2)
      = [mkMessage "interact.prompt" (Prompt "Color?" color)].
Proof.
  intros Hsrc Hs Ht Ha Hb Hdx Hdy.
  pose proof (extension_click_unfold x y a s_ref t_ref s t Hsrc Hs Ht) as E1.
  rewrite decide_False in E1 by (intros Hn; by apply Hn).
  rewrite decide_False in E1 by lia.
  set (w := prompt_a "Color?" (_extension_prev_color_default a) (print "success" a)) in *.
  destruct (extension_after_prompt s_ref t_ref color w Ha Hb)
    as (a1 & Hk & Hedges & Hnone & Hext).
  assert (Hdef : _extension_prev_color_default a1 = color).
  { unfold AddExtensionMode_after_prompt in Hk.
    destruct (add_extension_a _ _ _) as [[e ch]|]; simpl in Hk; [|done].
    by injection Hk as <-. }
  assert (Hcl : forall i c0, classes (data (chart a)) !! i = Some c0 ->
              exists c', classes (data (chart a1)) !! i = Some c'
                         /\ class_x c' = class_x c0 /\ class_y c' = class_y c0).
  { intros i c0 Hc0. unfold AddExtensionMode_after_prompt in Hk.
    destruct (edge_call_sends ChartExtension s_ref t_ref None (chart w) Ha Hb)
      as ([e ch] & Hr & He & Hdata & _).
    unfold add_extension_a in Hk. simpl in Hk, Hr. rewrite Hr in Hk. simpl in Hk.
    injection Hk as <-. simpl. simpl in Hdata. rewrite Hdata. simpl.
    eexists. split; [by apply edge_added_class_fwd|]. by repeat case_decide. }
  destruct (Hcl _ _ Hs) as (s' & Hs' & Hsx & Hsy).
  destruct (Hcl _ _ Ht) as (t' & Ht' & Htx & Hty).
  set (a2 := send_message_outward_a "interact.mode.set_info" (SetInfoSource s_ref)
               (set_extension_source (Some s_ref) (print "set_source" a1))).
  assert (E2 : AddExtensionMode_handle_click_a x y (Some s_ref) a1 = Some (Done a2)).
  { unfold AddExtensionMode_handle_click_a. by rewrite Hnone. }
  pose proof (extension_click_unfold x y a2 s_ref t_ref s' t' eq_refl Hs' Ht') as E3.
  rewrite Htx, Hsx, Hty, Hsy in E3.
  rewrite decide_False in E3 by (intros Hn; by apply Hn).
  rewrite decide_False in E3 by lia.
  eexists w, _, a1, a2, _, _. split_and!; try done.
  - unfold emitted. simpl. by rewrite drop_app_length.
  - unfold emitted. simpl. rewrite drop_app_length. by rewrite Hdef.
Qed.

(** The statement on a chart with classes at (0, 0) and (1, 2), the first
    pending, and the answer "red". *)
Lemma extension_color_becomes_default_witness :
  let a := set_extension_source (Some 0)
             (set_chart
                (add_class_a 1 2
                   (add_class_a 0 0 (SpectralSequenceChart_init "sseq")).2).2
                (InteractiveChartAgent_init "sseq")) in
  exists w k a1,
    AddExtensionMode_handle_click_a 0 0 (Some 1) a = Some (AwaitResult w k) /\
    k (Some "red") w = Some a1 /\
    _extension_prev_color_default a1 = Some "red".
Proof.
  intros a.
  destruct (extension_color_becomes_default 0 0 a 0 1
              (mkChartClass 0 0 (Some 0) [0] [] [])
              (mkChartClass 1 2 (Some 1) [0] [] []) (Some "red"))
    as (w & k & a1 & a2 & w2 & k2 & E1 & _ & Hk & _ & Hd & _);
    [vm_compute; reflexivity | vm_compute; reflexivity | vm_compute; reflexivity
    | vm_compute; eexists; reflexivity | vm_compute; eexists; reflexivity
    | vm_compute; set_solver | vm_compute; discriminate |].
  exists w, k, a1. split; [exact E1|]. split; [exact Hk|exact Hd].
Defined.

(** ** Which mode messages reach which handler *)

Section HandlerNames.

Lemma string_length_append (s t : string) :
  String.length (s ++ t)%string = String.length s + String.length t.
Proof.
  induction s as [|c s IH]; [done|].
  change (String c s ++ t)%string with (String c (s ++ t)%string).
  simpl. by rewrite IH.
Qed.

Lemma append_suffix_inj (s1 s2 t : string) :
  (s1 ++ t)%string = (s2 ++ t)%string -> s1 = s2.
Proof.
  revert s2. induction s1 as [|c s1 IH]; intros [|c2 s2] H.
  - done.
  - apply (f_equal String.length) in H.
    rewrite !string_length_append in H. simpl in H. lia.
  - apply (f_equal String.length) in H.
    rewrite !string_length_append in H. simpl in H. lia.
  - change (String c (s1 ++ t)%string = String c2 (s2 ++ t)%string) in H.
    injection H as -> H. f_equal. by apply IH.
Qed.

Lemma handler_name_eq (parts : list string) (k : string) :
  handler_name parts = ("handle__" ++ k ++ "__a")%string
  <-> String.concat "__" (drop 2 parts) = k.
Proof.
  unfold handler_name. split; [|by intros ->].
  intros H. apply String.app_inj in H. by apply append_suffix_inj in H.
Qed.

Lemma handler_name_not_click (parts : list string) :
  handler_name parts <> "handle_click_a" /\ handler_name parts <> "__init__".
Proof.
  unfold handler_name. split; intros H.
  - apply (f_equal (String.get 7)) in H. cbv in H. discriminate H.
  - apply (f_equal (String.get 0)) in H. cbv in H. discriminate H.
Qed.

End HandlerNames.

(** X13: an [interact.mode.<sub>] message finds a handler exactly in these
    cases: [cancel] in every mode; [extension.adjust_bend] in
    [AddExtensionMode] only; [nudge_class] in [NudgeClassMode] only (the
    segments of [sub] joined by a double underscore are what is compared).
    No such message can reach [handle_click_a] or [__init__]. *)
Theorem mode_subcommands (m : Mode) (parts : list string) :
  let sub := String.concat "__" (drop 2 parts) in
  (is_Some (getattr m (handler_name parts)) <->
   sub = "cancel"
   \/ (m = AddExtensionMode /\ sub = "extension__adjust_bend")
   \/ (m = NudgeClassMode /\ sub = "nudge_class")) /\
  (forall f, getattr m (handler_name parts) = Some f ->
     method_name f <> "handle_click_a" /\ method_name f <> "__init__") /\
  is_Some (getattr m "handle__cancel__a").
Proof.
  intros sub.
  pose proof (handler_name_eq parts "cancel") as Hcancel.
  pose proof (handler_name_eq parts "extension__adjust_bend") as Hbend.
  pose proof (handler_name_eq parts "nudge_class") as Hnudge.
  destruct (handler_name_not_click parts) as [Hclick Hinit].
  fold sub in Hcancel, Hbend, Hnudge.
  change ("handle__" ++ "cancel" ++ "__a")%string
    with "handle__cancel__a" in Hcancel.
  change ("handle__" ++ "extension__adjust_bend" ++ "__a")%string
    with "handle__extension__adjust_bend__a" in Hbend.
  change ("handle__" ++ "nudge_class" ++ "__a")%string
    with "handle__nudge_class__a" in Hnudge.
  split_and!.
  - rewrite getattr_Some. clearbody sub.
    generalize dependent (handler_name parts). intros h Hcancel Hbend Hnudge Hclick Hinit.
    destruct m; unfold own_methods, Mode_methods;
      rewrite !elem_of_cons, !elem_of_nil; intuition congruence.
  - intros f Hf. apply getattr_name in Hf. by rewrite Hf.
  - destruct m; vm_compute; by eexists.
Qed.

(** The statement for [interact.mode.extension.adjust_bend], which only
    [AddExtensionMode] accepts. *)
Lemma mode_subcommands_witness :
  is_Some (getattr AddExtensionMode
             (handler_name ["interact"; "mode"; "extension"; "adjust_bend"]))
  /\ ~ is_Some (getattr NoMode
                  (handler_name ["interact"; "mode"; "extension"; "adjust_bend"])).
Proof.
  split.
  - apply (mode_subcommands AddExtensionMode
             ["interact"; "mode"; "extension"; "adjust_bend"]).
    right. left. split; reflexivity.
  - intros H.
    apply (mode_subcommands NoMode
             ["interact"; "mode"; "extension"; "adjust_bend"]) in H.
    destruct H as [H|[[H _]|[H _]]]; discriminate H.
Defined.

(** X14: [handle__interact__mode__set__a] marks the envelope used whatever
    happens, raises [KeyError] when the message has no [mode] entry, and
    changes at most the agent's [mode]: the chart, the pending sources, the
    prompt default, the console and the scheduled coroutines are as before,
    so a pending source survives a change of mode. *)
Theorem mode_set_changes_only_mode (envelope : Envelope)
    (kwargs : gmap string Value) (a : InteractiveChartAgent) :
  let r := handle__interact__mode__set__a envelope kwargs a in
  used r.1.2 = true /\ part_list r.1.2 = part_list envelope /\
  (kwargs !! "mode" = None <-> r.1.1 = Raised (KeyError "mode")) /\
  (r.1.1 <> Returned -> r.2 = a) /\
  r.2 = set_mode (mode r.2) a /\
  chart r.2 = chart a /\
  _interact_source r.2 = _interact_source a /\
  _differential_source r.2 = _differential_source a /\
  _extension_source r.2 = _extension_source a /\
  _extension_prev_color_default r.2 = _extension_prev_color_default a /\
  console r.2 = console a /\ scheduled r.2 = scheduled a.
Proof.
  intros r. subst r. unfold handle__interact__mode__set__a.
  destruct (kwargs !! "mode") as [v|]; [|by destruct a].
  destruct (match v with VStr n => modes !! n | _ => None end);
    simpl; split_and!; try done; by destruct a.
Qed.

(** The statement for a message without a [mode] entry on an agent with a
    pending differential source. *)
Lemma mode_set_changes_only_mode_witness :
  let a := set_differential_source (Some 0) (InteractiveChartAgent_init "sseq") in
  let r := handle__interact__mode__set__a
             (mkEnvelope ["interact"; "mode"; "set"] false) ∅ a in
  r.1.1 = Raised (KeyError "mode") /\ r.2 = a /\ used r.1.2 = true.
Proof.
  intros a r.
  destruct (mode_set_changes_only_mode
              (mkEnvelope ["interact"; "mode"; "set"] false) ∅ a)
    as (Hused & _ & [Hkey _] & Hsame & _).
  assert (E : r.1.1 = Raised (KeyError "mode")) by (apply Hkey; reflexivity).
  split; [exact E|]. split; [|exact Hused].
  apply Hsame. fold r. rewrite E. discriminate.
Defined.

(** ** Bend adjustments *)

Section Bends.

Lemma adjust_bends_spec (deltas : list Z) (a : InteractiveChartAgent)
    (bends : gmap nat Z) (e : nat) :
  _extension a = Some e ->
  exists a',
    adjust_bends deltas (a, bends)
      = inr (a', if decide (deltas = []) then bends
                 else <[e := (default 0 (bends !! e) + foldr Z.add 0 deltas)%Z]> bends)
    /\ _extension a' = Some e
    /\ data (chart a') = (if decide (deltas = []) then data (chart a)
                          else set_updated_elements ∅ (data (chart a)))
    /\ length (outbox (chart a')) = length (outbox (chart a)) + length deltas.
Proof.
  revert a bends. induction deltas as [|delta deltas IH]; intros a bends He.
  - exists a. simpl. split_and!; try done; lia.
  - simpl. rewrite He.
    destruct (IH (set_chart (update_a (chart a)) a)
                (<[e := (default 0 (bends !! e) + delta)%Z]> bends) He)
      as (a' & Hrun & He' & Hd & Hlen).
    exists a'. rewrite Hrun. split_and!.
    + f_equal. apply (f_equal (pair a')).
      destruct (decide (deltas = [])) as [->|Hne]; simpl.
      * f_equal. lia.
      * rewrite lookup_insert_eq. simpl. rewrite insert_insert_eq.
        f_equal. lia.
    + done.
    + rewrite Hd. by destruct (decide (deltas = [])).
    + rewrite Hlen. simpl. rewrite length_app. simpl. lia.
Qed.

End Bends.

(** X15: [handle__extension__adjust_bend__a] raises [AttributeError] as
    long as no extension has been accepted ([_extension] does not exist
    yet).  Once one has, integer adjustments accumulate on that edge: after
    the deltas of a non-empty list its bend is the former bend (0 if it had
    none) plus their sum, every call sends one message, other edges' bends
    are untouched and the dirty set ends empty. *)
Theorem bend_adjustments_accumulate (deltas : list Z) (a : InteractiveChartAgent)
    (bends : gmap nat Z) :
  (_extension a = None -> forall delta,
     handle__extension__adjust_bend__a delta (a, bends)
     = inl (AttributeError "_extension")) /\
  (forall e, _extension a = Some e -> deltas <> [] ->
     exists a' bends',
       adjust_bends deltas (a, bends) = inr (a', bends') /\
       bends' !! e = Some (default 0 (bends !! e) + foldr Z.add 0 deltas)%Z /\
       (forall e', e' <> e -> bends' !! e' = bends !! e') /\
       length (outbox (chart a')) = length (outbox (chart a)) + length deltas /\
       _updated_elements (data (chart a')) = ∅ /\
       edges (data (chart a')) = edges (data (chart a))).
Proof.
  split.
  - intros Hnone delta. simpl. by rewrite Hnone.
  - intros e He Hne.
    destruct (adjust_bends_spec deltas a bends e He) as (a' & Hrun & _ & Hd & Hlen).
    rewrite decide_False in Hrun by done. rewrite decide_False in Hd by done.
    eexists _, _. split; [exact Hrun|]. split_and!.
    + apply lookup_insert_eq.
    + intros e' Hne'. by apply lookup_insert_ne.
    + done.
    + by rewrite Hd.
    + by rewrite Hd.
Qed.

(** The statement on a new agent, where no extension exists, and on one
    whose last extension is edge 0, for the deltas 1, -3, 5. *)
Lemma bend_adjustments_accumulate_witness :
  handle__extension__adjust_bend__a 1 (InteractiveChartAgent_init "sseq", ∅)
    = inl (AttributeError "_extension")
  /\ exists a' bends',
       adjust_bends [1; -3; 5]%Z
         (set_extension (Some 0) (InteractiveChartAgent_init "sseq"), ∅)
       = inr (a', bends')
       /\ bends' !! 0 = Some 3%Z.
Proof.
  split.
  - apply (bend_adjustments_accumulate [] (InteractiveChartAgent_init "sseq") ∅).
    reflexivity.
  - destruct (bend_adjustments_accumulate [1; -3; 5]%Z
                (set_extension (Some 0) (InteractiveChartAgent_init "sseq")) ∅)
      as [_ H].
    destruct (H 0) as (a' & bends' & Hrun & Hb & _); [reflexivity|discriminate|].
    exists a', bends'. split; [exact Hrun|exact Hb].
Defined.

(** ** Renaming attributes *)

Section Attributes.

Implicit Types (d : gmap string Value) (pairs : list (string * string)).

Lemma lookup_rename_attribute key replacement d i :
  rename_attribute key replacement d !! i =
    match d !! key with
    | Some v => if decide (i = key) then None
                else if decide (i = replacement) then Some v else d !! i
    | None => d !! i
    end.
Proof.
  unfold rename_attribute. destruct (d !! key) as [v|] eqn:E; [|done].
  destruct (decide (i = key)) as [->|Hk]; [by rewrite lookup_delete_eq|].
  rewrite lookup_delete_ne by done.
  destruct (decide (i = replacement)) as [->|Hr]; [by rewrite lookup_insert_eq|].
  by rewrite lookup_insert_ne.
Qed.

Lemma rename_attribute_back key replacement d :
  key <> replacement -> d !! replacement = None ->
  rename_attribute replacement key (rename_attribute key replacement d) = d.
Proof.
  intros Hne Hr. apply map_eq. intros i.
  rewrite !lookup_rename_attribute.
  destruct (d !! key) as [v|] eqn:E.
  - rewrite decide_False by done. rewrite decide_True by done.
    repeat case_decide; simplify_eq; done.
  - by rewrite Hr.
Qed.

Lemma rename_attribute_comm a b c e d :
  a <> c -> a <> e -> b <> c -> b <> e ->
  rename_attribute a b (rename_attribute c e d)
  = rename_attribute c e (rename_attribute a b d).
Proof.
  intros Hac Hae Hbc Hbe. apply map_eq. intros i.
  rewrite !lookup_rename_attribute.
  destruct (d !! a) as [va|] eqn:Ea; destruct (d !! c) as [vc|] eqn:Ec;
    rewrite ?Ea, ?Ec; repeat case_decide; simplify_eq; try done.
Qed.

Lemma rename_attributes_comm a b d pairs :
  (forall k r, (k, r) ∈ pairs -> a <> k /\ a <> r /\ b <> k /\ b <> r) ->
  rename_attribute a b (rename_attributes d pairs)
  = rename_attributes (rename_attribute a b d) pairs.
Proof.
  revert d. induction pairs as [|[k r] pairs IH]; intros d H; [done|].
  unfold rename_attributes in *. simpl. rewrite IH.
  - f_equal. destruct (H k r) as (? & ? & ? & ?); [by left|].
    by apply rename_attribute_comm.
  - intros k' r' Hin. apply H. by right.
Qed.

Lemma rename_attributes_round_trip d pairs :
  NoDup (pairs.*1 ++ pairs.*2) ->
  (forall r, r ∈ pairs.*2 -> d !! r = None) ->
  rename_attributes_back (rename_attributes d pairs) pairs = d.
Proof.
  revert d. induction pairs as [|[k r] pairs IH]; intros d Hnd Habs; [done|].
  simpl in Hnd. apply NoDup_cons in Hnd as [Hk Hnd].
  assert (Hnd' : NoDup (pairs.*1 ++ pairs.*2)).
  { apply NoDup_app in Hnd as (H1 & H2 & H3). apply NoDup_cons in H3 as [_ H3].
    apply NoDup_app. split_and!; [done| |done].
    intros x Hx Hx2. apply (H2 x Hx). by right. }
  assert (Hkr : k <> r).
  { intros ->. apply Hk. apply elem_of_app. right. by left. }
  assert (Hfresh : forall k' r', (k', r') ∈ pairs ->
              r <> k' /\ r <> r' /\ k <> k' /\ k <> r').
  { intros k' r' Hin.
    assert (Hk' : k' ∈ pairs.*1) by (apply list_elem_of_fmap; by exists (k', r')).
    assert (Hr' : r' ∈ pairs.*2) by (apply list_elem_of_fmap; by exists (k', r')).
    apply NoDup_app in Hnd as (H1 & H2 & H3). apply NoDup_cons in H3 as [H3 _].
    split_and!.
    - intros ->. apply (H2 k' Hk'). by left.
    - intros ->. by apply H3.
    - intros ->. apply Hk. apply elem_of_app. by left.
    - intros ->. apply Hk. apply elem_of_app. right. by right. }
  unfold rename_attributes_back, rename_attributes in *. simpl.
  fold (rename_attributes (rename_attribute k r d) pairs).
  rewrite (rename_attributes_comm r k) by done.
  rewrite rename_attribute_back; [|done|apply Habs; by left].
  apply IH; [done|]. intros r' Hr'. apply Habs. by right.
Qed.

Lemma NoDup_pairs_cons (k r : string) pairs :
  NoDup (k :: pairs.*1 ++ r :: pairs.*2) ->
  NoDup (pairs.*1 ++ pairs.*2) /\ k <> r
  /\ (k ∉ pairs.*1) /\ (k ∉ pairs.*2) /\ (r ∉ pairs.*1) /\ (r ∉ pairs.*2).
Proof.
  intros [Hk Hnd]%NoDup_cons.
  apply NoDup_app in Hnd as (H1 & H2 & [H3 H4]%NoDup_cons).
  rewrite elem_of_app, elem_of_cons in Hk.
  split_and!; try tauto.
  - apply NoDup_app. split_and!; [done| |done].
    intros x Hx Hx2. apply (H2 x Hx). by right.
  - intros Hr. apply (H2 r Hr). by left.
Qed.

Lemma rename_attributes_other d pairs i :
  i ∉ pairs.*1 -> i ∉ pairs.*2 -> rename_attributes d pairs !! i = d !! i.
Proof.
  revert d. induction pairs as [|[k r] pairs IH]; intros d H1 H2; [done|].
  simpl in H1, H2. rewrite not_elem_of_cons in H1. rewrite not_elem_of_cons in H2.
  unfold rename_attributes in *. simpl. rewrite IH by tauto.
  rewrite lookup_rename_attribute.
  destruct (d !! k); [|done]. rewrite !decide_False by tauto. done.
Qed.

Lemma rename_attributes_lookup d pairs k r :
  NoDup (pairs.*1 ++ pairs.*2) ->
  (forall r', r' ∈ pairs.*2 -> d !! r' = None) ->
  (k, r) ∈ pairs ->
  rename_attributes d pairs !! k = None
  /\ rename_attributes d pairs !! r = d !! k.
Proof.
  revert d. induction pairs as [|[k0 r0] pairs IH]; intros d Hnd Habs Hin.
  - by apply elem_of_nil in Hin.
  - simpl in Hnd. apply NoDup_pairs_cons in Hnd as (Hnd & Hkr & Hk1 & Hk2 & Hr1 & Hr2).
    change (rename_attributes d ((k0, r0) :: pairs))
      with (rename_attributes (rename_attribute k0 r0 d) pairs).
    apply elem_of_cons in Hin as [[= -> ->]|Hin].
    + rewrite !rename_attributes_other by done.
      rewrite !lookup_rename_attribute.
      destruct (d !! k0) as [v|] eqn:E.
      * rewrite decide_True by done. rewrite decide_False by done.
        by rewrite decide_True.
      * split; [done|]. apply Habs. by left.
    + assert (Hk' : k ∈ pairs.*1) by (apply list_elem_of_fmap; by exists (k, r)).
      assert (Hr' : r ∈ pairs.*2) by (apply list_elem_of_fmap; by exists (k, r)).
      destruct (IH (rename_attribute k0 r0 d)) as [E1 E2]; [done| |done|].
      { intros r' Hin'. rewrite lookup_rename_attribute.
        destruct (d !! k0); [|apply Habs; by right].
        rewrite decide_False by (by intros ->).
        rewrite decide_False by (by intros ->).
        apply Habs. by right. }
      rewrite E1, E2. split; [done|].
      rewrite lookup_rename_attribute. destruct (d !! k0); [|done].
      rewrite decide_False by (by intros ->).
      rewrite decide_False by (by intros ->). done.
Qed.

Lemma object_getattr_instance key (o : PyObject) :
  class_attrs o !! key = None -> object_getattr key o = instance_attrs o !! key.
Proof. unfold object_getattr. intros ->. by destruct (instance_attrs o !! key). Qed.

Lemma move_attribute_instance key replacement (o : PyObject) :
  class_attrs o !! key = None ->
  move_attribute key replacement o
  = (None, mkPyObject (rename_attribute key replacement (instance_attrs o))
             (class_attrs o)).
Proof.
  intros Hc. unfold move_attribute, object_getattr, rename_attribute.
  destruct (instance_attrs o !! key) as [v|] eqn:E.
  - unfold object_delattr, object_setattr. simpl.
    destruct (decide (key = replacement)) as [->|Hne].
    + by rewrite lookup_insert_eq.
    + rewrite lookup_insert_ne by done. by rewrite E.
  - rewrite Hc. by destruct o.
Qed.

Lemma replace_keys_instance (o : PyObject) pairs :
  (forall k, k ∈ pairs.*1 -> class_attrs o !! k = None) ->
  replace_keys o pairs
  = (None, mkPyObject (rename_attributes (instance_attrs o) pairs) (class_attrs o)).
Proof.
  revert o. induction pairs as [|[k r] pairs IH]; intros o H.
  - by destruct o.
  - simpl. rewrite move_attribute_instance by (apply H; by left).
    rewrite IH; [done|]. intros k' Hk'. apply H. by right.
Qed.

Lemma reverse_replace_keys_instance (o : PyObject) pairs :
  (forall r, r ∈ pairs.*2 -> class_attrs o !! r = None) ->
  reverse_replace_keys o pairs
  = (None, mkPyObject (rename_attributes_back (instance_attrs o) pairs)
             (class_attrs o)).
Proof.
  revert o. induction pairs as [|[k r] pairs IH]; intros o H.
  - by destruct o.
  - simpl. rewrite move_attribute_instance by (apply H; by left).
    rewrite IH; [done|]. intros k' Hk'. apply H. by right.
Qed.

Lemma object_getattr_None key (o : PyObject) :
  object_getattr key o = None
  <-> instance_attrs o !! key = None /\ class_attrs o !! key = None.
Proof.
  unfold object_getattr. destruct (instance_attrs o !! key); split; try done.
  - by intros [? _].
  - by intros [_ ?].
Qed.

End Attributes.

(** X16: [reverse_replace_keys] undoes [replace_keys], neither of them
    raising, when the keys and the replacements of the list are all
    different from one another, the object has none of the replacement
    attributes and none of the keys is an attribute of its class.  The
    conditions matter.  With a pair whose key is its own replacement,
    [replace_keys] deletes the attribute from the instance (it is set, then
    removed), and nothing brings it back.  With a key that the object has
    only through its class, [replace_keys] stores the replacement on the
    instance and then stops with the [AttributeError] of [delattr]. *)
Theorem replace_keys_round_trip (d : PyObject) (pairs : list (string * string)) :
  (NoDup (pairs.*1 ++ pairs.*2) ->
   (forall r, r ∈ pairs.*2 -> object_getattr r d = None) ->
   (forall k, k ∈ pairs.*1 -> class_attrs d !! k = None) ->
   exists d', replace_keys d pairs = (None, d')
              /\ reverse_replace_keys d' pairs = (None, d)
              /\ class_attrs d' = class_attrs d
              /\ forall k r, (k, r) ∈ pairs ->
                   object_getattr k d' = None
                   /\ object_getattr r d' = object_getattr k d) /\
  (forall k, class_attrs d !! k = None ->
     let deleted := mkPyObject (delete k (instance_attrs d)) (class_attrs d) in
     replace_keys d [(k, k)] = (None, deleted)
     /\ reverse_replace_keys deleted [(k, k)] = (None, deleted)) /\
  (forall k r v, instance_attrs d !! k = None -> class_attrs d !! k = Some v ->
     k <> r ->
     replace_keys d ((k, r) :: pairs)
     = (Some (AttributeError k), object_setattr r v d)).
Proof.
  split_and!.
  - intros Hnd Habs Hcls.
    assert (Hr : forall r, r ∈ pairs.*2 ->
              instance_attrs d !! r = None /\ class_attrs d !! r = None)
      by (intros r Hin; by apply object_getattr_None, Habs).
    eexists. split_and!.
    + by apply replace_keys_instance.
    + rewrite reverse_replace_keys_instance by (intros r Hin; by apply Hr).
      simpl. rewrite rename_attributes_round_trip; [by destruct d|done|].
      intros r Hin. by apply Hr.
    + done.
    + intros k r Hin.
      assert (Hk' : k ∈ pairs.*1) by (apply list_elem_of_fmap; by exists (k, r)).
      assert (Hr' : r ∈ pairs.*2) by (apply list_elem_of_fmap; by exists (k, r)).
      destruct (rename_attributes_lookup (instance_attrs d) pairs k r)
        as [E1 E2]; [done|intros r' Hin'; by apply Hr|done|].
      rewrite !object_getattr_instance; simpl; try (by apply Hcls);
        try (by apply Hr). done.
  - intros k Hc deleted.
    assert (E : rename_attribute k k (instance_attrs d) = delete k (instance_attrs d)).
    { unfold rename_attribute.
      destruct (instance_attrs d !! k) as [v|] eqn:E; [by rewrite delete_insert_eq|].
      by rewrite delete_id. }
    split.
    + simpl. rewrite move_attribute_instance by done. by rewrite E.
    + simpl. rewrite move_attribute_instance by done. simpl.
      unfold rename_attribute. by rewrite lookup_delete_eq.
  - intros k r v Hi Hc Hne. simpl.
    unfold move_attribute, object_getattr, object_delattr. rewrite Hi, Hc. simpl.
    rewrite lookup_insert_ne by done. by rewrite Hi.
Qed.

(** The statement on an object with attributes [a] and [b] renamed to [x]
    and [y], whose class has a [__doc__]. *)
Lemma replace_keys_round_trip_witness :
  let d := mkPyObject {[ "a" := VInt 1; "b" := VStr "two" ]} {[ "__doc__" := VNone ]} in
  let pairs := [("a", "x"); ("b", "y")] in
  replace_keys d pairs
  = (None, mkPyObject {[ "x" := VInt 1; "y" := VStr "two" ]} {[ "__doc__" := VNone ]})
  /\ exists d', replace_keys d pairs = (None, d')
                /\ reverse_replace_keys d' pairs = (None, d).
Proof.
  intros d pairs. split; [vm_compute; reflexivity|].
  destruct (replace_keys_round_trip d pairs) as (Hround & _).
  destruct Hround as (d' & H1 & H2 & _).
  - apply (bool_decide_unpack _). vm_compute. exact I.
  - intros r Hr. vm_compute in Hr.
    apply elem_of_cons in Hr as [->|Hr]; [vm_compute; reflexivity|].
    apply list_elem_of_singleton in Hr as ->. vm_compute. reflexivity.
  - intros k Hk. vm_compute in Hk.
    apply elem_of_cons in Hk as [->|Hk]; [vm_compute; reflexivity|].
    apply list_elem_of_singleton in Hk as ->. vm_compute. reflexivity.
  - by exists d'.
Defined.

(** ** More on classes and edges *)

(** X17: [add_class_a(x, y)] puts the new class at the end of the list
    [get_classes_in_bidegree(x, y)] returns, so [get_class_by_idx(x, y, -1)]
    finds it, and leaves the list of every other bidegree as it was.  A
    bidegree without classes gives the empty list, on which
    [get_class_by_idx] fails for every index. *)
Theorem add_class_then_lookup (x y : Z) (s : SpectralSequenceChart) :
  let c := (add_class_a x y s).1 in
  let s' := (add_class_a x y s).2 in
  get_classes_in_bidegree x y s' = get_classes_in_bidegree x y s ++ [c] /\
  get_class_by_idx x y (-1) s' = Some c /\
  classes (data s') !! c = Some (mkChartClass x y (Some c) [0] [] []) /\
  (forall x' y', (x', y') <> (x, y) ->
     get_classes_in_bidegree x' y' s' = get_classes_in_bidegree x' y' s) /\
  (forall x' y' idx, _classes_by_bidegree (data s) !! (x', y') = None ->
     get_classes_in_bidegree x' y' s = [] /\ get_class_by_idx x' y' idx s = None).
Proof.
  intros c s'.
  assert (Hl : get_classes_in_bidegree x y s'
               = get_classes_in_bidegree x y s ++ [c]).
  { unfold get_classes_in_bidegree. subst s' c. simpl.
    rewrite lookup_alter_eq.
    destruct (decide ((x, y) ∈ dom (_classes_by_bidegree (data s)))) as [Hd|Hd].
    - apply elem_of_dom in Hd as [l Hl]. by rewrite Hl.
    - rewrite lookup_insert_eq. apply not_elem_of_dom in Hd. by rewrite Hd. }
  split_and!.
  - done.
  - unfold get_class_by_idx. rewrite Hl. unfold py_index.
    rewrite decide_False by lia. rewrite length_app. simpl.
    rewrite decide_True by lia.
    replace (Z.to_nat (Z.of_nat (length (get_classes_in_bidegree x y s) + 1) + -1))
      with (length (get_classes_in_bidegree x y s) + 0) by lia.
    by rewrite lookup_app_r, Nat.add_0_r, Nat.sub_diag by lia.
  - subst s' c. simpl. by apply list_lookup_middle.
  - intros x' y' Hne. unfold get_classes_in_bidegree. subst s'. simpl.
    rewrite lookup_alter_ne by done.
    destruct (decide ((x, y) ∈ dom (_classes_by_bidegree (data s)))); [done|].
    by rewrite lookup_insert_ne.
  - intros x' y' idx Hnone. unfold get_class_by_idx, get_classes_in_bidegree.
    rewrite Hnone. simpl. split; [done|]. unfold py_index. simpl.
    repeat case_decide; try done; by rewrite lookup_nil.
Qed.

(** X18: [add_differential_a] with [auto=False], between two classes of the
    chart, only adds the edge: one [chart.edge.add] is sent, the page list
    and the dirty set are untouched and no class gets a page, so the page of
    the differential need not be a registered page range. *)
Theorem add_differential_without_auto (page : Z) (source target : nat)
    (s : SpectralSequenceChart) :
  has_id source s -> has_id target s ->
  exists d s' source_id target_id,
    add_differential_a page source target false s = Some (d, s') /\
    emitted s s' = [mkMessage "chart.edge.add"
                      (EdgeAdd ChartDifferential d source_id target_id (Some page))] /\
    edges (data s') = edges (data s)
      ++ [mkChartEdge (Some d) ChartDifferential source target (Some page) None] /\
    page_list (data s') = page_list (data s) /\
    _updated_elements (data s') = _updated_elements (data s) /\
    (forall i c', classes (data s') !! i = Some c' ->
       exists c, classes (data s) !! i = Some c /\ class_pages c' = class_pages c).
Proof.
  intros Ha Hb.
  destruct (edge_call_sends ChartDifferential source target (Some page) s Ha Hb)
    as ([d s'] & Hr & Hd & Hdata & ia & ib & _ & _ & Hs).
  simpl in Hd, Hdata, Hs.
  exists d, s', ia, ib. split_and!.
  - done.
  - rewrite Hd. by apply sends_emitted.
  - rewrite Hdata, Hd. done.
  - by rewrite Hdata.
  - by rewrite Hdata.
  - intros i c' Hc'. rewrite Hdata in Hc'. simpl in Hc'.
    apply edge_added_class in Hc' as (c & Hc & _ & _ & _ & ->).
    exists c. split; [done|]. by repeat case_decide.
Qed.

(** The statement on page 7 between two classes of an otherwise new chart:
    the page list keeps its two initial entries. *)
Lemma add_differential_without_auto_witness :
  let s := (add_class_a 0 3 (add_class_a 1 0 (SpectralSequenceChart_init "sseq")).2).2 in
  exists d s',
    add_differential_a 7 0 1 false s = Some (d, s')
    /\ page_list (data s') = [(2, INFINITY); (INFINITY, INFINITY)]%Z.
Proof.
  intros s.
  destruct (add_differential_without_auto 7 0 1 s)
    as (d & s' & ia & ib & Hr & _ & _ & Hp & _);
    [vm_compute; eexists; reflexivity..|].
  exists d, s'. split; [exact Hr|]. rewrite Hp. reflexivity.
Defined.

(** X19: [add_edge_a] appends the new edge to the incident-edge list of the
    source and to that of the target, so an edge from a class to itself is
    entered twice in the list of that class, and an edge between two
    different classes once in each; the lists of all other classes are
    unchanged. *)
Theorem edge_entered_at_both_ends (source target : nat) (s : SpectralSequenceChart)
    (cs ct : ChartClass) :
  classes (data s) !! source = Some cs ->
  classes (data s) !! target = Some ct ->
  has_id source s -> has_id target s ->
  exists e s',
    add_structline_a source target s = Some (e, s') /\
    e = length (edges (data s)) /\
    (exists cs', classes (data s') !! source = Some cs' /\
       class_edges cs' = class_edges cs
                         ++ (if decide (source = target) then [e; e] else [e])) /\
    (exists ct', classes (data s') !! target = Some ct' /\
       class_edges ct' = class_edges ct
                         ++ (if decide (source = target) then [e; e] else [e])) /\
    (forall i, i <> source -> i <> target ->
       classes (data s') !! i = classes (data s) !! i).
Proof.
  intros Hs Ht Ha Hb.
  destruct (edge_call_sends ChartStructline source target None s Ha Hb)
    as ([e s'] & Hr & He & Hdata & _).
  simpl in He, Hdata. exists e, s'. unfold add_structline_a.
  split_and!; try done.
  - eexists. rewrite Hdata. simpl.
    split; [by apply edge_added_class_fwd|].
    subst e. repeat case_decide; simplify_eq; simpl;
      by rewrite <- ?(assoc_L (++)).
  - eexists. rewrite Hdata. simpl.
    split; [by apply edge_added_class_fwd|].
    subst e. repeat case_decide; simplify_eq; simpl;
      by rewrite <- ?(assoc_L (++)).
  - intros i Hi1 Hi2. rewrite Hdata. simpl.
    by rewrite !list_lookup_alter_ne.
Qed.

(** The statement on a loop at the only class of a chart. *)
Lemma edge_entered_at_both_ends_witness :
  let s := (add_class_a 0 0 (SpectralSequenceChart_init "sseq")).2 in
  exists e s' c,
    add_structline_a 0 0 s = Some (e, s')
    /\ classes (data s') !! 0 = Some c
    /\ class_edges c = [0; 0].
Proof.
  intros s.
  destruct (edge_entered_at_both_ends 0 0 s
              (mkChartClass 0 0 (Some 0) [0] [] [])
              (mkChartClass 0 0 (Some 0) [0] [] []))
    as (e & s' & Hr & He & (c & Hc & Hedges) & _);
    [vm_compute; reflexivity | vm_compute; reflexivity
    | vm_compute; eexists; reflexivity | vm_compute; eexists; reflexivity |].
  exists e, s', c. split; [exact Hr|]. split; [exact Hc|].
  rewrite Hedges, He. reflexivity.
Defined.


(** The statement for a second class at (0, 0) next to one at (1, 2). *)
Lemma add_class_then_lookup_witness :
  let s := (add_class_a 1 2 (add_class_a 0 0 (SpectralSequenceChart_init "sseq")).2).2 in
  get_classes_in_bidegree 0 0 (add_class_a 0 0 s).2 = [0; 2]
  /\ get_classes_in_bidegree 1 2 (add_class_a 0 0 s).2 = [1]
  /\ get_class_by_idx 5 5 0 s = None.
Proof.
  intros s.
  destruct (add_class_then_lookup 0 0 s) as (Hl & _ & _ & Hother & Hempty).
  split; [rewrite Hl; vm_compute; reflexivity|].
  split.
  - rewrite (Hother 1 2)%Z by discriminate. vm_compute. reflexivity.
  - apply (Hempty 5 5 0)%Z. vm_compute. reflexivity.
Defined.

